(** * Red-black tree with parent pointers: a shallow embedding

    The Python classes [Node] and [RBTree] of [red_black_tree.py] are
    mutable objects linked by references.  Nodes live in a store indexed
    by addresses, a reference is an [option addr] ([None] is Python's
    [None]), and every method is a computation in a state-and-error monad
    over the tree object.  Loops and the recursive search take a fuel
    argument that bounds the number of iterations. *)

From Stdlib Require Import ZArith Lia.
From stdpp Require Import gmap list sorting.

Local Open Scope Z_scope.

(** ** Data model *)

Inductive Colour := black | red.

#[global] Instance Colour_eq_dec : EqDecision Colour.
Proof. solve_decision. Defined.

Abbreviation addr := nat.

(** [class Node]: the five attributes set by [__init__]. *)
Record Node := mkNode {
  key : Z;
  colour : Colour;
  parent : option addr;
  left_node : option addr;
  right_node : option addr
}.

(** [class RBTree]: the [root] attribute, together with the store that
    holds every node object created so far. *)
Record RBTree := mkTree {
  root : option addr;
  heap : gmap nat Node
}.

Definition with_key (k : Z) (n : Node) : Node :=
  mkNode k (colour n) (parent n) (left_node n) (right_node n).
Definition with_colour (c : Colour) (n : Node) : Node :=
  mkNode (key n) c (parent n) (left_node n) (right_node n).
Definition with_parent (p : option addr) (n : Node) : Node :=
  mkNode (key n) (colour n) p (left_node n) (right_node n).
Definition with_left_node (l : option addr) (n : Node) : Node :=
  mkNode (key n) (colour n) (parent n) l (right_node n).
Definition with_right_node (r : option addr) (n : Node) : Node :=
  mkNode (key n) (colour n) (parent n) (left_node n) r.

(** ** The monad of tree methods *)

Inductive error :=
  | AttributeError   (* attribute access on [None] *)
  | Dangling         (* an address outside the store; no Python object *)
  | OutOfFuel.       (* the iteration bound was reached *)

Inductive result (A : Type) :=
  | Ok (a : A)
  | Raise (e : error).
Arguments Ok {A} a.
Arguments Raise {A} e.

Definition M (A : Type) : Type := RBTree → result (A * RBTree).

Definition ret {A} (a : A) : M A := λ s, Ok (a, s).
Definition bind {A B} (m : M A) (f : A → M B) : M B :=
  λ s, match m s with
       | Ok (a, s') => f a s'
       | Raise e => Raise e
       end.
Definition raise {A} (e : error) : M A := λ _, Raise e.

Notation "'let*' x ':=' c 'in' k" := (bind c (λ x, k))
  (at level 10, x name, c at level 100, k at level 200).
Notation "c '>>' k" := (bind c (λ _, k))
  (at level 90, right associativity).

(** Python's short-circuit [and] / [or] on conditions that may raise. *)
Definition andM (a b : M bool) : M bool :=
  let* x := a in if x then b else ret false.
Definition orM (a b : M bool) : M bool :=
  let* x := a in if x then ret true else b.

(** Attribute read [r.f] and attribute write [r.f = v]. *)
Definition load (r : option addr) : M Node :=
  λ s, match r with
       | None => Raise AttributeError
       | Some a => match heap s !! a with
                   | Some n => Ok (n, s)
                   | None => Raise Dangling
                   end
       end.

Definition store (r : option addr) (f : Node → Node) : M unit :=
  λ s, match r with
       | None => Raise AttributeError
       | Some a => match heap s !! a with
                   | Some n => Ok (tt, mkTree (root s) (<[a := f n]> (heap s)))
                   | None => Raise Dangling
                   end
       end.

Definition getf {A} (f : Node → A) (r : option addr) : M A :=
  let* n := load r in ret (f n).

Definition get_root : M (option addr) := λ s, Ok (root s, s).
Definition set_root (r : option addr) : M unit :=
  λ s, Ok (tt, mkTree r (heap s)).

(** [Node(key, colour)]: a new object, distinct from all existing ones. *)
Definition new_Node (k : Z) (c : Colour) : M (option addr) :=
  λ s, let a := fresh (dom (heap s)) in
       Ok (Some a, mkTree (root s) (<[a := mkNode k c None None None]> (heap s))).

Definition is_None {A} (o : option A) : bool :=
  match o with None => true | Some _ => false end.
Definition not_None {A} (o : option A) : bool := negb (is_None o).

(** ** Methods of [Node] *)

Definition is_red (self : option addr) : M bool :=
  let* c := getf colour self in ret (bool_decide (c = red)).

Definition is_black (self : option addr) : M bool :=
  let* c := getf colour self in ret (bool_decide (c = black)).

Definition has_right_son (self : option addr) : M bool :=
  let* r := getf right_node self in ret (not_None r).

Definition has_left_son (self : option addr) : M bool :=
  let* l := getf left_node self in ret (not_None l).

Definition has_no_children (self : option addr) : M bool :=
  andM (let* b := has_right_son self in ret (negb b))
       (let* b := has_left_son self in ret (negb b)).

Definition has_two_children (self : option addr) : M bool :=
  andM (has_right_son self) (has_left_son self).

Definition has_black_children (self : option addr) : M bool :=
  andM (has_two_children self)
       (andM (let* l := getf left_node self in is_black l)
             (let* r := getf right_node self in is_black r)).

Definition is_right_son (self : option addr) : M bool :=
  let* p := getf parent self in
  if is_None p then ret false else
  let* pr := getf right_node p in
  if is_None pr then ret false else
  ret (bool_decide (self = pr)).

Definition is_left_son (self : option addr) : M bool :=
  let* p := getf parent self in
  if is_None p then ret false else
  let* pl := getf left_node p in
  if is_None pl then ret false else
  ret (bool_decide (self = pl)).

Definition brother_node (self : option addr) : M (option addr) :=
  let* l := is_left_son self in
  let* p := getf parent self in
  if l then getf right_node p else getf left_node p.

Definition grandfather_node (self : option addr) : M (option addr) :=
  let* p := getf parent self in getf parent p.

(** ** Methods of [RBTree] *)

Definition _node_is_root (node : option addr) : M bool :=
  let* r := get_root in ret (bool_decide (node = r)).

Definition is_empty : M bool :=
  let* r := get_root in ret (is_None r).

Definition _left_rotate (node : option addr) : M unit :=
  let* right_son_copy := getf right_node node in
  let* rl := getf left_node right_son_copy in
  store node (with_right_node rl) >>
  let* rl' := getf left_node right_son_copy in
  (if not_None rl' then store rl' (with_parent node) else ret tt) >>
  let* p := getf parent node in
  store right_son_copy (with_parent p) >>
  let* p' := getf parent node in
  (if is_None p' then set_root right_son_copy
   else let* l := is_left_son node in
        if l then store p' (with_left_node right_son_copy)
        else store p' (with_right_node right_son_copy)) >>
  store right_son_copy (with_left_node node) >>
  store node (with_parent right_son_copy).

Definition _right_rotate (node : option addr) : M unit :=
  let* left_son_copy := getf left_node node in
  let* lr := getf right_node left_son_copy in
  store node (with_left_node lr) >>
  let* lr' := getf right_node left_son_copy in
  (if not_None lr' then store lr' (with_parent node) else ret tt) >>
  let* p := getf parent node in
  store left_son_copy (with_parent p) >>
  let* p' := getf parent node in
  (if is_None p' then set_root left_son_copy
   else let* r := is_right_son node in
        if r then store p' (with_right_node left_son_copy)
        else store p' (with_left_node left_son_copy)) >>
  store left_son_copy (with_right_node node) >>
  store node (with_parent left_son_copy).

Definition insert_case_right (inserted_node : option addr) : M (option addr) :=
  let* g := grandfather_node inserted_node in
  let* uncle := getf left_node g in
  let* uncle_red := andM (ret (not_None uncle)) (is_red uncle) in
  if uncle_red then
    store uncle (with_colour black) >>
    let* p := getf parent inserted_node in
    store p (with_colour black) >>
    let* g1 := grandfather_node inserted_node in
    store g1 (with_colour red) >>
    grandfather_node inserted_node
  else
    let* l := is_left_son inserted_node in
    let* inserted_node :=
      (if l then
         let* p := getf parent inserted_node in
         _right_rotate p >> ret p
       else ret inserted_node) in
    let* p := getf parent inserted_node in
    store p (with_colour black) >>
    let* g1 := grandfather_node inserted_node in
    store g1 (with_colour red) >>
    let* g2 := grandfather_node inserted_node in
    _left_rotate g2 >>
    ret inserted_node.

Definition insert_case_left (inserted_node : option addr) : M (option addr) :=
  let* g := grandfather_node inserted_node in
  let* uncle := getf right_node g in
  let* uncle_red := andM (ret (not_None uncle)) (is_red uncle) in
  if uncle_red then
    store uncle (with_colour black) >>
    let* p := getf parent inserted_node in
    store p (with_colour black) >>
    let* g1 := grandfather_node inserted_node in
    store g1 (with_colour red) >>
    grandfather_node inserted_node
  else
    let* r := is_right_son inserted_node in
    let* inserted_node :=
      (if r then
         let* p := getf parent inserted_node in
         _left_rotate p >> ret p
       else ret inserted_node) in
    let* p := getf parent inserted_node in
    store p (with_colour black) >>
    let* g1 := grandfather_node inserted_node in
    store g1 (with_colour red) >>
    let* g2 := grandfather_node inserted_node in
    _right_rotate g2 >>
    ret inserted_node.

(** One pass through the body of the [while] of [_balance_after_insert],
    up to (not including) the [_node_is_root] test; the result is the new
    value of the variable [inserted_node]. *)
Definition insert_loop_body (inserted_node : option addr) : M (option addr) :=
  let* p := getf parent inserted_node in
  let* pr := is_right_son p in
  if pr then insert_case_right inserted_node
  else insert_case_left inserted_node.

(** [while inserted_node.parent.is_red(): ... if root: break]; [fuel]
    bounds the number of passes through the body. *)
Fixpoint insert_loop (fuel : nat) (inserted_node : option addr) : M unit :=
  let* p := getf parent inserted_node in
  let* pred := is_red p in
  if pred then
    match fuel with
    | O => raise OutOfFuel
    | S fuel' =>
        let* inserted_node := insert_loop_body inserted_node in
        let* at_root := _node_is_root inserted_node in
        if at_root then ret tt else insert_loop fuel' inserted_node
    end
  else ret tt.

Definition _balance_after_insert (fuel : nat) (inserted_node : option addr)
  : M unit :=
  let* is_valid_operation :=
    andM (ret (not_None inserted_node))
         (andM (let* p := getf parent inserted_node in ret (not_None p))
               (let* g := grandfather_node inserted_node in ret (not_None g))) in
  if negb is_valid_operation then ret tt else
  insert_loop fuel inserted_node >>
  let* r := get_root in
  store r (with_colour black).

(** The descent of [insert]: returns the final [curr_root]. *)
Fixpoint insert_descend (fuel : nat) (node_to_insert prev_root curr_root : option addr)
  : M (option addr) :=
  if is_None prev_root then ret curr_root else
  match fuel with
  | O => raise OutOfFuel
  | S fuel' =>
      let curr_root := prev_root in
      let* k := getf key node_to_insert in
      let* pk := getf key prev_root in
      let* prev_root :=
        (if k <? pk then getf left_node prev_root
         else getf right_node prev_root) in
      insert_descend fuel' node_to_insert prev_root curr_root
  end.

Definition insert (fuel : nat) (k : Z) : M unit :=
  let* e := is_empty in
  if e then
    let* n := new_Node k black in set_root n
  else
    let* node_to_insert := new_Node k red in
    let* prev_root := get_root in
    let* curr_root := insert_descend fuel node_to_insert prev_root None in
    store node_to_insert (with_parent curr_root) >>
    (if is_None curr_root then set_root node_to_insert
     else
       let* nk := getf key node_to_insert in
       let* ck := getf key curr_root in
       if nk <? ck then store curr_root (with_left_node node_to_insert)
       else store curr_root (with_right_node node_to_insert)) >>
    _balance_after_insert fuel node_to_insert.

Fixpoint _find_key_in_subtree (fuel : nat) (root : option addr) (k : Z)
  : M (option addr) :=
  if is_None root then ret None else
  match fuel with
  | O => raise OutOfFuel
  | S fuel' =>
      let* rk := getf key root in
      if rk =? k then ret root else
      if rk <? k then
        let* r := getf right_node root in _find_key_in_subtree fuel' r k
      else
        let* l := getf left_node root in _find_key_in_subtree fuel' l k
  end.

Definition find_key (fuel : nat) (k : Z) : M (option addr) :=
  let* r := get_root in _find_key_in_subtree fuel r k.

Definition _delete_childless_node (node : option addr) : M unit :=
  let* at_root := _node_is_root node in
  if at_root then set_root None else
  let* rs := is_right_son node in
  let* p := getf parent node in
  if rs then store p (with_right_node None)
  else store p (with_left_node None).

Fixpoint find_next_loop (fuel : nat) (start_node : option addr)
  : M (option addr) :=
  let* hl := has_left_son start_node in
  if hl then
    match fuel with
    | O => raise OutOfFuel
    | S fuel' =>
        let* l := getf left_node start_node in find_next_loop fuel' l
    end
  else ret start_node.

Definition _find_next_key (fuel : nat) (node : option addr) : M (option addr) :=
  let* start_node := getf right_node node in
  find_next_loop fuel start_node.

(** Control flow of one pass through the [while] of
    [_balance_after_delete]; both carry the value of the variable [node]. *)
Inductive loop_ctl :=
  | Continue (node : option addr)
  | Break (node : option addr).

(** Lines 388-392: the final recolouring and rotation, [node = self.root]. *)
Definition delete_left_finish (node brother : option addr) : M loop_ctl :=
  let* p := getf parent node in
  let* pc := getf colour p in
  store brother (with_colour pc) >>
  let* p1 := getf parent node in
  store p1 (with_colour black) >>
  let* br := getf right_node brother in
  store br (with_colour black) >>
  let* p2 := getf parent node in
  _left_rotate p2 >>
  let* r := get_root in
  ret (Continue r).

Definition delete_case_left (node : option addr) : M loop_ctl :=
  let* p := getf parent node in
  let* brother := getf right_node p in
  if is_None brother then ret (Break node) else
  let* bred := is_red brother in
  if bred then
    store brother (with_colour black) >>
    let* p1 := getf parent node in
    store p1 (with_colour red) >>
    let* p2 := getf parent node in
    _left_rotate p2 >>
    let* p3 := getf parent node in
    let* brother := getf right_node p3 in
    if is_None brother then ret (Break node) else ret (Continue node)
  else
    let* light := orM (has_no_children brother) (has_black_children brother) in
    if light then
      store brother (with_colour red) >>
      let* p1 := getf parent node in
      ret (Continue p1)
    else
      let* far_black :=
        orM (let* br := getf right_node brother in ret (is_None br))
            (let* br := getf right_node brother in is_black br) in
      if far_black then
        let* bl := getf left_node brother in
        store bl (with_colour black) >>
        store brother (with_colour red) >>
        _right_rotate brother >>
        let* p1 := getf parent node in
        let* brother := getf right_node p1 in
        if is_None brother then ret (Break node)
        else delete_left_finish node brother
      else delete_left_finish node brother.

(** Lines 415-419. *)
Definition delete_right_finish (node brother : option addr) : M loop_ctl :=
  let* p := getf parent node in
  let* pc := getf colour p in
  store brother (with_colour pc) >>
  let* p1 := getf parent node in
  store p1 (with_colour black) >>
  let* bl := getf left_node brother in
  store bl (with_colour black) >>
  let* p2 := getf parent node in
  _right_rotate p2 >>
  let* r := get_root in
  ret (Continue r).

(** Lines 404-419: in the right-hand case this test is a separate [if],
    reached also after the red-brother rotation. *)
Definition delete_right_rest (node brother : option addr) : M loop_ctl :=
  let* light := orM (has_no_children brother) (has_black_children brother) in
  if light then
    store brother (with_colour red) >>
    let* p1 := getf parent node in
    ret (Continue p1)
  else
    let* far_black :=
      orM (let* bl := getf left_node brother in ret (is_None bl))
          (let* bl := getf left_node brother in is_black bl) in
    if far_black then
      let* br := getf right_node brother in
      store br (with_colour black) >>
      store brother (with_colour red) >>
      _left_rotate brother >>
      let* p1 := getf parent node in
      let* brother := getf left_node p1 in
      if is_None brother then ret (Break node)
      else delete_right_finish node brother
    else delete_right_finish node brother.

Definition delete_case_right (node : option addr) : M loop_ctl :=
  let* p := getf parent node in
  let* brother := getf left_node p in
  if is_None brother then ret (Break node) else
  let* bred := is_red brother in
  if bred then
    store brother (with_colour black) >>
    let* p1 := getf parent node in
    store p1 (with_colour red) >>
    let* p2 := getf parent node in
    _right_rotate p2 >>
    let* p3 := getf parent node in
    let* brother := getf left_node p3 in
    if is_None brother then ret (Break node)
    else delete_right_rest node brother
  else delete_right_rest node brother.

Definition delete_loop_body (node : option addr) : M loop_ctl :=
  let* is_left :=
    orM (andM (has_right_son node)
              (let* r := getf right_node node in
               let* rp := getf parent r in
               let* p := getf parent node in
               ret (bool_decide (rp = p))))
        (is_left_son node) in
  let* stop :=
    andM (andM (ret is_left)
               (let* p := getf parent node in
                let* pr := getf right_node p in ret (is_None pr)))
         (andM (is_right_son node)
               (let* p := getf parent node in
                let* pl := getf left_node p in ret (is_None pl))) in
  if stop then ret (Break node) else
  if is_left then delete_case_left node else delete_case_right node.

(** [while node != self.root and node.is_black()]; the result is the
    final value of [node]. *)
Fixpoint delete_loop (fuel : nat) (node : option addr) : M (option addr) :=
  let* go :=
    andM (let* r := get_root in ret (negb (bool_decide (node = r))))
         (is_black node) in
  if go then
    match fuel with
    | O => raise OutOfFuel
    | S fuel' =>
        let* ctl := delete_loop_body node in
        match ctl with
        | Break node => ret node
        | Continue node => delete_loop fuel' node
        end
    end
  else ret node.

Definition _balance_after_delete (fuel : nat) (node : option addr) : M unit :=
  let* node := delete_loop fuel node in
  store node (with_colour black).

(** What is left to do when the structural part of [delete] is over:
    nothing, or the call [self._balance_after_delete(node)], which is in
    tail position at both places where it occurs. *)
Inductive pending :=
  | NoFixup
  | CallFixup (node : option addr).

(** How the [if]/[elif]/[else] of lines 439-477 is left: by a [return],
    or by falling through to line 479 with a value of [next_key_node]. *)
Inductive flow :=
  | Return (p : pending)
  | Fallthrough (next_key_node : option addr).

Definition delete_cases (fuel : nat) (key_node : option addr) : M flow :=
  let* only_right :=
    andM (has_right_son key_node)
         (let* l := has_left_son key_node in ret (negb l)) in
  if only_right then
    let* at_root := _node_is_root key_node in
    if at_root then
      let* r := getf right_node key_node in
      store r (with_parent None) >>
      let* r1 := getf right_node key_node in
      set_root r1 >>
      let* rt := get_root in
      store rt (with_colour black) >>
      ret (Return NoFixup)
    else
      let* p := getf parent key_node in
      let* r := getf right_node key_node in
      store p (with_left_node r) >>
      let* r1 := getf right_node key_node in
      let* p1 := getf parent key_node in
      store r1 (with_parent p1) >>
      ret (Fallthrough key_node)
  else
  let* only_left :=
    andM (let* r := has_right_son key_node in ret (negb r))
         (has_left_son key_node) in
  if only_left then
    let* at_root := _node_is_root key_node in
    if at_root then
      let* l := getf left_node key_node in
      store l (with_parent None) >>
      let* l1 := getf left_node key_node in
      set_root l1 >>
      let* rt := get_root in
      store rt (with_colour black) >>
      ret (Return NoFixup)
    else
      let* p := getf parent key_node in
      let* l := getf left_node key_node in
      store p (with_left_node l) >>
      let* l1 := getf left_node key_node in
      let* p1 := getf parent key_node in
      store l1 (with_parent p1) >>
      ret (Fallthrough key_node)
  else
    let* next_key_node := _find_next_key fuel key_node in
    let* hr := has_right_son next_key_node in
    let* np := getf parent next_key_node in
    if hr then
      let* nr := getf right_node next_key_node in
      store nr (with_parent np) >>
      let* at_root := _node_is_root next_key_node in
      (if at_root then set_root nr
       else if bool_decide (np = key_node) then
         store np (with_right_node nr) >> store nr (with_parent np)
       else
         store np (with_left_node nr) >> store nr (with_parent np)) >>
      ret (Fallthrough next_key_node)
    else if bool_decide (np = key_node) then
      store key_node (with_right_node None) >>
      let* nk := getf key next_key_node in
      store key_node (with_key nk) >>
      let* rt := get_root in
      store rt (with_colour black) >>
      let* nc := getf colour next_key_node in
      if bool_decide (nc = black) then ret (Return (CallFixup next_key_node))
      else ret (Return NoFixup)
    else
      store np (with_left_node None) >>
      ret (Fallthrough next_key_node).

(** Lines 479-486, up to the call of the fix-up. *)
Definition delete_tail (key_node next_key_node : option addr) : M pending :=
  (if negb (bool_decide (next_key_node = key_node)) then
     let* nc := getf colour next_key_node in
     store key_node (with_colour nc) >>
     let* nk := getf key next_key_node in
     store key_node (with_key nk)
   else ret tt) >>
  let* rt := get_root in
  store rt (with_colour black) >>
  let* nc := getf colour next_key_node in
  if bool_decide (nc = black) then ret (CallFixup next_key_node)
  else ret NoFixup.

(** [delete] up to, and not including, the call of
    [_balance_after_delete]: the structural removal. *)
Definition delete_unlink (fuel : nat) (k : Z) : M pending :=
  let* key_node := find_key fuel k in
  if is_None key_node then ret NoFixup else
  let* leaf := has_no_children key_node in
  if leaf then _delete_childless_node key_node >> ret NoFixup else
  let* fl := delete_cases fuel key_node in
  match fl with
  | Return p => ret p
  | Fallthrough next_key_node => delete_tail key_node next_key_node
  end.

Definition delete (fuel : nat) (k : Z) : M unit :=
  let* p := delete_unlink fuel k in
  match p with
  | NoFixup => ret tt
  | CallFixup node => _balance_after_delete fuel node
  end.

(** The constructor [RBTree.__init__], applied to the given elements. *)
Definition empty_tree : RBTree := mkTree None ∅.

Fixpoint insert_all (fuel : nat) (elements : list Z) : M unit :=
  match elements with
  | [] => ret tt
  | elem :: rest => insert fuel elem >> insert_all fuel rest
  end.

Definition RBTree_init (fuel : nat) (elements : list Z) : result (unit * RBTree) :=
  (set_root None >> insert_all fuel elements) empty_tree.

(** Sequences of public mutating operations. *)
Inductive op := Insert (k : Z) | Delete (k : Z).

Definition run_op (fuel : nat) (o : op) : M unit :=
  match o with
  | Insert k => insert fuel k
  | Delete k => delete fuel k
  end.

Fixpoint run_ops (fuel : nat) (ops : list op) : M unit :=
  match ops with
  | [] => ret tt
  | o :: rest => run_op fuel o >> run_ops fuel rest
  end.

(** ** The tree stored in the heap, and the invariants I1-I5 *)

(** The shape reachable from a reference through [left_node] and
    [right_node], each position carrying the address and the contents of
    its node. *)
Inductive tree :=
  | Leaf
  | Tr (l : tree) (a : addr) (n : Node) (r : tree).

Fixpoint addrs (t : tree) : list addr :=
  match t with
  | Leaf => []
  | Tr l a _ r => addrs l ++ a :: addrs r
  end.

(** The in-order key sequence. *)
Fixpoint inorder_keys (t : tree) : list Z :=
  match t with
  | Leaf => []
  | Tr l _ n r => inorder_keys l ++ key n :: inorder_keys r
  end.

Fixpoint height (t : tree) : nat :=
  match t with
  | Leaf => O
  | Tr l _ _ r => S (Nat.max (height l) (height r))
  end.

(** [rep h par p t]: in the heap [h], the reference [p] is the top of the
    tree [t], and every node of [t] has as [parent] the node above it
    ([par] for the top). *)
Fixpoint rep (h : gmap nat Node) (par p : option addr) (t : tree) : Prop :=
  match t with
  | Leaf => p = None
  | Tr l a n r =>
      p = Some a ∧ h !! a = Some n ∧ parent n = par ∧
      rep h (Some a) (left_node n) l ∧ rep h (Some a) (right_node n) r
  end.

(** I5: the object graph under [root] is a tree, no node occurs twice
    (each has exactly one parent), and the back-references agree. *)
Definition is_tree (s : RBTree) (t : tree) : Prop :=
  rep (heap s) None (root s) t ∧ NoDup (addrs t).

(** Reading the tree off the heap; [None] when a reference dangles, a
    back-reference disagrees, or the fuel runs out (as on a cycle). *)
Fixpoint to_tree (fuel : nat) (h : gmap nat Node) (par p : option addr)
  : option tree :=
  match p with
  | None => Some Leaf
  | Some a =>
      match fuel with
      | O => None
      | S fuel' =>
          match h !! a with
          | None => None
          | Some n =>
              if bool_decide (parent n = par) then
                match to_tree fuel' h (Some a) (left_node n),
                      to_tree fuel' h (Some a) (right_node n) with
                | Some l, Some r => Some (Tr l a n r)
                | _, _ => None
                end
              else None
          end
      end
  end.

(** I1: keys on the left are smaller, keys on the right are not. *)
Fixpoint bst (t : tree) : bool :=
  match t with
  | Leaf => true
  | Tr l _ n r =>
      forallb (λ k, k <? key n) (inorder_keys l) &&
      forallb (λ k, key n <=? k) (inorder_keys r) &&
      bst l && bst r
  end.

Definition top_colour (t : tree) : Colour :=
  match t with
  | Leaf => black
  | Tr _ _ n _ => colour n
  end.

(** I2: a red node has no red child. *)
Fixpoint no_red_red (t : tree) : bool :=
  match t with
  | Leaf => true
  | Tr l _ n r =>
      (bool_decide (colour n = black) ||
       (bool_decide (top_colour l = black) && bool_decide (top_colour r = black)))
      && no_red_red l && no_red_red r
  end.

(** I3: the number of black nodes on every path down to an absent
    child, when all paths agree. *)
Fixpoint black_height (t : tree) : option nat :=
  match t with
  | Leaf => Some O
  | Tr l _ n r =>
      match black_height l, black_height r with
      | Some x, Some y =>
          if bool_decide (x = y)
          then Some (match colour n with black => S x | red => x end)
          else None
      | _, _ => None
      end
  end.

Definition balanced (t : tree) : bool :=
  match black_height t with Some _ => true | None => false end.

(** I4: the root is black. *)
Definition root_black (t : tree) : bool := bool_decide (top_colour t = black).

(** The tree under the root; a tree has no more levels than the heap has
    nodes. *)
Definition tree_of (s : RBTree) : option tree :=
  to_tree (size (heap s)) (heap s) None (root s).

Definition I5 (s : RBTree) : bool :=
  match tree_of s with
  | Some t => bool_decide (NoDup (addrs t))
  | None => false
  end.

Definition holds (P : tree → bool) (s : RBTree) : bool :=
  match tree_of s with
  | Some t => P t
  | None => false
  end.

Definition invariants (s : RBTree) : bool :=
  holds bst s && holds no_red_red s && holds balanced s &&
  holds root_black s && I5 s.

(** The node object behind a reference, if any. *)
Definition node_at (s : RBTree) (r : option addr) : option Node :=
  r ≫= λ a, heap s !! a.

(** The state in which a computation leaves the tree; the empty tree
    when it raises. *)
Definition state_after {A} (r : result (A * RBTree)) : RBTree :=
  match r with
  | Ok (_, s) => s
  | Raise _ => empty_tree
  end.

(** Trees built by the constructor, used as concrete inputs below. *)
Definition tree_1_2_3 : RBTree := state_after (RBTree_init 8 [1; 2; 3]).
Definition tree_1_to_4 : RBTree := state_after (RBTree_init 8 [1; 2; 3; 4]).
Definition tree_1_to_8 : RBTree :=
  state_after (RBTree_init 8 [1; 2; 3; 4; 5; 6; 7; 8]).
Definition tree_13_keys : RBTree :=
  state_after (RBTree_init 8 [20; 10; 30; 5; 15; 25; 35; 1; 2; 3; 4; 27; 33]).

(** ** Notions used to state and prove the properties *)

Definition top (t : tree) : option addr :=
  match t with
  | Leaf => None
  | Tr _ a _ _ => Some a
  end.

(** The number of links between the top of [t] and the node [x]. *)
Fixpoint depth (t : tree) (x : addr) : nat :=
  match t with
  | Leaf => O
  | Tr l a _ r =>
      if decide (x = a) then O
      else S (if decide (x ∈ addrs l) then depth l x else depth r x)
  end.

(** What the representation says about one node [x] of the tree [t]
    whose top has parent [par]. *)
Record linked (h : gmap nat Node) (t : tree) (par : option addr)
    (x : addr) (n : Node) : Prop := {
  lk_node : h !! x = Some n;
  lk_left : ∀ c, left_node n = Some c →
      c ∈ addrs t ∧ depth t c = S (depth t x) ∧ right_node n ≠ Some c ∧
      ∃ nc, h !! c = Some nc ∧ parent nc = Some x;
  lk_right : ∀ c, right_node n = Some c →
      c ∈ addrs t ∧ depth t c = S (depth t x) ∧
      ∃ nc, h !! c = Some nc ∧ parent nc = Some x;
  lk_parent :
      (top t = Some x ∧ parent n = par ∧ depth t x = O) ∨
      (∃ q nq, parent n = Some q ∧ q ∈ addrs t ∧ depth t x = S (depth t q) ∧
               h !! q = Some nq ∧
               (left_node nq = Some x ∨ right_node nq = Some x))
}.

(** Applying [f] to the contents of every node of a tree. *)
Fixpoint tmap (f : addr → Node → Node) (t : tree) : tree :=
  match t with
  | Leaf => Leaf
  | Tr l a n r => Tr (tmap f l) a (f a n) (tmap f r)
  end.

(** The shape after a left rotation at the node [x] (the docstring
    picture of [_left_rotate]). *)
Fixpoint rot_left_at (x : addr) (t : tree) : tree :=
  match t with
  | Leaf => Leaf
  | Tr l a n r =>
      if decide (a = x) then
        match r with
        | Leaf => t
        | Tr rl y ny rr => Tr (Tr l a n rl) y ny rr
        end
      else Tr (rot_left_at x l) a n (rot_left_at x r)
  end.

(** The node at address [a] after a left rotation at [x], whose right
    child is [y]; [b] is the former left child of [y], [p] the former
    parent of [x], and [pl] tells whether [x] was the left child of [p]. *)
Definition rotl_node (x y : addr) (b p : option addr) (pl : bool)
    (a : addr) (n : Node) : Node :=
  mkNode (key n) (colour n)
    (if decide (a = x) then Some y
     else if decide (a = y) then p
     else if decide (Some a = b) then Some x
     else parent n)
    (if decide (a = y) then Some x
     else if decide (Some a = p) then (if pl then Some y else left_node n)
     else left_node n)
    (if decide (a = x) then b
     else if decide (Some a = p) then (if pl then right_node n else Some y)
     else right_node n).

Definition left_child_of (s : RBTree) (x : addr) (p : option addr) : bool :=
  match node_at s p with
  | Some np => bool_decide (left_node np = Some x)
  | None => false
  end.

(** Exchanging left and right everywhere. *)
Definition mirror_node (n : Node) : Node :=
  mkNode (key n) (colour n) (parent n) (right_node n) (left_node n).

Definition mirror (s : RBTree) : RBTree :=
  mkTree (root s) (mirror_node <$> heap s).

Definition mirror_result {A} (r : result (A * RBTree)) : result (A * RBTree) :=
  match r with
  | Ok (a, s) => Ok (a, mirror s)
  | Raise e => Raise e
  end.

Fixpoint mirror_tree (t : tree) : tree :=
  match t with
  | Leaf => Leaf
  | Tr l a n r => Tr (mirror_tree r) a (mirror_node n) (mirror_tree l)
  end.

(** [m1] does on the mirrored tree what [m2] does on the tree. *)
Definition mirrors {A} (m1 m2 : M A) : Prop :=
  ∀ s, m1 (mirror s) = mirror_result (m2 s).

(** What a rotation at [x], which lifts its child [y], leaves behind:
    the new contents [nx'] and [ny'] of the two nodes, [y] in the place
    of [x] under the former parent [p] of [x] (or at the root), the
    parent link of the top [b] of the subtree that changes sides, and
    nothing else. *)
Definition relinked (s s' : RBTree) (x y : addr) (b p : option addr)
    (nx' ny' : Node) : Prop :=
  heap s' !! x = Some nx' ∧
  heap s' !! y = Some ny' ∧
  root s' = (if p is Some _ then root s else Some y) ∧
  (∀ q nq, p = Some q → heap s !! q = Some nq →
     heap s' !! q
     = Some (if bool_decide (left_node nq = Some x)
             then with_left_node (Some y) nq
             else with_right_node (Some y) nq)) ∧
  (∀ c nc, b = Some c → heap s !! c = Some nc →
     heap s' !! c = Some (with_parent (Some x) nc)) ∧
  (∀ a, a ≠ x → a ≠ y → Some a ≠ b → Some a ≠ p →
     heap s' !! a = heap s !! a).

(** Recolouring one node. *)
Definition recolour (a : addr) (c : Colour) (b : addr) (n : Node) : Node :=
  if decide (b = a) then with_colour c n else n.

(** A tree in the middle of an insertion: the red node with key 4 has
    been attached below the red node with key 3, and the fix-up has not
    run yet. *)
Definition tree_before_fixup : RBTree :=
  mkTree (Some 1%nat)
    (list_to_map
       [(0%nat, mkNode 1 red (Some 1%nat) None None);
        (1%nat, mkNode 2 black None (Some 0%nat) (Some 2%nat));
        (2%nat, mkNode 3 red (Some 1%nat) None (Some 3%nat));
        (3%nat, mkNode 4 red (Some 2%nat) None None)]).


(** ** Notions used by the further properties *)

(** [m] leaves the field [f] of every allocated node as it is, except
    possibly at the addresses in [P], and neither allocates nor frees. *)
Definition preserves {B A} (f : Node → B) (P : addr → Prop) (m : M A) : Prop :=
  ∀ s a s', m s = Ok (a, s') →
    ∀ x, ¬ P x → f <$> heap s' !! x = f <$> heap s !! x.

(** [m] only reads. *)
Definition read_only {A} (m : M A) : Prop :=
  ∀ s a s', m s = Ok (a, s') → s' = s.

(** The node below which the descent of [insert] ends when it looks for
    the place of the key [k] in [t]; [c0] when [t] is empty. *)
Fixpoint attach (k : Z) (c0 : option addr) (t : tree) : option addr :=
  match t with
  | Leaf => c0
  | Tr l b n r =>
      if k <? key n then attach k (Some b) l else attach k (Some b) r
  end.

(** The tree with a new node at address [a], with key [k] and colour
    [c], hung in at the place where the descent ends. *)
Fixpoint ins (a : addr) (k : Z) (c : Colour) (par : option addr) (t : tree)
  : tree :=
  match t with
  | Leaf => Tr Leaf a (mkNode k c par None None) Leaf
  | Tr l b n r =>
      if k <? key n then
        Tr (ins a k c (Some b) l) b
           (if l is Leaf then with_left_node (Some a) n else n) r
      else
        Tr l b (if r is Leaf then with_right_node (Some a) n else n)
           (ins a k c (Some b) r)
  end.

(** The colour skeleton of a tree: the shape, the addresses and the
    colours, which is all that I2, I3 and I4 depend on. *)
Inductive ctree :=
  | CLeaf
  | CNode (l : ctree) (a : addr) (c : Colour) (r : ctree).

Fixpoint skel (t : tree) : ctree :=
  match t with
  | Leaf => CLeaf
  | Tr l a n r => CNode (skel l) a (colour n) (skel r)
  end.

Fixpoint caddrs (u : ctree) : list addr :=
  match u with
  | CLeaf => []
  | CNode l a _ r => caddrs l ++ a :: caddrs r
  end.

Definition ctop (u : ctree) : option addr :=
  match u with
  | CLeaf => None
  | CNode _ a _ _ => Some a
  end.

Definition ctopc (u : ctree) : Colour :=
  match u with
  | CLeaf => black
  | CNode _ _ c _ => c
  end.

(** A child that a red node may have: a black one, or the node [z] the
    insert fix-up is working on. *)
Definition child_ok (z : option addr) (u : ctree) : bool :=
  bool_decide (ctopc u = black) ||
  match z, ctop u with
  | Some z, Some a => bool_decide (a = z)
  | _, _ => false
  end.

(** I2, except that the node [z] may be red below a red parent. *)
Fixpoint cnrr (z : option addr) (u : ctree) : bool :=
  match u with
  | CLeaf => true
  | CNode l _ c r =>
      (bool_decide (c = black) || (child_ok z l && child_ok z r))
      && cnrr z l && cnrr z r
  end.

Fixpoint cbh (u : ctree) : option nat :=
  match u with
  | CLeaf => Some O
  | CNode l _ c r =>
      match cbh l, cbh r with
      | Some x, Some y =>
          if bool_decide (x = y)
          then Some (match c with black => S x | red => x end)
          else None
      | _, _ => None
      end
  end.

(** Applying [F] to the subtree whose top is the node [g]. *)
Fixpoint cat (g : addr) (F : ctree → ctree) (u : ctree) : ctree :=
  match u with
  | CLeaf => CLeaf
  | CNode l a c r =>
      if decide (a = g) then F u else CNode (cat g F l) a c (cat g F r)
  end.

(** The subtree whose top is the node [g]. *)
Fixpoint csub (g : addr) (u : ctree) : ctree :=
  match u with
  | CLeaf => CLeaf
  | CNode l a c r =>
      if decide (a = g) then u
      else if decide (g ∈ caddrs l) then csub g l else csub g r
  end.

Definition paint_top (c : Colour) (u : ctree) : ctree :=
  match u with
  | CLeaf => CLeaf
  | CNode l a _ r => CNode l a c r
  end.

Definition rotl_top (u : ctree) : ctree :=
  match u with
  | CNode l a c (CNode rl y cy rr) => CNode (CNode l a c rl) y cy rr
  | _ => u
  end.

Definition rotr_top (u : ctree) : ctree :=
  match u with
  | CNode (CNode ll y cy lr) a c r => CNode ll y cy (CNode lr a c r)
  | _ => u
  end.

Fixpoint cmirror (u : ctree) : ctree :=
  match u with
  | CLeaf => CLeaf
  | CNode l a c r => CNode (cmirror r) a c (cmirror l)
  end.

(** The tree without the node [v] (and what is below it), as
    [_delete_childless_node] leaves it: in the parent of [v] the right
    reference is cleared if it is [v], and the left one otherwise. *)
Fixpoint remove (v : addr) (t : tree) : tree :=
  match t with
  | Leaf => Leaf
  | Tr l a n r =>
      if decide (a = v) then Leaf
      else Tr (remove v l) a
             (if decide (top r = Some v) then with_right_node None n
              else if decide (top l = Some v) then with_left_node None n
              else n)
             (remove v r)
  end.

(** * Properties *)

(** ** Basic facts about the monad *)

Lemma bind_ok {A B} (m : M A) (f : A → M B) s a s' :
  m s = Ok (a, s') → bind m f s = f a s'.
Proof. unfold bind. by intros ->. Qed.

Lemma bind_raise {A B} (m : M A) (f : A → M B) s e :
  m s = Raise e → bind m f s = Raise e.
Proof. unfold bind. by intros ->. Qed.

Lemma getf_some {A} (f : Node → A) a n s :
  heap s !! a = Some n → getf f (Some a) s = Ok (f n, s).
Proof. unfold getf, bind, load, ret. by intros ->. Qed.

Lemma store_some f a n s :
  heap s !! a = Some n →
  store (Some a) f s = Ok (tt, mkTree (root s) (<[a := f n]> (heap s))).
Proof. unfold store. by intros ->. Qed.


(** ** Tactics *)

(** Deciding the tests of a conditional from the hypotheses. *)
Ltac simpl_decide :=
  repeat match goal with
    | |- context [decide ?P] =>
        first [ rewrite (decide_True (P := P)) by (done || congruence)
              | rewrite (decide_False (P := P)) by (done || congruence) ]
    end.

(** Running a computation on a heap whose relevant cells are known. *)
Ltac exec_unfold :=
  unfold _left_rotate, _right_rotate, is_left_son, is_right_son,
    grandfather_node, is_red, is_black, _node_is_root, andM, orM,
    getf, load, store, get_root, set_root, bind, ret; simpl.

Ltac exec_step :=
  first
    [ rewrite lookup_insert_eq
    | rewrite lookup_insert_ne by congruence
    | match goal with
      | H : ?h !! ?a = Some _ |- context [?h !! ?a] => rewrite H
      end
    | rewrite bool_decide_eq_true_2 by congruence
    | rewrite bool_decide_eq_false_2 by congruence ];
  simpl.

Ltac exec := exec_unfold; repeat exec_step.


(** ** The tree and its links *)

Lemma rep_top h par p t : rep h par p t → p = top t.
Proof. destruct t; simpl; [done|]. by intros (-> & _). Qed.

Lemma top_in t a : top t = Some a → a ∈ addrs t.
Proof. destruct t; simpl; [done|]. intros [= ->]. set_solver. Qed.

Lemma depth_top t a : top t = Some a → depth t a = O.
Proof. destruct t; simpl; [done|]. intros [= ->]. by rewrite decide_True. Qed.

Lemma rep_top_node h par p t a :
  rep h par p t → top t = Some a → ∃ n, h !! a = Some n ∧ parent n = par.
Proof.
  destruct t; simpl; [done|]. intros (_ & Hn & Hp & _) [= ->]. eauto.
Qed.

Lemma in_left l a n r x : x ∈ addrs l → x ∈ addrs (Tr l a n r).
Proof. intros. simpl. apply elem_of_app. by left. Qed.
Lemma in_right l a n r x : x ∈ addrs r → x ∈ addrs (Tr l a n r).
Proof. intros. simpl. apply elem_of_app. right. by apply elem_of_cons; right. Qed.
Lemma in_here l a n r : a ∈ addrs (Tr l a n r).
Proof. simpl. apply elem_of_app. right. by apply elem_of_cons; left. Qed.

Lemma depth_here l a n r : depth (Tr l a n r) a = O.
Proof. simpl. by rewrite decide_True. Qed.
Lemma depth_left l a n r x :
  x ≠ a → x ∈ addrs l → depth (Tr l a n r) x = S (depth l x).
Proof. intros. simpl. rewrite decide_False by done. by rewrite decide_True. Qed.
Lemma depth_right l a n r x :
  x ≠ a → x ∉ addrs l → depth (Tr l a n r) x = S (depth r x).
Proof. intros. simpl. rewrite decide_False by done. by rewrite decide_False. Qed.

Lemma NoDup_Tr l a n r :
  NoDup (addrs (Tr l a n r)) →
  NoDup (addrs l) ∧ NoDup (addrs r) ∧ (a ∉ addrs l) ∧ (a ∉ addrs r) ∧
  (∀ c, c ∈ addrs l → c ∉ addrs r).
Proof.
  simpl. intros (Hl & Hlr & Hr)%NoDup_app.
  apply NoDup_cons in Hr as (Har & Hr).
  repeat split; try done.
  - intros ?. eapply Hlr; [done|]. by apply elem_of_cons; left.
  - intros c ? ?. eapply Hlr; [done|]. by apply elem_of_cons; right.
Qed.

Lemma rep_linked t :
  ∀ h par p, rep h par p t → NoDup (addrs t) →
  ∀ x, x ∈ addrs t → ∃ n, linked h t par x n.
Proof.
  induction t as [|l IHl a n r IHr]; intros h par p Hrep Hnd x Hx.
  { by apply elem_of_nil in Hx. }
  destruct Hrep as (-> & Hn & Hpar & Hl & Hr).
  apply NoDup_Tr in Hnd as (Hndl & Hndr & Hal & Har & Hdisj).
  pose proof (rep_top _ _ _ _ Hl) as Htl.
  pose proof (rep_top _ _ _ _ Hr) as Htr.
  simpl in Hx.
  apply elem_of_app in Hx as [Hx|Hx]; [|apply elem_of_cons in Hx as [->|Hx]].
  - (* in the left subtree *)
    destruct (IHl h (Some a) _ Hl Hndl x Hx) as [nx [Hnx Hxl Hxr Hxp]].
    assert (x ≠ a) by (by intros ->).
    exists nx. split; [done| | |].
    + intros c Hc. destruct (Hxl c Hc) as (Hcin & Hd & Hne & Hnc).
      assert (c ≠ a) by (by intros ->).
      split; [by apply in_left|]. split; [|done].
      rewrite !depth_left by done. lia.
    + intros c Hc. destruct (Hxr c Hc) as (Hcin & Hd & Hnc).
      assert (c ≠ a) by (by intros ->).
      split; [by apply in_left|]. split; [|done].
      rewrite !depth_left by done. lia.
    + right. destruct Hxp as [(Htop & Hp & Hd)|(q & nq & Hp & Hq & Hd & Hnq & Hch)].
      * exists a, n. split; [done|]. split; [apply in_here|]. split.
        { rewrite depth_left, depth_here by done. lia. }
        split; [done|]. left. congruence.
      * assert (q ≠ a) by (by intros ->).
        exists q, nq. split; [done|]. split; [by apply in_left|]. split; [|done].
        rewrite !depth_left by done. lia.
  - (* the top itself *)
    exists n. split; [done| | |].
    + intros c Hc. rewrite Hc in Htl. symmetry in Htl.
      destruct (rep_top_node _ _ _ _ _ Hl Htl) as (nc & Hnc & Hpc).
      pose proof (top_in _ _ Htl) as Hcin.
      assert (c ≠ a) by (by intros ->).
      split; [by apply in_left|]. split.
      { rewrite depth_left, depth_here by done. by rewrite (depth_top _ _ Htl). }
      split; [|eauto].
      intros Hrc. rewrite Hrc in Htr. symmetry in Htr.
      apply top_in in Htr. by eapply Hdisj.
    + intros c Hc. rewrite Hc in Htr. symmetry in Htr.
      destruct (rep_top_node _ _ _ _ _ Hr Htr) as (nc & Hnc & Hpc).
      pose proof (top_in _ _ Htr) as Hcin.
      assert (c ≠ a) by (by intros ->).
      assert (c ∉ addrs l) by (intros ?; by eapply Hdisj).
      split; [by apply in_right|]. split; [|eauto].
      rewrite depth_right, depth_here by done. by rewrite (depth_top _ _ Htr).
    + left. by rewrite depth_here.
  - (* in the right subtree *)
    destruct (IHr h (Some a) _ Hr Hndr x Hx) as [nx [Hnx Hxl Hxr Hxp]].
    assert (x ≠ a) by (by intros ->).
    assert (∀ c, c ∈ addrs r → c ∉ addrs l) as Hdisj'
      by (intros c ? ?; by eapply Hdisj).
    exists nx. split; [done| | |].
    + intros c Hc. destruct (Hxl c Hc) as (Hcin & Hd & Hne & Hnc).
      assert (c ≠ a) by (by intros ->).
      split; [by apply in_right|]. split; [|done].
      rewrite !depth_right by eauto. lia.
    + intros c Hc. destruct (Hxr c Hc) as (Hcin & Hd & Hnc).
      assert (c ≠ a) by (by intros ->).
      split; [by apply in_right|]. split; [|done].
      rewrite !depth_right by eauto. lia.
    + right. destruct Hxp as [(Htop & Hp & Hd)|(q & nq & Hp & Hq & Hd & Hnq & Hch)].
      * exists a, n. split; [done|]. split; [apply in_here|]. split.
        { rewrite depth_right, depth_here by eauto. lia. }
        split; [done|]. right. congruence.
      * assert (q ≠ a) by (by intros ->).
        exists q, nq. split; [done|]. split; [by apply in_right|]. split; [|done].
        rewrite !depth_right by eauto. lia.
Qed.

(** What [to_tree] reads off the heap is represented there. *)
Lemma to_tree_rep fuel :
  ∀ h par p t, to_tree fuel h par p = Some t → rep h par p t.
Proof.
  induction fuel as [|fuel IH]; intros h par p t.
  - destruct p; simpl; [done|]. by intros [= <-].
  - destruct p as [a|]; simpl; [|by intros [= <-]].
    destruct (h !! a) as [n|] eqn:Hn; [|done].
    case_bool_decide as Hpar; [|done].
    destruct (to_tree fuel h (Some a) (left_node n)) as [l|] eqn:Hl; [|done].
    destruct (to_tree fuel h (Some a) (right_node n)) as [r|] eqn:Hr; [|done].
    intros [= <-]. simpl. eauto 10.
Qed.

Lemma invariants_is_tree s :
  invariants s = true → ∃ t, tree_of s = Some t ∧ is_tree s t.
Proof.
  unfold invariants, I5. intros H.
  apply andb_prop in H as [_ H].
  destruct (tree_of s) as [t|] eqn:Ht; [|done].
  exists t. split; [done|]. split.
  - by eapply to_tree_rep.
  - by apply bool_decide_eq_true_1 in H.
Qed.


(** ** Left-right symmetry *)

Lemma mirror_node_involutive n : mirror_node (mirror_node n) = n.
Proof. by destruct n. Qed.

Lemma mirror_involutive s : mirror (mirror s) = s.
Proof.
  destruct s as [r h]. unfold mirror. simpl. f_equal.
  apply map_eq. intros a. rewrite !lookup_fmap.
  destruct (h !! a); simpl; [|done]. by rewrite mirror_node_involutive.
Qed.

Lemma mirrors_ret {A} (v : A) : mirrors (ret v) (ret v).
Proof. by intros s. Qed.

Lemma mirrors_raise {A} e : mirrors (@raise A e) (raise e).
Proof. by intros s. Qed.

Lemma mirrors_bind {A B} (m1 m2 : M A) (f1 f2 : A → M B) :
  mirrors m1 m2 → (∀ a, mirrors (f1 a) (f2 a)) →
  mirrors (bind m1 f1) (bind m2 f2).
Proof.
  intros Hm Hf s. unfold bind. rewrite Hm.
  destruct (m2 s) as [[a s']|e]; simpl; [apply Hf|done].
Qed.

Lemma mirrors_getf {A} (f1 f2 : Node → A) r :
  (∀ n, f1 (mirror_node n) = f2 n) → mirrors (getf f1 r) (getf f2 r).
Proof.
  intros Hf s. unfold getf, bind, load, ret. destruct r as [a|]; [|done].
  simpl. rewrite lookup_fmap. destruct (heap s !! a); simpl; [|done].
  by rewrite Hf.
Qed.

Lemma mirrors_store (g1 g2 : Node → Node) r :
  (∀ n, g1 (mirror_node n) = mirror_node (g2 n)) →
  mirrors (store r g1) (store r g2).
Proof.
  intros Hg s. unfold store. destruct r as [a|]; [|done].
  simpl. rewrite lookup_fmap. destruct (heap s !! a); simpl; [|done].
  unfold mirror. simpl. by rewrite fmap_insert, Hg.
Qed.

Lemma mirrors_get_root : mirrors get_root get_root.
Proof. by intros s. Qed.

Lemma mirrors_set_root r : mirrors (set_root r) (set_root r).
Proof. by intros s. Qed.

Create HintDb mirror.

#[local] Hint Resolve mirrors_ret mirrors_raise mirrors_get_root mirrors_set_root
  : mirror.
#[local] Hint Extern 1 (mirrors (getf _ _) (getf _ _)) =>
  apply mirrors_getf; intros []; reflexivity : mirror.
#[local] Hint Extern 1 (mirrors (store _ _) (store _ _)) =>
  apply mirrors_store; intros []; reflexivity : mirror.
#[local] Hint Extern 2 (mirrors (bind _ _) (bind _ _)) =>
  apply mirrors_bind; [|intros ?] : mirror.
#[local] Hint Extern 2 (mirrors (if ?b then _ else _) (if ?b then _ else _)) =>
  destruct b : mirror.

Ltac mirror_auto := unfold andM, orM; auto 40 with mirror.

Lemma mirrors_is_left_son r : mirrors (is_left_son r) (is_right_son r).
Proof. unfold is_left_son, is_right_son. mirror_auto. Qed.

Lemma mirrors_is_right_son r : mirrors (is_right_son r) (is_left_son r).
Proof. unfold is_left_son, is_right_son. mirror_auto. Qed.

Lemma mirrors_grandfather_node r :
  mirrors (grandfather_node r) (grandfather_node r).
Proof. unfold grandfather_node. mirror_auto. Qed.

Lemma mirrors_is_red r : mirrors (is_red r) (is_red r).
Proof. unfold is_red. mirror_auto. Qed.

Lemma mirrors_node_is_root r : mirrors (_node_is_root r) (_node_is_root r).
Proof. unfold _node_is_root. mirror_auto. Qed.

#[local] Hint Resolve mirrors_is_left_son mirrors_is_right_son
  mirrors_grandfather_node mirrors_is_red mirrors_node_is_root : mirror.

Lemma mirrors_right_rotate r : mirrors (_right_rotate r) (_left_rotate r).
Proof. unfold _left_rotate, _right_rotate. mirror_auto. Qed.

Lemma mirrors_left_rotate r : mirrors (_left_rotate r) (_right_rotate r).
Proof. unfold _left_rotate, _right_rotate. mirror_auto. Qed.

#[local] Hint Resolve mirrors_left_rotate mirrors_right_rotate : mirror.

Lemma mirrors_insert_case_left r :
  mirrors (insert_case_left r) (insert_case_right r).
Proof. unfold insert_case_left, insert_case_right. mirror_auto. Qed.

Lemma mirrors_insert_case_right r :
  mirrors (insert_case_right r) (insert_case_left r).
Proof. unfold insert_case_left, insert_case_right. mirror_auto. Qed.

(** ** C7: rotations *)

Lemma left_rotate_spec s x nx y ny :
  heap s !! x = Some nx →
  right_node nx = Some y →
  heap s !! y = Some ny →
  x ≠ y →
  (∀ b, left_node ny = Some b → b ≠ x ∧ b ≠ y ∧ is_Some (heap s !! b)) →
  (∀ q, parent nx = Some q →
        q ≠ x ∧ q ≠ y ∧ left_node ny ≠ Some q ∧ is_Some (heap s !! q)) →
  ∃ s', _left_rotate (Some x) s = Ok (tt, s') ∧
        root s' = (if parent nx is Some _ then root s else Some y) ∧
        ∀ a, heap s' !! a
             = rotl_node x y (left_node ny) (parent nx)
                 (left_child_of s x (parent nx)) a <$> heap s !! a.
Proof.
  intros Hx Hxr Hy Hxy Hb Hq.
  destruct s as [rt h]. simpl in *.
  destruct nx as [kx cx px lx rx], ny as [ky cy py ly ry]. simpl in *. subst rx.
  destruct ly as [b|]; [destruct (Hb b eq_refl) as (Hbx & Hby & [nb Hnb])|];
  (destruct px as [q|]; [destruct (Hq q eq_refl) as (Hqx & Hqy & Hqb & [nq Hnq])|]);
  clear Hb Hq.
  all: try (assert (q ≠ b) by congruence).
  all: try (destruct nq as [kq cq pq [lq|] rq];
            [destruct (decide (lq = x)) as [->|Hlq]|]).
  all: exec.
  all: eexists; split; [reflexivity|]; split; [done|].
  all: intros a; simpl; unfold left_child_of, node_at; simpl; rewrite ?Hnq; simpl.
  all: rewrite ?bool_decide_eq_true_2 by done; rewrite ?bool_decide_eq_false_2 by done.
  all: rewrite !lookup_insert.
  all: unfold rotl_node.
  all: repeat case_decide; simplify_eq; try congruence.
  all: rewrite ?Hx, ?Hy, ?Hnb, ?Hnq; simpl.
  all: repeat case_decide; simplify_eq; try congruence; try done.
  all: try (destruct (h !! a) as [[]|]; simpl; repeat case_decide; simplify_eq; done).
Qed.

Lemma rep_tmap t :
  ∀ h h' f par par' p,
    NoDup (addrs t) →
    (∀ a n, a ∈ addrs t → h !! a = Some n → h' !! a = Some (f a n)) →
    (∀ a n, a ∈ addrs t → h !! a = Some n →
            left_node (f a n) = left_node n ∧ right_node (f a n) = right_node n ∧
            (top t ≠ Some a → parent (f a n) = parent n)) →
    (∀ a n, top t = Some a → h !! a = Some n → parent (f a n) = par') →
    rep h par p t → rep h' par' p (tmap f t).
Proof.
  induction t as [|l IHl a n r IHr]; intros h h' f par par' p Hnd Hh Hf Htop Hrep.
  { done. }
  destruct Hrep as (-> & Hn & Hpar & Hl & Hr).
  apply NoDup_Tr in Hnd as (Hndl & Hndr & Hal & Har & Hdisj).
  destruct (Hf a n (in_here _ _ _ _) Hn) as (Hfl & Hfr & _).
  simpl. split; [done|]. split; [apply Hh; [apply in_here|done]|].
  split; [by apply Htop|].
  rewrite Hfl, Hfr. split.
  - apply (IHl h h' f (Some a) (Some a)); try done.
    + intros c nc Hc Hnc. apply Hh; [by apply in_left|done].
    + intros c nc Hc Hnc.
      destruct (Hf c nc (in_left _ _ _ _ _ Hc) Hnc) as (? & ? & Hp).
      split; [done|]. split; [done|]. intros _. apply Hp. simpl. congruence.
    + intros c nc Hc Hnc.
      destruct (rep_top_node _ _ _ _ _ Hl Hc) as (nc' & Hnc' & Hpc).
      assert (nc' = nc) as -> by congruence.
      pose proof (top_in _ _ Hc) as Hcin.
      destruct (Hf c nc (in_left _ _ _ _ _ Hcin) Hnc) as (_ & _ & Hp).
      rewrite Hp; [done|]. simpl. congruence.
  - apply (IHr h h' f (Some a) (Some a)); try done.
    + intros c nc Hc Hnc. apply Hh; [by apply in_right|done].
    + intros c nc Hc Hnc.
      destruct (Hf c nc (in_right _ _ _ _ _ Hc) Hnc) as (? & ? & Hp).
      split; [done|]. split; [done|]. intros _. apply Hp. simpl. congruence.
    + intros c nc Hc Hnc.
      destruct (rep_top_node _ _ _ _ _ Hr Hc) as (nc' & Hnc' & Hpc).
      assert (nc' = nc) as -> by congruence.
      pose proof (top_in _ _ Hc) as Hcin.
      destruct (Hf c nc (in_right _ _ _ _ _ Hcin) Hnc) as (_ & _ & Hp).
      rewrite Hp; [done|]. simpl. congruence.
Qed.

Lemma addrs_tmap f t : addrs (tmap f t) = addrs t.
Proof. induction t; simpl; congruence. Qed.

Lemma rot_left_at_notin x t : x ∉ addrs t → rot_left_at x t = t.
Proof.
  induction t as [|l IHl a n r IHr]; [done|]. intros Hx. simpl.
  rewrite decide_False by (intros ->; apply Hx, in_here).
  rewrite IHl by (intros ?; by apply Hx, in_left).
  rewrite IHr by (intros ?; by apply Hx, in_right). done.
Qed.

Lemma addrs_rot_left_at x t : addrs (rot_left_at x t) = addrs t.
Proof.
  induction t as [|l IHl a n r IHr]; [done|]. simpl.
  case_decide.
  - destruct r; [done|]. simpl. by rewrite <- app_assoc.
  - simpl. congruence.
Qed.

Lemma inorder_keys_rot_left_at x t :
  inorder_keys (rot_left_at x t) = inorder_keys t.
Proof.
  induction t as [|l IHl a n r IHr]; [done|]. simpl.
  case_decide.
  - destruct r; [done|]. simpl. by rewrite <- app_assoc.
  - simpl. congruence.
Qed.

Lemma inorder_keys_tmap f t :
  (∀ a n, key (f a n) = key n) → inorder_keys (tmap f t) = inorder_keys t.
Proof. intros Hf. induction t; simpl; [done|]. rewrite Hf. congruence. Qed.

Lemma rotl_node_other x y b p pl a n :
  a ≠ x → a ≠ y → Some a ≠ b → Some a ≠ p → rotl_node x y b p pl a n = n.
Proof.
  intros. destruct n. unfold rotl_node. simpl. by simpl_decide.
Qed.

Section rotate_left_tree.
Variables (h h' : gmap nat Node) (x y : addr) (nx ny : Node) (pl : bool).
Hypothesis Hx : h !! x = Some nx.
Hypothesis Hxr : right_node nx = Some y.
Hypothesis Hy : h !! y = Some ny.
Let f := rotl_node x y (left_node ny) (parent nx) pl.
Hypothesis Hh' : ∀ a, h' !! a = f a <$> h !! a.
Hypothesis Hpl : ∀ q nq, parent nx = Some q → h !! q = Some nq →
                         pl = bool_decide (left_node nq = Some x).

(** A subtree that the rotation does not touch. *)
Lemma rep_rot_frame t par p :
  NoDup (addrs t) →
  x ∉ addrs t → y ∉ addrs t →
  (∀ b, left_node ny = Some b → b ∉ addrs t) →
  (∀ q, parent nx = Some q → q ∉ addrs t) →
  rep h par p t → rep h' par p (tmap f t).
Proof.
  intros Hnd Hxt Hyt Hbt Hqt Hrep.
  assert (∀ a n, a ∈ addrs t → f a n = n) as Hid.
  { intros a n Ha. apply rotl_node_other.
    - by intros ->.
    - by intros ->.
    - intros Hb. by eapply Hbt.
    - intros Hq. by eapply Hqt. }
  eapply rep_tmap; [done| | | |done].
  - intros a n Ha Hn. by rewrite Hh', Hn.
  - intros a n Ha Hn. by rewrite Hid.
  - intros a n Ha Hn. rewrite Hid by by apply top_in.
    destruct (rep_top_node _ _ _ _ _ Hrep Ha) as (n' & Hn' & Hp). congruence.
Qed.

Lemma rep_rot_left t :
  ∀ par pt,
    rep h par pt t → NoDup (addrs t) → x ∈ addrs t →
    (∀ q, par = Some q → q ∉ addrs t) →
    rep h' par (if decide (pt = Some x) then Some y else pt)
        (tmap f (rot_left_at x t)).
Proof.
  induction t as [|l IHl a n r IHr]; intros par pt Hrep Hnd Hxt Hpar.
  { by apply elem_of_nil in Hxt. }
  pose proof Hrep as (-> & Hn & Hpn & Hl & Hr).
  pose proof (NoDup_Tr _ _ _ _ Hnd) as (Hndl & Hndr & Hal & Har & Hdisj).
  destruct (rep_linked _ _ _ _ Hrep Hnd x Hxt) as [nx' [Hnx' Hxl Hxrr Hxp]].
  assert (nx' = nx) as -> by congruence.
  destruct (Hxrr y Hxr) as (Hyt & Hdy & ny' & Hny' & Hyp).
  assert (ny' = ny) as -> by congruence.
  simpl. destruct (decide (a = x)) as [->|Hax].
  - (* the rotation takes place at the top *)
    assert (n = nx) as -> by congruence.
    rewrite decide_True by done.
    rewrite Hxr in Hr.
    destruct r as [|rl y' ny' rr]; [done|].
    destruct Hr as ([= <-] & Hny'' & _ & Hrl & Hrr).
    assert (ny' = ny) as -> by congruence.
    apply NoDup_Tr in Hndr as (Hndrl & Hndrr & Hyrl & Hyrr & Hdisjr).
    assert (x ≠ y) as Hxy by (intros ->; apply Har, in_here).
    assert (Some y ≠ parent nx) as Hyq.
    { intros Hq. eapply Hpar; [by rewrite <- Hpn, <- Hq|].
      by apply in_right, in_here. }
    assert (Some x ≠ parent nx) as Hxq.
    { intros Hq. eapply Hpar; [by rewrite <- Hpn, <- Hq|]. apply in_here. }
    assert (∀ q, parent nx = Some q → q ∉ addrs (Tr l x nx (Tr rl y ny rr))) as Hq
      by (intros q Hq; apply Hpar; congruence).
    assert (∀ b, left_node ny = Some b → b ∈ addrs rl) as Hb.
    { intros b Hb. apply top_in. rewrite <- Hb. symmetry. by eapply rep_top. }
    assert (y ≠ x) as Hyx by done.
    simpl.
    simpl_decide.
    split; [done|].
    split; [by rewrite Hh', Hy|].
    split; [done|].
    split; [split; [done|]|].
    + split; [by rewrite Hh', Hx|].
      split; [done|].
      split.
      * apply rep_rot_frame; try done.
        -- intros ?. eapply Hdisj; [done|]. apply in_here.
        -- intros b Hbl ?. eapply Hdisj; [done|]. by apply in_left, Hb.
        -- intros q Hqq ?. eapply Hq; [done|]. by apply in_left.
      * (* the former left subtree of [y] hangs below [x] *)
        eapply rep_tmap; [done| | | |exact Hrl].
        -- intros c nc Hc Hnc. by rewrite Hh', Hnc.
        -- intros c nc Hc Hnc.
           assert (c ≠ x) by (intros ->; apply Har; by apply in_left).
           assert (c ≠ y) by (by intros ->).
           assert (Some c ≠ parent nx).
           { intros Hcq. eapply Hq; [done|]. by apply in_right, in_left. }
           unfold f, rotl_node; simpl. simpl_decide.
           split; [done|]. split; [done|]. intros Htop.
           rewrite decide_False; [done|].
           intros Hcb. apply Htop. rewrite Hcb. symmetry. by eapply rep_top.
        -- intros c nc Hc Hnc.
           assert (Some c = left_node ny) as Hcb
             by (rewrite <- Hc; symmetry; by eapply rep_top).
           pose proof (top_in _ _ Hc) as Hcin.
           assert (c ≠ x) by (intros ->; apply Har; by apply in_left).
           assert (c ≠ y) by (by intros ->).
           unfold f, rotl_node; simpl. by simpl_decide.
    + apply rep_rot_frame; try done.
      * intros ?. apply Har. by apply in_right.
      * intros b Hbl ?. eapply Hdisjr; [by apply Hb|done].
      * intros q Hqq ?. eapply Hq; [done|]. by apply in_right, in_right.
  - (* the rotation takes place below *)
    rewrite decide_False by congruence.
    assert (x ∈ addrs l ∨ x ∈ addrs r) as Hside.
    { simpl in Hxt. apply elem_of_app in Hxt as [?|Hxt]; [by left|].
      apply elem_of_cons in Hxt as [?|?]; [done|by right]. }
    assert (left_node n = top l) as Hnl by by eapply rep_top.
    assert (right_node n = top r) as Hnr by by eapply rep_top.
    destruct Hside as [Hxs|Hxs].
    + (* in the left subtree *)
      rewrite (rot_left_at_notin x r) by by apply Hdisj.
      destruct (rep_linked _ _ _ _ Hl Hndl x Hxs) as [nx' [Hnx2 _ Hxr2 Hxp2]].
      assert (nx' = nx) as -> by congruence.
      destruct (Hxr2 y Hxr) as (Hyl & _).
      destruct (rep_linked _ _ _ _ Hl Hndl y Hyl) as [ny' [Hny2 Hyl2 _ _]].
      assert (ny' = ny) as -> by congruence.
      assert (a ≠ y) by (by intros ->).
      assert (Some a ≠ left_node ny) as Hab.
      { intros Hb. symmetry in Hb. destruct (Hyl2 a Hb) as (? & _). done. }
      simpl. split; [done|]. split; [by rewrite Hh', Hn|].
      rewrite !(decide_False (P := a = x)), !(decide_False (P := a = y)),
        !(decide_False (P := Some a = left_node ny)) by done.
      split; [done|].
      destruct Hxp2 as [(Htop & Hp & _)|(q & nq & Hp & Hq & _)].
      * rewrite !(decide_True (P := Some a = parent nx)) by done.
        rewrite (Hpl a n) by done.
        rewrite bool_decide_eq_true_2 by congruence.
        split.
        -- specialize (IHl (Some a) (left_node n) Hl Hndl Hxs).
           rewrite decide_True in IHl by congruence.
           apply IHl. by intros ? [= <-].
        -- apply rep_rot_frame; try done.
           ++ by apply Hdisj.
           ++ by apply Hdisj.
           ++ intros b Hb. apply Hdisj. by destruct (Hyl2 b Hb).
           ++ intros ? ?. by simplify_eq.
      * assert (a ≠ q) by (by intros ->).
        rewrite !(decide_False (P := Some a = parent nx)) by congruence.
        assert (left_node n ≠ Some x) as Hne.
        { intros Htop. rewrite Hnl in Htop.
          destruct (rep_top_node _ _ _ _ _ Hl Htop) as (? & ? & ?).
          congruence. }
        split.
        -- specialize (IHl (Some a) (left_node n) Hl Hndl Hxs).
           rewrite decide_False in IHl by done.
           apply IHl. by intros ? [= <-].
        -- apply rep_rot_frame; try done.
           ++ by apply Hdisj.
           ++ by apply Hdisj.
           ++ intros b Hb. apply Hdisj. by destruct (Hyl2 b Hb).
           ++ intros ? ?. simplify_eq. by apply Hdisj.
    + (* in the right subtree *)
      assert (x ∉ addrs l) as Hxl' by (intros ?; by eapply Hdisj).
      rewrite (rot_left_at_notin x l) by done.
      destruct (rep_linked _ _ _ _ Hr Hndr x Hxs) as [nx' [Hnx2 _ Hxr2 Hxp2]].
      assert (nx' = nx) as -> by congruence.
      destruct (Hxr2 y Hxr) as (Hyr & _).
      destruct (rep_linked _ _ _ _ Hr Hndr y Hyr) as [ny' [Hny2 Hyl2 _ _]].
      assert (ny' = ny) as -> by congruence.
      assert (a ≠ y) by (by intros ->).
      assert (Some a ≠ left_node ny) as Hab.
      { intros Hb. symmetry in Hb. destruct (Hyl2 a Hb) as (? & _). done. }
      assert (left_node n ≠ Some x) as Hne.
      { intros Htop. rewrite Hnl in Htop. by apply top_in in Htop. }
      simpl. split; [done|]. split; [by rewrite Hh', Hn|].
      rewrite !(decide_False (P := a = x)), !(decide_False (P := a = y)),
        !(decide_False (P := Some a = left_node ny)) by done.
      split; [done|].
      destruct Hxp2 as [(Htop & Hp & _)|(q & nq & Hp & Hq & _)].
      * rewrite !(decide_True (P := Some a = parent nx)) by done.
        rewrite (Hpl a n) by done.
        rewrite bool_decide_eq_false_2 by done.
        split.
        -- apply rep_rot_frame; try done.
           ++ intros ?. by eapply Hdisj.
           ++ intros b Hb ?. eapply Hdisj; [done|]. by destruct (Hyl2 b Hb).
           ++ intros ? ?. by simplify_eq.
        -- specialize (IHr (Some a) (right_node n) Hr Hndr Hxs).
           rewrite decide_True in IHr by congruence.
           apply IHr. by intros ? [= <-].
      * assert (a ≠ q) by (by intros ->).
        rewrite !(decide_False (P := Some a = parent nx)) by congruence.
        assert (right_node n ≠ Some x) as Hner.
        { intros Htop. rewrite Hnr in Htop.
          destruct (rep_top_node _ _ _ _ _ Hr Htop) as (? & ? & ?).
          congruence. }
        split.
        -- apply rep_rot_frame; try done.
           ++ intros ?. by eapply Hdisj.
           ++ intros b Hb ?. eapply Hdisj; [done|]. by destruct (Hyl2 b Hb).
           ++ intros ? ? ?. simplify_eq. by eapply Hdisj.
        -- specialize (IHr (Some a) (right_node n) Hr Hndr Hxs).
           rewrite decide_False in IHr by done.
           apply IHr. by intros ? [= <-].
Qed.

End rotate_left_tree.

Lemma rep_mirror t :
  ∀ h par p, rep h par p t → rep (mirror_node <$> h) par p (mirror_tree t).
Proof.
  induction t as [|l IHl a n r IHr]; intros h par p; [done|].
  intros (-> & Hn & Hp & Hl & Hr). simpl.
  rewrite lookup_fmap, Hn. eauto 10.
Qed.

Lemma addrs_mirror_tree t : addrs (mirror_tree t) = reverse (addrs t).
Proof.
  induction t as [|l IHl a n r IHr]; [done|]. simpl.
  rewrite reverse_app, reverse_cons, IHl, IHr. by rewrite <- app_assoc.
Qed.

Lemma inorder_keys_mirror_tree t :
  inorder_keys (mirror_tree t) = reverse (inorder_keys t).
Proof.
  induction t as [|l IHl a n r IHr]; [done|]. simpl.
  rewrite reverse_app, reverse_cons, IHl, IHr. by rewrite <- app_assoc.
Qed.

Lemma is_tree_mirror s t : is_tree s t → is_tree (mirror s) (mirror_tree t).
Proof.
  intros [Hrep Hnd]. split.
  - by apply rep_mirror.
  - by rewrite addrs_mirror_tree, reverse_Permutation.
Qed.

Lemma is_tree_root s t : is_tree s t → root s = top t.
Proof. intros [Hrep _]. by eapply rep_top. Qed.

(** The left rotation on a tree: it succeeds, and the result is the
    rotated tree. *)
Lemma left_rotate_tree s t x nx y :
  is_tree s t → x ∈ addrs t →
  heap s !! x = Some nx → right_node nx = Some y →
  ∃ s' ny,
    heap s !! y = Some ny ∧
    _left_rotate (Some x) s = Ok (tt, s') ∧
    root s' = (if parent nx is Some _ then root s else Some y) ∧
    (∀ a, heap s' !! a
          = rotl_node x y (left_node ny) (parent nx)
              (left_child_of s x (parent nx)) a <$> heap s !! a) ∧
    is_tree s'
      (tmap (rotl_node x y (left_node ny) (parent nx)
               (left_child_of s x (parent nx)))
         (rot_left_at x t)) ∧
    x ≠ y ∧ Some x ≠ left_node ny ∧ Some y ≠ left_node ny ∧
    Some x ≠ parent nx ∧ Some y ≠ parent nx ∧
    (left_node ny = None ∨ left_node ny ≠ parent nx).
Proof.
  intros [Hrep Hnd] Hxt Hx Hxr.
  destruct (rep_linked _ _ _ _ Hrep Hnd x Hxt) as [nx' [Hnx _ Hxrr Hxp]].
  assert (nx' = nx) as -> by congruence.
  destruct (Hxrr y Hxr) as (Hyt & Hdy & ny & Hy & Hyp).
  destruct (rep_linked _ _ _ _ Hrep Hnd y Hyt) as [ny' [Hny Hyl _ _]].
  assert (ny' = ny) as -> by congruence.
  assert (x ≠ y) as Hxy by (intros ->; lia).
  assert (∀ b, left_node ny = Some b →
               b ≠ x ∧ b ≠ y ∧ depth t b = S (S (depth t x)) ∧
               is_Some (heap s !! b)) as Hb.
  { intros b Hb. destruct (Hyl b Hb) as (_ & Hd & _ & nb & Hnb & _).
    repeat split; [intros ->; lia|intros ->; lia|lia|eauto]. }
  assert (∀ q, parent nx = Some q →
               q ≠ x ∧ q ≠ y ∧ left_node ny ≠ Some q ∧ is_Some (heap s !! q) ∧
               root s ≠ Some x) as Hq.
  { intros q Hq.
    destruct Hxp as [(Htop & Hp & _)|(q' & nq & Hp & _ & Hd & Hnq & _)];
      [congruence|].
    assert (q' = q) as -> by congruence.
    repeat split; [intros ->; lia|intros ->; lia| |eauto|].
    - intros Hbq. destruct (Hb q Hbq) as (_ & _ & ? & _). lia.
    - intros Hroot. rewrite (rep_top _ _ _ _ Hrep) in Hroot.
      destruct (rep_top_node _ _ _ _ _ Hrep Hroot) as (? & ? & ?). congruence. }
  destruct (left_rotate_spec s x nx y ny) as (s' & Hrun & Hroot & Hheap);
    try done.
  { intros b Hbb. destruct (Hb b Hbb) as (? & ? & _ & ?). done. }
  { intros q Hqq. destruct (Hq q Hqq) as (? & ? & ? & ? & _). done. }
  exists s', ny. split; [done|]. split; [done|]. split; [done|].
  split; [done|]. split; [split|].
  - assert (root s' = if decide (root s = Some x) then Some y else root s) as ->.
    { rewrite Hroot. destruct (parent nx) as [q|] eqn:Hpx.
      - destruct (Hq q eq_refl) as (_ & _ & _ & _ & ?).
        by rewrite decide_False.
      - destruct Hxp as [(Htop & _)|(? & ? & ? & _)]; [|done].
        rewrite (rep_top _ _ _ _ Hrep). by rewrite decide_True. }
    eapply (rep_rot_left (heap s) (heap s') x y nx ny); try done.
    intros q nq Hpq Hnq. unfold left_child_of, node_at.
    rewrite Hpq. simpl. by rewrite Hnq.
  - by rewrite addrs_tmap, addrs_rot_left_at.
  - split; [done|]. split; [intros Hbx; symmetry in Hbx; by destruct (Hb x Hbx)|].
    split; [intros Hby; symmetry in Hby; by destruct (Hb y Hby) as (_ & ? & _)|].
    split; [intros Hqx; symmetry in Hqx; by destruct (Hq x Hqx)|].
    split; [intros Hqy; symmetry in Hqy; by destruct (Hq y Hqy) as (_ & ? & _)|].
    destruct (left_node ny) as [b|] eqn:Hbb; [right|by left].
    intros Hbq. symmetry in Hbq. destruct (Hq b Hbq) as (_ & _ & ? & _). done.
Qed.

Lemma left_rotate_relinks s t x nx y ny :
  is_tree s t → x ∈ addrs t →
  heap s !! x = Some nx → heap s !! y = Some ny → right_node nx = Some y →
  ∃ s' t',
    _left_rotate (Some x) s = Ok (tt, s') ∧
    is_tree s' t' ∧ addrs t' = addrs t ∧ inorder_keys t' = inorder_keys t ∧
    relinked s s' x y (left_node ny) (parent nx)
      (with_parent (Some y) (with_right_node (left_node ny) nx))
      (with_left_node (Some x) (with_parent (parent nx) ny)).
Proof.
  intros Ht Hxt Hx Hy Hxr.
  destruct (left_rotate_tree s t x nx y Ht Hxt Hx Hxr)
    as (s' & ny' & Hy' & Hrun & Hroot & Hheap & Ht' & Hxy & Hxb & Hyb & Hxq & Hyq & Hbq).
  assert (ny' = ny) as -> by congruence.
  eexists s', _. split; [done|]. split; [exact Ht'|].
  split; [by rewrite addrs_tmap, addrs_rot_left_at|].
  split; [by rewrite inorder_keys_tmap, inorder_keys_rot_left_at|].
  repeat split.
  - rewrite Hheap, Hx. simpl. f_equal.
    unfold rotl_node, with_parent, with_right_node. simpl. by simpl_decide.
  - rewrite Hheap, Hy. simpl. f_equal.
    unfold rotl_node, with_parent, with_left_node. simpl. by simpl_decide.
  - done.
  - intros q nq Hq Hnq. rewrite Hheap, Hnq. simpl. f_equal.
    assert (q ≠ x) by congruence. assert (q ≠ y) by congruence.
    assert (Some q ≠ left_node ny) by (destruct Hbq; congruence).
    unfold rotl_node, left_child_of, node_at. rewrite Hq. simpl. rewrite Hnq.
    simpl_decide. by case_bool_decide.
  - intros c nc Hb Hnc. rewrite Hheap, Hnc. simpl. f_equal.
    assert (c ≠ x) by congruence. assert (c ≠ y) by congruence.
    assert (Some c ≠ parent nx) by (destruct Hbq; congruence).
    unfold rotl_node, with_parent. simpl. by simpl_decide.
  - intros a ? ? ? ?. rewrite Hheap.
    destruct (heap s !! a) as [n|]; simpl; [|done].
    by rewrite rotl_node_other.
Qed.

Lemma right_rotate_mirror x s :
  _right_rotate x s = mirror_result (_left_rotate x (mirror s)).
Proof.
  rewrite <- (mirror_involutive s) at 1. apply mirrors_right_rotate.
Qed.

Lemma lookup_mirror s a : heap (mirror s) !! a = mirror_node <$> heap s !! a.
Proof. apply lookup_fmap. Qed.

Lemma right_rotate_relinks s t x nx y ny :
  is_tree s t → x ∈ addrs t →
  heap s !! x = Some nx → heap s !! y = Some ny → left_node nx = Some y →
  ∃ s' t',
    _right_rotate (Some x) s = Ok (tt, s') ∧
    is_tree s' t' ∧ addrs t' = addrs t ∧ inorder_keys t' = inorder_keys t ∧
    relinked s s' x y (right_node ny) (parent nx)
      (with_parent (Some y) (with_left_node (right_node ny) nx))
      (with_right_node (Some x) (with_parent (parent nx) ny)).
Proof.
  intros Ht Hxt Hx Hy Hxl.
  destruct (left_rotate_relinks (mirror s) (mirror_tree t) x
              (mirror_node nx) y (mirror_node ny))
    as (s1 & t1 & Hrun & Ht1 & Haddrs & Hkeys & Hx1 & Hy1 & Hroot & Hq1 & Hb1 & Hfr).
  { by apply is_tree_mirror. }
  { rewrite addrs_mirror_tree. by apply elem_of_reverse. }
  { by rewrite lookup_mirror, Hx. }
  { by rewrite lookup_mirror, Hy. }
  { done. }
  exists (mirror s1), (mirror_tree t1).
  split; [by rewrite right_rotate_mirror, Hrun|].
  split; [by apply is_tree_mirror|].
  split; [by rewrite addrs_mirror_tree, Haddrs, addrs_mirror_tree, reverse_involutive|].
  split; [by rewrite inorder_keys_mirror_tree, Hkeys, inorder_keys_mirror_tree,
            reverse_involutive|].
  repeat split.
  - rewrite lookup_mirror, Hx1. by destruct nx, ny.
  - rewrite lookup_mirror, Hy1. by destruct nx, ny.
  - done.
  - intros q nq Hq Hnq. rewrite lookup_mirror.
    rewrite (Hq1 q (mirror_node nq)); [|done|by rewrite lookup_mirror, Hnq].
    destruct Ht as [Hrep Hnd].
    destruct (rep_linked _ _ _ _ Hrep Hnd x Hxt) as [nx' [Hnx _ _ Hxp]].
    assert (nx' = nx) as -> by congruence.
    destruct Hxp as [(_ & Hp & _)|(q' & nq' & Hp & Hqt & _ & Hnq' & Hch)];
      [congruence|].
    assert (q' = q) as -> by congruence.
    assert (nq' = nq) as -> by congruence.
    destruct (rep_linked _ _ _ _ Hrep Hnd q Hqt) as [nq' [Hnq'' Hql _ _]].
    assert (nq' = nq) as -> by congruence.
    simpl. f_equal. destruct nq as [kq cq pq lq rq]. simpl in *.
    destruct Hch as [->| ->].
    + destruct (Hql x eq_refl) as (_ & _ & Hne & _).
      rewrite bool_decide_eq_false_2 by done.
      by rewrite bool_decide_eq_true_2.
    + rewrite bool_decide_eq_true_2 by done.
      case_bool_decide as Hl; [|done].
      destruct (Hql x Hl) as (_ & _ & Hne & _). done.
  - intros c nc Hb Hnc. rewrite lookup_mirror.
    rewrite (Hb1 c (mirror_node nc)); [|done|by rewrite lookup_mirror, Hnc].
    by destruct nc.
  - intros a ? ? ? ?. rewrite lookup_mirror, Hfr by done.
    rewrite lookup_mirror. destruct (heap s !! a) as [n|]; simpl; [|done].
    by rewrite mirror_node_involutive.
Qed.

(** C7 as stated fails: in the tree built from 1, ..., 8 the left
    rotation at the root (address 3, key 4), whose right child is the
    node at address 5, also rewrites the parent back-reference of a
    third node, the former left child of the right child (address 4,
    key 5): it pointed to address 5 and points to address 3 afterwards. *)
Lemma left_rotate_changes_a_third_parent_link :
  ∃ s',
    _left_rotate (Some 3%nat) tree_1_to_8 = Ok (tt, s') ∧
    node_at tree_1_to_8 (Some 3%nat)
    = Some (mkNode 4 black None (Some 1%nat) (Some 5%nat)) ∧
    node_at tree_1_to_8 (Some 4%nat)
    = Some (mkNode 5 black (Some 5%nat) None None) ∧
    node_at s' (Some 4%nat) = Some (mkNode 5 black (Some 3%nat) None None).
Proof.
  eexists. split; [vm_compute; reflexivity|].
  repeat split; vm_compute; reflexivity.
Qed.

(** C7, amended. For every tree and every node [x] of it that has a
    right child [y], [_left_rotate] at [x] returns normally and re-links
    so that the former left subtree of [y] becomes the right subtree of
    [x], [y] takes the former position of [x] under the parent of [x]
    (or becomes the root when [x] was the root) and [x] becomes the left
    child of [y]. The result is again a tree, with the same nodes in the
    same in-order sequence, hence the same in-order key sequence. Only
    the right slot of [x], the left slot of [y], the parent
    back-references of [x], of [y] and of the top of the subtree that
    changes sides (when there is one), and the child slot of the former
    parent of [x] (or the root reference) change; keys, colours and all
    other cells are as before. The mirror statement holds for
    [_right_rotate] at a node with a left child. *)
Theorem rotations_relink_and_keep_order s t x nx :
  is_tree s t → x ∈ addrs t → heap s !! x = Some nx →
  (∀ y ny, right_node nx = Some y → heap s !! y = Some ny →
     ∃ s' t',
       _left_rotate (Some x) s = Ok (tt, s') ∧
       is_tree s' t' ∧ addrs t' = addrs t ∧ inorder_keys t' = inorder_keys t ∧
       relinked s s' x y (left_node ny) (parent nx)
         (with_parent (Some y) (with_right_node (left_node ny) nx))
         (with_left_node (Some x) (with_parent (parent nx) ny))) ∧
  (∀ y ny, left_node nx = Some y → heap s !! y = Some ny →
     ∃ s' t',
       _right_rotate (Some x) s = Ok (tt, s') ∧
       is_tree s' t' ∧ addrs t' = addrs t ∧ inorder_keys t' = inorder_keys t ∧
       relinked s s' x y (right_node ny) (parent nx)
         (with_parent (Some y) (with_left_node (right_node ny) nx))
         (with_right_node (Some x) (with_parent (parent nx) ny))).
Proof.
  intros Ht Hxt Hx. split; intros y ny Hc Hy.
  - by eapply left_rotate_relinks.
  - by eapply right_rotate_relinks.
Qed.

Lemma rotations_relink_and_keep_order_witness :
  ∃ t nx,
    is_tree tree_1_to_8 t ∧ 3%nat ∈ addrs t ∧
    heap tree_1_to_8 !! 3%nat = Some nx ∧
    right_node nx = Some 5%nat ∧ left_node nx = Some 1%nat ∧
    (∃ s' t', _left_rotate (Some 3%nat) tree_1_to_8 = Ok (tt, s') ∧
              is_tree s' t' ∧ inorder_keys t' = [1; 2; 3; 4; 5; 6; 7; 8]) ∧
    (∃ s' t', _right_rotate (Some 3%nat) tree_1_to_8 = Ok (tt, s') ∧
              is_tree s' t' ∧ inorder_keys t' = [1; 2; 3; 4; 5; 6; 7; 8]).
Proof.
  destruct (invariants_is_tree tree_1_to_8) as (t & Ht & Htree);
    [vm_compute; reflexivity|].
  vm_compute in Ht. injection Ht as <-.
  eexists _, (mkNode 4 black None (Some 1%nat) (Some 5%nat)).
  split; [exact Htree|].
  match goal with |- ?P ∧ _ => assert P as Hin end.
  { refine (bool_decide_unpack _ _). vm_compute. exact I. }
  split; [exact Hin|].
  assert (heap tree_1_to_8 !! 3%nat
          = Some (mkNode 4 black None (Some 1%nat) (Some 5%nat))) as Hx
    by (vm_compute; reflexivity).
  split; [exact Hx|]. split; [reflexivity|]. split; [reflexivity|].
  destruct (rotations_relink_and_keep_order _ _ _ _ Htree Hin Hx) as [Hl Hr].
  split.
  - destruct (Hl 5%nat (mkNode 6 red (Some 3%nat) (Some 4%nat) (Some 6%nat)))
      as (s' & t' & Hrun & Ht' & _ & Hkeys & _);
      [reflexivity|vm_compute; reflexivity|].
    exists s', t'. split; [exact Hrun|]. split; [exact Ht'|]. exact Hkeys.
  - destruct (Hr 1%nat (mkNode 2 red (Some 3%nat) (Some 0%nat) (Some 2%nat)))
      as (s' & t' & Hrun & Ht' & _ & Hkeys & _);
      [reflexivity|vm_compute; reflexivity|].
    exists s', t'. split; [exact Hrun|]. split; [exact Ht'|]. exact Hkeys.
Defined.

(** ** C9: termination of the insert fix-up *)


Lemma recolour_tree s t a n c :
  is_tree s t → heap s !! a = Some n →
  is_tree (mkTree (root s) (<[a := with_colour c n]> (heap s)))
          (tmap (recolour a c) t).
Proof.
  intros [Hrep Hnd] Ha. split; [|by rewrite addrs_tmap]. simpl.
  eapply rep_tmap; [done| | | |exact Hrep].
  - intros b m _ Hb. unfold recolour. case_decide as Hba.
    + subst b. rewrite lookup_insert_eq. congruence.
    + by rewrite lookup_insert_ne.
  - intros b m _ _. unfold recolour. by case_decide.
  - intros b m Htop Hb. unfold recolour.
    destruct (rep_top_node _ _ _ _ _ Hrep Htop) as (m' & ? & ?).
    assert (m' = m) as -> by congruence. by case_decide.
Qed.

Lemma depth_tmap f t x : depth (tmap f t) x = depth t x.
Proof.
  induction t as [|l IHl a n r IHr]; [done|]. simpl.
  rewrite addrs_tmap, IHl, IHr. done.
Qed.

Lemma mirror_tree_tmap f t :
  mirror_tree (tmap f (mirror_tree t))
  = tmap (λ a n, mirror_node (f a (mirror_node n))) t.
Proof.
  induction t as [|l IHl a n r IHr]; [done|]. simpl. by rewrite IHl, IHr.
Qed.

Lemma top_colour_mirror_tree t : top_colour (mirror_tree t) = top_colour t.
Proof. by destruct t. Qed.

Lemma is_tree_top_node s t a n :
  is_tree s t → top t = Some a → heap s !! a = Some n →
  parent n = None ∧ top_colour t = colour n.
Proof.
  intros [Hrep _] Htop Ha. destruct t as [|l b m r]; [done|].
  simpl in *. destruct Hrep as (_ & Hm & Hp & _). simplify_eq. done.
Qed.

Lemma tmap_tmap f g t : tmap f (tmap g t) = tmap (λ a n, f a (g a n)) t.
Proof. induction t; simpl; congruence. Qed.

Ltac run_unfold :=
  unfold insert_case_right, is_left_son, is_right_son,
    grandfather_node, is_red, is_black, _node_is_root, andM, orM,
    getf, load, store, get_root, set_root, bind, ret; simpl.

Ltac run := run_unfold; repeat exec_step.

(** One pass through the right-hand branch of the insert fix-up, at a
    node [z] whose parent [P] is the right child of [g]. *)
Lemma insert_case_right_step s t z nz P nP g ng :
  is_tree s t → z ∈ addrs t →
  heap s !! z = Some nz → parent nz = Some P →
  heap s !! P = Some nP → parent nP = Some g →
  heap s !! g = Some ng → right_node ng = Some P →
  ∃ z' s' t',
    insert_case_right (Some z) s = Ok (Some z', s') ∧
    is_tree s' t' ∧ addrs t' = addrs t ∧ z' ∈ addrs t ∧
    ((z' = g ∧ (∃ f, t' = tmap f t ∧ ∀ a n, ∃ c, f a n = with_colour c n) ∧
      (root s' = Some g ∨ top_colour t' = top_colour t))
     ∨
     (root s' ≠ Some z' ∧
      ∃ nz' w nw, heap s' !! z' = Some nz' ∧ parent nz' = Some w ∧
                  heap s' !! w = Some nw ∧ colour nw = black)).
Proof.
  intros Ht Hzt Hz HzP HP HPg Hg HgP.
  pose proof Ht as [Hrep Hnd].
  destruct (rep_linked _ _ _ _ Hrep Hnd z Hzt) as [nz' [Hnz Hzl Hzr Hzp]].
  assert (nz' = nz) as -> by congruence.
  destruct Hzp as [(_ & ? & _)|(P' & nP' & ? & HPt & HdP & ? & HPz)]; [congruence|].
  assert (P' = P) as -> by congruence. assert (nP' = nP) as -> by congruence.
  destruct (rep_linked _ _ _ _ Hrep Hnd P HPt) as [nP' [? HPl HPr HPp]].
  assert (nP' = nP) as -> by congruence.
  destruct HPp as [(_ & ? & _)|(g' & ng' & ? & Hgt & Hdg & ? & _)]; [congruence|].
  assert (g' = g) as -> by congruence. assert (ng' = ng) as -> by congruence.
  destruct (rep_linked _ _ _ _ Hrep Hnd g Hgt) as [ng' [? Hgl Hgr Hgp]].
  assert (ng' = ng) as -> by congruence.
  assert (z ≠ P) as HzP' by (intros ->; lia).
  assert (z ≠ g) as Hzg by (intros ->; lia).
  assert (P ≠ g) as HPg' by (intros ->; lia).
  assert (left_node ng ≠ Some P) as HgPl.
  { intros Hl. by destruct (Hgl P Hl) as (_ & _ & ? & _). }
  assert (left_node nz ≠ Some P) as HzlP.
  { intros Hl. destruct (Hzl P Hl) as (_ & ? & _). lia. }
  assert (parent ng ≠ Some P) as HgpP.
  { intros Hp. destruct Hgp as [(_ & ? & _)|(q & ? & ? & _ & ? & _)]; [congruence|].
    assert (q = P) as -> by congruence. lia. }
  assert (parent ng ≠ Some z) as Hgpz.
  { intros Hp. destruct Hgp as [(_ & ? & _)|(q & ? & ? & _ & ? & _)]; [congruence|].
    assert (q = z) as -> by congruence. lia. }
  destruct nz as [kz cz pz lz rz], nP as [kP cP pP lP rP], ng as [kg cg pg lg rg].
  simpl in *. subst pz pP rg.
  assert (∀ s0 t0 a n, is_tree s0 t0 → root s0 = Some a →
                       heap s0 !! a = Some n → parent n = None) as Htopnone.
  { intros s0 t0 a n Ht0 Hr Ha. rewrite (is_tree_root _ _ Ht0) in Hr.
    by destruct (is_tree_top_node _ _ _ _ Ht0 Hr Ha). }
  (* is the uncle red? *)
  assert ((∃ u ku pu lu ru, lg = Some u ∧
             heap s !! u = Some (mkNode ku red pu lu ru) ∧
             u ≠ z ∧ u ≠ P ∧ u ≠ g)
          ∨ (lg = None ∨
             ∃ u ku pu lu ru, lg = Some u ∧
               heap s !! u = Some (mkNode ku black pu lu ru)))
    as [Hred|Hblack].
  { destruct lg as [u|]; [|by right; left].
    destruct (Hgl u eq_refl) as (_ & Hdu & Hne & [ku cu pu lu ru] & Hnu & _).
    destruct cu.
    - right. right. eauto 10.
    - left. exists u, ku, pu, lu, ru. split; [done|]. split; [done|].
      split; [intros ->; lia|]. split; [congruence|intros ->; lia]. }
  - (* recolouring *)
    destruct Hred as (u & ku & pu & lu & ru & -> & Hnu & Huz & HuP & Hug).
    pose proof (recolour_tree _ _ u _ black Ht Hnu) as Ht1.
    eassert (is_tree _ _) as Ht2.
    { eapply (recolour_tree _ _ P _ black Ht1). simpl.
      rewrite lookup_insert_ne by done. exact HP. }
    eassert (is_tree _ _) as Ht3.
    { eapply (recolour_tree _ _ g _ red Ht2). simpl.
      rewrite !lookup_insert_ne by done. exact Hg. }
    simpl in Ht3.
    exists g. eexists _, _. split.
    { run. reflexivity. }
    split; [exact Ht3|].
    split; [by rewrite !addrs_tmap|]. split; [done|].
    left. split; [done|]. split.
    { rewrite !tmap_tmap. eexists. split; [reflexivity|].
      intros a n. unfold recolour. destruct n. repeat case_decide; eauto. }
    simpl. destruct (decide (root s = Some g)) as [?|Hrg]; [by left|right].
    destruct t as [|l r nr rr]; [done|]. simpl.
    destruct Hrep as (Hr & Hnr & Hpr & _).
    assert (r ≠ g) by congruence.
    assert (r ≠ u) by (intros ->; destruct (Hgl u eq_refl) as (_ & _ & _ & ? & ? & ?); congruence).
    assert (r ≠ P) by (intros ->; simplify_eq).
    unfold recolour. by simpl_decide.
  - (* rotations *)
    destruct (decide (lP = Some z)) as [->|HlP].
    + (* the working node is a left child: two rotations *)
      edestruct (right_rotate_relinks s t P _ z _ Ht HPt HP Hz)
        as (s1 & t1 & Hrot1 & Ht1 & Ha1 & _ & HP1 & Hz1 & Hroot1 & Hq1 & _ & _);
        [done|].
      specialize (Hq1 g _ eq_refl Hg). simpl in *.
      rewrite bool_decide_eq_false_2 in Hq1 by done.
      pose proof (recolour_tree _ _ z _ black Ht1 Hz1) as Ht2.
      eassert (is_tree _ _) as Ht3.
      { eapply (recolour_tree _ _ g _ red Ht2). simpl.
        rewrite lookup_insert_ne by done. exact Hq1. }
      lazymatch type of Ht3 with
      | is_tree ?s3 ?t3 =>
          assert (g ∈ addrs t3) as Hgt3 by (by rewrite !addrs_tmap, Ha1);
          eassert (heap s3 !! g = Some _) as Hg3
            by (simpl; apply lookup_insert_eq);
          eassert (heap s3 !! z = Some _) as Hz3
            by (simpl; rewrite lookup_insert_ne by done; apply lookup_insert_eq)
      end.
      destruct (left_rotate_relinks _ _ g _ z _ Ht3 Hgt3 Hg3 Hz3 eq_refl)
        as (s4 & t4 & Hrot2 & Ht4 & Ha4 & _ & Hg4 & Hz4 & Hroot4 & _ & _ & Hfr4).
      simpl in *.
      exists P, s4, t4. split.
      { destruct Hblack as [->|(u & ku & pu & lu & ru & -> & Hnu)].
        all: run; rewrite Hrot1; simpl; repeat exec_step; rewrite Hrot2; done. }
      split; [done|]. split; [by rewrite Ha4, !addrs_tmap, Ha1|].
      split; [done|]. right.
      eassert (heap s4 !! P = Some _) as HP4.
      { rewrite Hfr4 by congruence. rewrite !lookup_insert_ne by done. exact HP1. }
      split.
      { intros Hr. by pose proof (Htopnone _ _ _ _ Ht4 Hr HP4). }
      eexists _, z, _. split; [exact HP4|]. split; [done|]. split; [exact Hz4|done].
    + (* the working node is a right child: one rotation *)
      assert (rP = Some z) as -> by (by destruct HPz).
      pose proof (recolour_tree _ _ P _ black Ht HP) as Ht1.
      eassert (is_tree _ _) as Ht2.
      { eapply (recolour_tree _ _ g _ red Ht1). simpl.
        rewrite lookup_insert_ne by done. exact Hg. }
      lazymatch type of Ht2 with
      | is_tree ?s3 ?t3 =>
          assert (g ∈ addrs t3) as Hgt3 by (by rewrite !addrs_tmap);
          eassert (heap s3 !! g = Some _) as Hg3
            by (simpl; apply lookup_insert_eq);
          eassert (heap s3 !! P = Some _) as HP3
            by (simpl; rewrite lookup_insert_ne by done; apply lookup_insert_eq)
      end.
      destruct (left_rotate_relinks _ _ g _ P _ Ht2 Hgt3 Hg3 HP3 eq_refl)
        as (s4 & t4 & Hrot2 & Ht4 & Ha4 & _ & Hg4 & HP4 & Hroot4 & _ & _ & Hfr4).
      simpl in *.
      exists z, s4, t4. split.
      { destruct Hblack as [->|(u & ku & pu & lu & ru & -> & Hnu)].
        all: destruct lP as [b|]; [assert (z ≠ b) by congruence|].
        all: run; rewrite Hrot2; done. }
      split; [done|]. split; [by rewrite Ha4, !addrs_tmap|].
      split; [done|]. right.
      eassert (heap s4 !! z = Some _) as Hz4.
      { rewrite Hfr4 by congruence. rewrite !lookup_insert_ne by done. exact Hz. }
      split.
      { intros Hr. by pose proof (Htopnone _ _ _ _ Ht4 Hr Hz4). }
      eexists _, P, _. split; [exact Hz4|]. split; [done|]. split; [exact HP4|done].
Qed.

Lemma insert_case_left_mirror z s :
  insert_case_left z s = mirror_result (insert_case_right z (mirror s)).
Proof.
  rewrite <- (mirror_involutive s) at 1. apply mirrors_insert_case_left.
Qed.

(** The left-hand branch, by symmetry. *)
Lemma insert_case_left_step s t z nz P nP g ng :
  is_tree s t → z ∈ addrs t →
  heap s !! z = Some nz → parent nz = Some P →
  heap s !! P = Some nP → parent nP = Some g →
  heap s !! g = Some ng → left_node ng = Some P →
  ∃ z' s' t',
    insert_case_left (Some z) s = Ok (Some z', s') ∧
    is_tree s' t' ∧ addrs t' = addrs t ∧ z' ∈ addrs t ∧
    ((z' = g ∧ (∃ f, t' = tmap f t ∧ ∀ a n, ∃ c, f a n = with_colour c n) ∧
      (root s' = Some g ∨ top_colour t' = top_colour t))
     ∨
     (root s' ≠ Some z' ∧
      ∃ nz' w nw, heap s' !! z' = Some nz' ∧ parent nz' = Some w ∧
                  heap s' !! w = Some nw ∧ colour nw = black)).
Proof.
  intros Ht Hzt Hz HzP HP HPg Hg HgP.
  destruct (insert_case_right_step (mirror s) (mirror_tree t) z
              (mirror_node nz) P (mirror_node nP) g (mirror_node ng))
    as (z' & s1 & t1 & Hrun & Ht1 & Ha1 & Hz1 & Hpost).
  { by apply is_tree_mirror. }
  { rewrite addrs_mirror_tree. by apply elem_of_reverse. }
  { by rewrite lookup_mirror, Hz. }
  { done. }
  { by rewrite lookup_mirror, HP. }
  { done. }
  { by rewrite lookup_mirror, Hg. }
  { done. }
  exists z', (mirror s1), (mirror_tree t1).
  split; [by rewrite insert_case_left_mirror, Hrun|].
  split; [by apply is_tree_mirror|].
  split; [by rewrite addrs_mirror_tree, Ha1, addrs_mirror_tree, reverse_involutive|].
  split; [apply elem_of_reverse; by rewrite <- addrs_mirror_tree|].
  destruct Hpost as [(-> & (f & -> & Hf) & Hroot)|(Hroot & nz' & w & nw & Hz' & Hp & Hw & Hc)].
  - left. split; [done|]. split.
    { rewrite mirror_tree_tmap. eexists. split; [reflexivity|].
      intros a n. destruct (Hf a (mirror_node n)) as [c ->].
      exists c. by destruct n. }
    destruct Hroot as [?|Hcol]; [by left|right].
    by rewrite top_colour_mirror_tree, Hcol, top_colour_mirror_tree.
  - right. split; [done|].
    exists (mirror_node nz'), w, (mirror_node nw).
    rewrite !lookup_mirror, Hz', Hw. done.
Qed.

Lemma is_tree_nonroot s t a n :
  is_tree s t → a ∈ addrs t → heap s !! a = Some n → root s ≠ Some a →
  ∃ q nq, parent n = Some q ∧ q ∈ addrs t ∧ depth t a = S (depth t q) ∧
          heap s !! q = Some nq ∧
          (left_node nq = Some a ∨ right_node nq = Some a).
Proof.
  intros [Hrep Hnd] Hat Ha Hr.
  destruct (rep_linked _ _ _ _ Hrep Hnd a Hat) as [n' [? _ _ Hp]].
  assert (n' = n) as -> by congruence.
  destruct Hp as [(Htop & _)|?]; [|done].
  rewrite (rep_top _ _ _ _ Hrep) in Hr. done.
Qed.

Lemma is_tree_parent s t a n q :
  is_tree s t → a ∈ addrs t → heap s !! a = Some n → parent n = Some q →
  ∃ nq, q ∈ addrs t ∧ depth t a = S (depth t q) ∧ heap s !! q = Some nq ∧
        (left_node nq = Some a ∨ right_node nq = Some a).
Proof.
  intros [Hrep Hnd] Hat Ha Hq.
  destruct (rep_linked _ _ _ _ Hrep Hnd a Hat) as [n' [? _ _ Hp]].
  assert (n' = n) as -> by congruence.
  destruct Hp as [(_ & ? & _)|(q' & nq & ? & ? & ? & ? & ?)]; [congruence|].
  assert (q' = q) as -> by congruence. eauto.
Qed.

Lemma insert_loop_unfold fuel z :
  insert_loop fuel z
  = (let* p := getf parent z in
     let* pred := is_red p in
     if pred then
       match fuel with
       | O => raise OutOfFuel
       | S fuel' =>
           let* z' := insert_loop_body z in
           let* at_root := _node_is_root z' in
           if at_root then ret tt else insert_loop fuel' z'
       end
     else ret tt).
Proof. by destruct fuel. Qed.

(** One pass through the body of the loop, entered at a node [z] whose
    parent is red: either the nodes are only recoloured and the working
    node moves two levels up, or there is a rotation, after which the
    loop is over whatever the remaining fuel. *)
Lemma insert_loop_body_step s t z nz P nP :
  is_tree s t → top_colour t = black → z ∈ addrs t →
  heap s !! z = Some nz → parent nz = Some P →
  heap s !! P = Some nP → colour nP = red →
  ∃ z' s' t',
    insert_loop_body (Some z) s = Ok (Some z', s') ∧
    is_tree s' t' ∧ addrs t' = addrs t ∧ z' ∈ addrs t ∧
    (((∃ f, t' = tmap f t ∧ ∀ a n, ∃ c, f a n = with_colour c n) ∧
      depth t z = S (S (depth t z')) ∧
      (root s' = Some z' ∨ top_colour t' = black))
     ∨
     (root s' ≠ Some z' ∧
      ∀ fuel', insert_loop fuel' (Some z') s' = Ok (tt, s'))).
Proof.
  intros Ht Hblack Hzt Hz HzP HP Hred.
  destruct (is_tree_parent _ _ _ _ _ Ht Hzt Hz HzP) as (nP' & HPt & HdP & HP' & _).
  assert (nP' = nP) as -> by congruence.
  assert (root s ≠ Some P) as HPr
    by (intros Hr; rewrite (is_tree_root _ _ Ht) in Hr;
        destruct (is_tree_top_node _ _ _ _ Ht Hr HP); congruence).
  destruct (is_tree_nonroot _ _ _ _ Ht HPt HP HPr)
    as (g & ng & HPg & Hgt & Hdg & Hg & Hside).
  assert (∃ z' s' t',
            insert_loop_body (Some z) s = Ok (Some z', s') ∧
            is_tree s' t' ∧ addrs t' = addrs t ∧ z' ∈ addrs t ∧
            ((z' = g ∧ (∃ f, t' = tmap f t ∧ ∀ a n, ∃ c, f a n = with_colour c n) ∧
              (root s' = Some g ∨ top_colour t' = top_colour t))
             ∨
             (root s' ≠ Some z' ∧
              ∃ nz' w nw, heap s' !! z' = Some nz' ∧ parent nz' = Some w ∧
                          heap s' !! w = Some nw ∧ colour nw = black)))
    as (z' & s' & t' & Hbody & Ht' & Ha' & Hz' & Hpost).
  { unfold insert_loop_body.
    rewrite (bind_ok _ _ _ _ _ (getf_some parent z nz s Hz)), HzP.
    destruct (decide (right_node ng = Some P)) as [Hr|Hr].
    - rewrite (bind_ok _ _ s true s).
      + by eapply insert_case_right_step.
      + unfold is_right_son, getf, load, bind, ret. simpl.
        rewrite HP. simpl. rewrite HPg. simpl. rewrite Hg. simpl.
        rewrite Hr. simpl. by rewrite bool_decide_eq_true_2.
    - rewrite (bind_ok _ _ s false s).
      + eapply insert_case_left_step; try done. by destruct Hside.
      + unfold is_right_son, getf, load, bind, ret. simpl.
        rewrite HP. simpl. rewrite HPg. simpl. rewrite Hg. simpl.
        destruct (right_node ng) as [w|]; simpl; [|done].
        rewrite bool_decide_eq_false_2; [done|congruence]. }
  exists z', s', t'. split; [done|]. split; [done|]. split; [done|].
  split; [done|].
  destruct Hpost as [(-> & Hf & Hcol)|(Hroot & nz' & w & nw & Hnz' & Hw' & Hnw & Hc)].
  - left. split; [done|]. split; [lia|].
    destruct Hcol as [?|Hcol]; [by left|right]. congruence.
  - right. split; [done|]. intros fuel'.
    rewrite insert_loop_unfold.
    rewrite (bind_ok _ _ _ _ _ (getf_some parent z' nz' s' Hnz')), Hw'.
    unfold is_red.
    rewrite (bind_ok _ _ s' (bool_decide (colour nw = red)) s')
      by (by rewrite (bind_ok _ _ _ _ _ (getf_some colour w nw s' Hnw))).
    by rewrite Hc.
Qed.

(** The loop of the insert fix-up runs to completion within a number of
    passes that is half the depth of the working node. *)
Lemma insert_loop_terminates fuel :
  ∀ s t z nz P,
    is_tree s t → top_colour t = black → z ∈ addrs t →
    heap s !! z = Some nz → parent nz = Some P →
    (depth t z ≤ 2 * fuel + 1)%nat →
    ∃ s' t', insert_loop fuel (Some z) s = Ok (tt, s') ∧
             is_tree s' t' ∧ addrs t' = addrs t.
Proof.
  induction fuel as [|fuel IH]; intros s t z nz P Ht Hblack Hzt Hz HzP Hfuel.
  all: destruct (is_tree_parent _ _ _ _ _ Ht Hzt Hz HzP)
    as (nP & HPt & HdP & HP & HPz).
  all: rewrite insert_loop_unfold.
  all: rewrite (bind_ok _ _ _ _ _ (getf_some parent z nz s Hz)), HzP.
  all: unfold is_red at 1.
  all: rewrite (bind_ok _ _ s (bool_decide (colour nP = red)) s)
    by (by rewrite (bind_ok _ _ _ _ _ (getf_some colour P nP s HP))).
  all: case_bool_decide as Hred; [|by exists s, t].
  all: assert (2 ≤ depth t z)%nat as Hdeep.
  1, 3: assert (root s ≠ Some P) as HPr
    by (intros Hr; rewrite (is_tree_root _ _ Ht) in Hr;
        destruct (is_tree_top_node _ _ _ _ Ht Hr HP); congruence).
  1, 2: destruct (is_tree_nonroot _ _ _ _ Ht HPt HP HPr) as (g & _ & _ & _ & ? & _);
    lia.
  { lia. }
  destruct (insert_loop_body_step _ _ _ _ _ _ Ht Hblack Hzt Hz HzP HP Hred)
    as (z' & s' & t' & Hbody & Ht' & Ha' & Hz' & Hpost).
  rewrite (bind_ok _ _ _ _ _ Hbody).
  unfold _node_is_root at 1.
  rewrite (bind_ok _ _ s' (bool_decide (Some z' = root s')) s') by done.
  case_bool_decide as Hroot; [by exists s', t'|].
  destruct Hpost as [((f & -> & _) & Hdep & Hcol)|[_ Hexit]].
  - (* two levels up *)
    destruct Hcol as [?|Hcol]; [congruence|].
    destruct (rep_linked _ _ _ _ (proj1 Ht') (proj2 Ht') z') as [nz' [Hnz' _ _ _]];
      [by rewrite Ha'|].
    destruct (is_tree_nonroot _ _ _ _ Ht' ltac:(by rewrite Ha') Hnz')
      as (q & nq & Hgq & _); [congruence|].
    destruct (IH s' (tmap f t) z' nz' q) as (s'' & t'' & Hloop & Ht'' & Ha''); try done.
    + by rewrite Ha'.
    + rewrite depth_tmap. lia.
    + exists s'', t''. split; [done|]. split; [done|]. congruence.
  - (* after a rotation the loop is over *)
    exists s', t'. by rewrite Hexit.
Qed.

Lemma depth_lt_height t x : x ∈ addrs t → (depth t x < height t)%nat.
Proof.
  induction t as [|l IHl a n r IHr]; intros Hx; [by apply elem_of_nil in Hx|].
  simpl in *. case_decide; [lia|].
  apply elem_of_app in Hx as [Hx|Hx].
  - rewrite decide_True by done. specialize (IHl Hx). lia.
  - apply elem_of_cons in Hx as [?|Hx]; [done|].
    case_decide; [specialize (IHl ltac:(done))|specialize (IHr Hx)]; lia.
Qed.

(** C9. For every tree with a black root and every node [z] of it, the
    insert fix-up started at [z] terminates: the depth of [z] is below
    the height of the tree, and as soon as the iteration bound covers
    half that depth, [_balance_after_insert] returns normally; the result
    is again a tree with the same nodes in the same order, and its root
    is black. Every pass through the body of the loop, entered when the
    parent of the working node is red, either only recolours nodes and
    moves the working node two levels up, or performs a rotation and
    leaves the loop: the working node is then not the root and the loop
    returns at once whatever fuel is left. *)
Theorem insert_fixup_terminates s t z :
  is_tree s t → root_black t = true → z ∈ addrs t →
  (depth t z < height t)%nat ∧
  (∀ fuel, (depth t z ≤ 2 * fuel + 1)%nat →
     ∃ s' t', _balance_after_insert fuel (Some z) s = Ok (tt, s') ∧
              is_tree s' t' ∧ addrs t' = addrs t ∧ root_black t' = true) ∧
  (∀ nz P nP,
     heap s !! z = Some nz → parent nz = Some P →
     heap s !! P = Some nP → colour nP = red →
     ∃ z' s' t',
       insert_loop_body (Some z) s = Ok (Some z', s') ∧
       is_tree s' t' ∧ addrs t' = addrs t ∧
       (((∃ f, t' = tmap f t ∧ ∀ a n, ∃ c, f a n = with_colour c n) ∧
         depth t z = S (S (depth t z')))
        ∨
        (root s' ≠ Some z' ∧
         ∀ fuel', insert_loop fuel' (Some z') s' = Ok (tt, s')))).
Proof.
  intros Ht Hblack Hzt. split; [by apply depth_lt_height|].
  pose proof Hblack as Hrb.
  apply bool_decide_eq_true_1 in Hblack.
  split; [intros fuel Hfuel|].
  2:{ intros nz P nP Hz HzP HP Hred.
      destruct (insert_loop_body_step _ _ _ _ _ _ Ht Hblack Hzt Hz HzP HP Hred)
        as (z' & s' & t' & Hbody & Ht' & Ha' & _ & Hpost).
      exists z', s', t'. split; [done|]. split; [done|]. split; [done|].
      destruct Hpost as [(Hf & Hd & _)|Hexit]; [left|right]; done. }
  destruct (rep_linked _ _ _ _ (proj1 Ht) (proj2 Ht) z Hzt) as [nz [Hz _ _ _]].
  assert (∃ r nr, root s = Some r ∧ heap s !! r = Some nr ∧ colour nr = black)
    as (r & nr & Hr & Hnr & Hcr).
  { destruct t as [|l r nr rr]; [by apply elem_of_nil in Hzt|].
    destruct Ht as [(? & ? & _) _]. eauto. }
  unfold _balance_after_insert, andM.
  rewrite (bind_ok _ _ s
             (match parent nz with
              | Some P => match node_at s (Some P) with
                          | Some nP => not_None (parent nP)
                          | None => false
                          end
              | None => false
              end) s).
  2:{ unfold grandfather_node, getf, load, bind, ret. simpl. rewrite Hz. simpl.
      destruct (parent nz) as [P|] eqn:HzP; simpl; [|done].
      destruct (is_tree_parent _ _ _ _ _ Ht Hzt Hz HzP) as (nP & _ & _ & HP & _).
      rewrite Hz. simpl. rewrite HzP. simpl. by rewrite HP. }
  destruct (parent nz) as [P|] eqn:HzP; simpl; [|by exists s, t].
  destruct (is_tree_parent _ _ _ _ _ Ht Hzt Hz HzP) as (nP & _ & _ & HP & _).
  rewrite HP. destruct (parent nP) as [g|]; simpl; [|by exists s, t].
  destruct (insert_loop_terminates fuel s t z nz P) as (s' & t' & Hloop & Ht' & Ha');
    try done.
  rewrite (bind_ok _ _ _ _ _ Hloop).
  assert (∃ r' nr', root s' = Some r' ∧ heap s' !! r' = Some nr' ∧ top t' = Some r')
    as (r' & nr' & Hr' & Hnr' & Htop').
  { destruct t' as [|l' r' nr' rr'].
    - rewrite <- Ha' in Hzt. by apply elem_of_nil in Hzt.
    - destruct Ht' as [(? & ? & _) _]. eauto. }
  unfold get_root, bind. rewrite Hr'.
  rewrite (store_some _ _ _ _ Hnr').
  eexists _, _. split; [done|]. split; [by apply recolour_tree|].
  split; [by rewrite addrs_tmap|].
  destruct t' as [|l' a' n' rr']; [done|]. simpl in *.
  unfold root_black, recolour. simpl. simplify_eq.
  rewrite decide_True by done. done.
Qed.

Lemma insert_fixup_terminates_witness :
  ∃ t, is_tree tree_before_fixup t ∧ root_black t = true ∧
       3%nat ∈ addrs t ∧
       (depth t 3%nat < height t)%nat ∧
       (∃ s' t', _balance_after_insert 1 (Some 3%nat) tree_before_fixup
                 = Ok (tt, s') ∧
                 is_tree s' t' ∧ addrs t' = addrs t ∧ root_black t' = true) ∧
       (∃ z' s' t', insert_loop_body (Some 3%nat) tree_before_fixup
                    = Ok (Some z', s') ∧ is_tree s' t').
Proof.
  destruct (tree_of tree_before_fixup) as [t|] eqn:Ht;
    [|vm_compute in Ht; discriminate].
  assert (is_tree tree_before_fixup t) as Htree.
  { split; [by eapply to_tree_rep|].
    vm_compute in Ht. injection Ht as <-.
    refine (bool_decide_unpack _ _). vm_compute. exact I. }
  vm_compute in Ht. injection Ht as <-.
  eexists. split; [exact Htree|].
  split; [reflexivity|].
  match goal with |- ?P ∧ _ => assert P as Hin end.
  { refine (bool_decide_unpack _ _). vm_compute. exact I. }
  split; [exact Hin|].
  destruct (insert_fixup_terminates _ _ _ Htree eq_refl Hin) as (Hlt & Hrun & Hstep).
  split; [exact Hlt|]. split.
  - apply (Hrun 1%nat). vm_compute. lia.
  - destruct (Hstep (mkNode 4 red (Some 2%nat) None None) 2%nat
                (mkNode 3 red (Some 1%nat) None (Some 3%nat)))
      as (z' & s' & t' & Hbody & Ht' & _);
      [vm_compute; reflexivity|reflexivity|vm_compute; reflexivity|reflexivity|].
    exists z', s', t'. split; [exact Hbody|exact Ht'].
Defined.

(** ** C2: what the structural part of [delete] leaves to the fix-up *)


Lemma find_in_subtree_found t :
  ∀ fuel s par p k v s',
    rep (heap s) par p t →
    _find_key_in_subtree fuel p k s = Ok (Some v, s') →
    v ∈ addrs t ∧ s' = s.
Proof.
  induction t as [|l IHl a n r IHr]; intros fuel s par p k v s' Hrep Hfind.
  - simpl in Hrep. subst p. by destruct fuel.
  - destruct Hrep as (-> & Hn & _ & Hl & Hr).
    destruct fuel as [|fuel]; [done|]. simpl in Hfind.
    rewrite (bind_ok _ _ _ _ _ (getf_some key a n s Hn)) in Hfind.
    destruct (key n =? k).
    { injection Hfind as <- <-. split; [apply in_here|done]. }
    destruct (key n <? k).
    + rewrite (bind_ok _ _ _ _ _ (getf_some right_node a n s Hn)) in Hfind.
      destruct (IHr _ _ _ _ _ _ _ Hr Hfind). split; [by apply in_right|done].
    + rewrite (bind_ok _ _ _ _ _ (getf_some left_node a n s Hn)) in Hfind.
      destruct (IHl _ _ _ _ _ _ _ Hl Hfind). split; [by apply in_left|done].
Qed.

Lemma find_key_found s t fuel k v s' :
  is_tree s t → find_key fuel k s = Ok (Some v, s') → v ∈ addrs t ∧ s' = s.
Proof.
  intros [Hrep _] Hfind. unfold find_key in Hfind.
  rewrite (bind_ok _ _ s (root s) s eq_refl) in Hfind.
  by eapply find_in_subtree_found.
Qed.

Lemma find_next_loop_unfold fuel a :
  find_next_loop fuel a
  = (let* hl := has_left_son a in
     if hl then
       match fuel with
       | O => raise OutOfFuel
       | S fuel' => let* l := getf left_node a in find_next_loop fuel' l
       end
     else ret a).
Proof. by destruct fuel. Qed.









(** ** C10: the empty tree *)

(** C10. A tree constructed with no initial elements is empty: the
    constructor succeeds, [is_empty] answers [True], the root is absent,
    and [find_key] answers [None] for every key (and every iteration
    bound) without raising. *)
Theorem empty_tree_is_empty :
  ∀ fuel, ∃ s,
    RBTree_init fuel [] = Ok (tt, s) ∧
    root s = None ∧
    is_empty s = Ok (true, s) ∧
    ∀ fuel' k, find_key fuel' k s = Ok (None, s).
Proof.
  intros fuel. exists empty_tree. repeat split.
  intros fuel' k. by destruct fuel'.
Qed.

(** ** C8: inserting 1, 2, 3 *)

(** C8 as stated fails: after inserting 1, 2, 3 the root has key 2, but
    neither of its children is black. *)
Lemma insert_1_2_3_children_not_black :
  ∃ s n l r,
    RBTree_init 8 [1; 2; 3] = Ok (tt, s) ∧
    node_at s (root s) = Some n ∧ key n = 2 ∧
    node_at s (left_node n) = Some l ∧
    node_at s (right_node n) = Some r ∧
    colour l ≠ black ∧ colour r ≠ black.
Proof.
  eexists _, _, _, _.
  split; [vm_compute; reflexivity|].
  repeat split; try (vm_compute; reflexivity); vm_compute; discriminate.
Qed.

(** C8, amended. Inserting the keys 1, 2, 3 in that order into an empty
    tree produces a tree whose root is black with key 2 and whose two
    children, with keys 1 and 3, are both red leaves. *)
Theorem insert_1_2_3_root_2_red_children :
  ∃ s n l r,
    RBTree_init 8 [1; 2; 3] = Ok (tt, s) ∧
    node_at s (root s) = Some n ∧ key n = 2 ∧ colour n = black ∧
    node_at s (left_node n) = Some l ∧ key l = 1 ∧ colour l = red ∧
    left_node l = None ∧ right_node l = None ∧
    node_at s (right_node n) = Some r ∧ key r = 3 ∧ colour r = red ∧
    left_node r = None ∧ right_node r = None.
Proof.
  eexists _, _, _, _.
  split; [vm_compute; reflexivity|].
  repeat split; vm_compute; reflexivity.
Qed.

(** ** C1: the invariants along a sequence of operations *)

(** C1 on the input insert 1, 2, 3, 4; delete 1. The four insertions
    give a tree on which I1-I5 hold; the deletion removes the black leaf
    with key 1 and nothing is rebalanced, so that black heights differ
    (I3 fails) in the resulting tree, whose other invariants hold. *)
Theorem delete_black_leaf_breaks_black_height :
  ∃ s s',
    run_ops 8 (Insert <$> [1; 2; 3; 4]) empty_tree = Ok (tt, s) ∧
    invariants s = true ∧
    run_op 8 (Delete 1) s = Ok (tt, s') ∧
    holds balanced s' = false ∧
    holds bst s' = true ∧ holds no_red_red s' = true ∧
    holds root_black s' = true ∧ I5 s' = true.
Proof.
  eexists _, _.
  split; [vm_compute; reflexivity|].
  split; [vm_compute; reflexivity|].
  split; [vm_compute; reflexivity|].
  repeat split; vm_compute; reflexivity.
Qed.

(** ** C3: deleting a node with exactly one child *)

(** C3 on the tree built from 1, 2, 3, 4 and the key 3. The node with
    key 3 (address 2) is the right child of the node with key 2
    (address 1) and has the single child with key 4 (address 3). The
    structural part of [delete] writes that child into the left slot of
    the parent, over the node with key 1, and leaves the right slot
    pointing to the removed node. *)
Theorem delete_one_child_right_son_uses_left_slot :
  let s := tree_1_to_4 in
  invariants s = true ∧
  find_key 8 3 s = Ok (Some 2%nat, s) ∧
  node_at s (Some 2%nat) = Some (mkNode 3 black (Some 1%nat) None (Some 3%nat)) ∧
  node_at s (Some 1%nat) = Some (mkNode 2 black None (Some 0%nat) (Some 2%nat)) ∧
  ∃ s', delete_unlink 8 3 s = Ok (CallFixup (Some 2%nat), s') ∧
        node_at s' (Some 1%nat)
        = Some (mkNode 2 black None (Some 3%nat) (Some 2%nat)) ∧
        node_at s' (Some 3%nat) = Some (mkNode 4 red (Some 1%nat) None None).
Proof.
  repeat split; try (vm_compute; reflexivity).
  eexists. split; [vm_compute; reflexivity|].
  split; vm_compute; reflexivity.
Qed.

(** ** C4: deleting a node with two children *)

(** C4 on the tree built from 20, 10, 30, 5, 15, 25, 35, 1, 2, 3, 4, 27,
    33 and the key 2. The node with key 2 (address 8) is black and has
    two children; its successor (address 9, key 3) is a red leaf below
    the right child. [delete] copies the successor's colour together
    with its key: the node at address 8 ends up red, no fix-up runs, and
    black heights differ in the resulting tree. *)
Theorem delete_two_children_copies_colour :
  let s := tree_13_keys in
  invariants s = true ∧
  find_key 8 2 s = Ok (Some 8%nat, s) ∧
  node_at s (Some 8%nat)
  = Some (mkNode 2 black (Some 1%nat) (Some 7%nat) (Some 10%nat)) ∧
  _find_next_key 8 (Some 8%nat) s = Ok (Some 9%nat, s) ∧
  node_at s (Some 9%nat) = Some (mkNode 3 red (Some 10%nat) None None) ∧
  ∃ s', delete_unlink 8 2 s = Ok (NoFixup, s') ∧
        delete 8 2 s = Ok (tt, s') ∧
        node_at s' (Some 8%nat)
        = Some (mkNode 3 red (Some 1%nat) (Some 7%nat) (Some 10%nat)) ∧
        holds balanced s' = false.
Proof.
  repeat split; try (vm_compute; reflexivity).
  eexists. split; [vm_compute; reflexivity|].
  repeat split; vm_compute; reflexivity.
Qed.

(** ** C5: membership after a sequence of operations *)

(** C5 on the input insert 1, 2, 3, 4; delete 3. Afterwards the deleted
    key 3 is still found (at the root), and the key 1, inserted and
    never deleted, is no longer found. *)
Theorem find_after_delete_one_child_right_son :
  ∃ s',
    run_ops 8 ((Insert <$> [1; 2; 3; 4]) ++ [Delete 3]) empty_tree = Ok (tt, s') ∧
    find_key 8 3 s' = Ok (root s', s') ∧
    root s' = Some 2%nat ∧
    find_key 8 1 s' = Ok (None, s').
Proof.
  eexists. split; [vm_compute; reflexivity|].
  repeat split; vm_compute; reflexivity.
Qed.

(** ** C6: deleting an absent key *)

(** The search does not find a key that no node of the tree carries,
    whatever the order of the keys, as soon as the fuel covers the
    height; it leaves the state as it is. *)
Lemma find_in_subtree_absent t :
  ∀ fuel s par p k,
    rep (heap s) par p t →
    k ∉ inorder_keys t →
    (height t ≤ fuel)%nat →
    _find_key_in_subtree fuel p k s = Ok (None, s).
Proof.
  induction t as [|l IHl a n r IHr]; intros fuel s par p k Hrep Hk Hfuel.
  - simpl in Hrep. subst p. by destruct fuel.
  - destruct Hrep as (-> & Hn & _ & Hl & Hr).
    simpl in Hk, Hfuel.
    destruct fuel as [|fuel]; [lia|].
    assert (key n ≠ k) as Hne by (intros <-; apply Hk; set_solver).
    assert (k ∉ inorder_keys l) by set_solver.
    assert (k ∉ inorder_keys r) by set_solver.
    simpl. rewrite (bind_ok _ _ _ _ _ (getf_some key a n s Hn)).
    destruct (Z.eqb_spec (key n) k) as [|_]; [done|].
    destruct (key n <? k).
    + rewrite (bind_ok _ _ _ _ _ (getf_some right_node a n s Hn)).
      apply (IHr fuel s (Some a)); [done|done|lia].
    + rewrite (bind_ok _ _ _ _ _ (getf_some left_node a n s Hn)).
      apply (IHl fuel s (Some a)); [done|done|lia].
Qed.

Lemma find_key_absent s t fuel k :
  is_tree s t →
  k ∉ inorder_keys t →
  (height t ≤ fuel)%nat →
  find_key fuel k s = Ok (None, s).
Proof.
  intros [Hrep _] Hk Hfuel. unfold find_key.
  rewrite (bind_ok _ _ s (root s) s eq_refl).
  by eapply find_in_subtree_absent.
Qed.

(** When the search answers [None], [delete] returns at once. *)
Lemma delete_not_found fuel k s :
  find_key fuel k s = Ok (None, s) → delete fuel k s = Ok (tt, s).
Proof.
  intros Hfind. unfold delete, delete_unlink.
  rewrite (bind_ok _ _ s NoFixup s); [done|].
  by rewrite (bind_ok _ _ _ _ _ Hfind).
Qed.

(** C6. For every tree and every key that none of its nodes carries,
    [delete] returns normally and leaves the whole state (root, keys,
    colours and links of all nodes) exactly as it was; hence deleting the
    absent key twice in a row leaves the tree unchanged both times. *)
Theorem delete_absent_key_is_noop s t fuel k :
  is_tree s t →
  k ∉ inorder_keys t →
  (height t ≤ fuel)%nat →
  delete fuel k s = Ok (tt, s) ∧
  (delete fuel k >> delete fuel k) s = Ok (tt, s).
Proof.
  intros Ht Hk Hfuel.
  assert (delete fuel k s = Ok (tt, s)) as Hdel
    by (apply delete_not_found; by eapply find_key_absent).
  split; [done|].
  by rewrite (bind_ok _ _ _ _ _ Hdel).
Qed.

Lemma delete_absent_key_is_noop_witness :
  ∃ t, is_tree tree_1_2_3 t ∧ (7 ∉ inorder_keys t) ∧ (height t ≤ 8)%nat ∧
       delete 8 7 tree_1_2_3 = Ok (tt, tree_1_2_3) ∧
       (delete 8 7 >> delete 8 7) tree_1_2_3 = Ok (tt, tree_1_2_3).
Proof.
  destruct (invariants_is_tree tree_1_2_3) as (t & Ht & Htree);
    [vm_compute; reflexivity|].
  vm_compute in Ht. injection Ht as <-.
  eexists. split; [exact Htree|].
  assert (7 ∉ [1; 2; 3]) as Hk
    by (apply (bool_decide_unpack (7 ∉ [1; 2; 3])); vm_compute; exact I).
  split; [exact Hk|]. split; [simpl; lia|].
  apply (delete_absent_key_is_noop tree_1_2_3 _ 8 7 Htree Hk). simpl; lia.
Defined.

(** ** The search *)

(** Reading the tree [t] off a concrete state [s]. *)
Ltac concrete_tree s t Ht :=
  let Hto := fresh "Hto" in
  let t0 := fresh "t0" in
  destruct (tree_of s) as [t0|] eqn:Hto; [|vm_compute in Hto; discriminate];
  assert (is_tree s t0) as Ht
    by (split;
        [by eapply to_tree_rep
        |vm_compute in Hto; injection Hto as <-;
         refine (bool_decide_unpack _ _); vm_compute; exact I]);
  vm_compute in Hto;
  match type of Hto with
  | Some ?u = Some _ => set (t := u) in *; injection Hto as <-
  end.

(** On a tree the search returns normally, reads only, and what it
    returns is a node of the tree with the key that was asked for. *)
Lemma find_in_subtree_sound t :
  ∀ fuel s par p k,
    rep (heap s) par p t → (height t ≤ fuel)%nat →
    ∃ r, _find_key_in_subtree fuel p k s = Ok (r, s) ∧
         ∀ v, r = Some v →
              v ∈ addrs t ∧ ∃ n, heap s !! v = Some n ∧ key n = k.
Proof.
  induction t as [|l IHl a n r IHr]; intros fuel s par p k Hrep Hfuel.
  - simpl in Hrep. subst p. exists None. split; [by destruct fuel|done].
  - destruct Hrep as (-> & Hn & _ & Hl & Hr). simpl in Hfuel.
    destruct fuel as [|fuel]; [lia|]. simpl.
    rewrite (bind_ok _ _ _ _ _ (getf_some key a n s Hn)).
    destruct (Z.eqb_spec (key n) k) as [Hk|Hk].
    { exists (Some a). split; [done|]. intros v [= <-].
      split; [apply (in_here l _ n r)|eauto]. }
    destruct (key n <? k).
    + rewrite (bind_ok _ _ _ _ _ (getf_some right_node a n s Hn)).
      destruct (IHr fuel s (Some a) _ k Hr) as (res & Hrun & Hres); [lia|].
      exists res. split; [done|]. intros v Hv.
      destruct (Hres v Hv). split; [by apply (in_right l a n r)|done].
    + rewrite (bind_ok _ _ _ _ _ (getf_some left_node a n s Hn)).
      destruct (IHl fuel s (Some a) _ k Hl) as (res & Hrun & Hres); [lia|].
      exists res. split; [done|]. intros v Hv.
      destruct (Hres v Hv). split; [by apply (in_left l a n r)|done].
Qed.

Lemma inorder_keys_lookup h t :
  ∀ par p k, rep h par p t → k ∈ inorder_keys t →
  ∃ a n, a ∈ addrs t ∧ h !! a = Some n ∧ key n = k.
Proof.
  induction t as [|l IHl a n r IHr]; intros par p k Hrep Hk.
  - by apply elem_of_nil in Hk.
  - destruct Hrep as (-> & Hn & _ & Hl & Hr). simpl in Hk.
    apply elem_of_app in Hk as [Hk|Hk]; [|apply elem_of_cons in Hk as [->|Hk]].
    + destruct (IHl _ _ _ Hl Hk) as (b & m & ? & ? & ?).
      exists b, m. split; [by apply (in_left l a n r)|done].
    + exists a, n. split; [apply (in_here l _ n r)|done].
    + destruct (IHr _ _ _ Hr Hk) as (b & m & ? & ? & ?).
      exists b, m. split; [by apply (in_right l a n r)|done].
Qed.

(** X1. On every tree, as soon as the fuel covers the height,
    [find_key] returns normally and leaves the state as it is; what it
    returns is either [None] or a node of the tree that carries the key
    asked for; and for a key that no node carries it returns [None]. No
    order of the keys is assumed. *)
Theorem find_key_reads_a_node_with_the_key s t fuel k :
  is_tree s t → (height t ≤ fuel)%nat →
  ∃ r, find_key fuel k s = Ok (r, s) ∧
       (∀ v, r = Some v →
             v ∈ addrs t ∧ ∃ n, heap s !! v = Some n ∧ key n = k) ∧
       (k ∉ inorder_keys t → r = None).
Proof.
  intros [Hrep Hnd] Hfuel. unfold find_key.
  rewrite (bind_ok _ _ s (root s) s eq_refl).
  destruct (find_in_subtree_sound t fuel s None (root s) k Hrep Hfuel)
    as (r & Hrun & Hr).
  exists r. split; [done|]. split; [done|].
  intros Hk. destruct r as [v|]; [|done].
  destruct (Hr v eq_refl) as (Hv & n & Hn & <-).
  exfalso. apply Hk. clear -Hrep Hv Hn.
  revert Hrep Hv. generalize (root s), (@None addr).
  induction t as [|l IHl a m r IHr]; intros p par Hrep Hv.
  - by apply elem_of_nil in Hv.
  - destruct Hrep as (-> & Hm & _ & Hl & Hr). simpl in *.
    apply elem_of_app in Hv as [Hv|Hv]; [|apply elem_of_cons in Hv as [->|Hv]].
    + apply elem_of_app. left. by eapply IHl.
    + apply elem_of_app. right. apply elem_of_cons. left. congruence.
    + apply elem_of_app. right. apply elem_of_cons. right. by eapply IHr.
Qed.

Lemma find_key_reads_a_node_with_the_key_witness :
  ∃ t, is_tree tree_1_to_8 t ∧ (height t ≤ 8)%nat ∧
       ∃ r, find_key 8 5 tree_1_to_8 = Ok (r, tree_1_to_8) ∧
            (∀ v, r = Some v →
                  v ∈ addrs t ∧
                  ∃ n, heap tree_1_to_8 !! v = Some n ∧ key n = 5).
Proof.
  concrete_tree tree_1_to_8 t Ht.
  eexists. split; [exact Ht|].
  assert (height t ≤ 8)%nat as Hh by (subst t; vm_compute; lia).
  split; [exact Hh|].
  destruct (find_key_reads_a_node_with_the_key _ _ 8%nat 5 Ht Hh)
    as (r & Hrun & Hr & _).
  exists r. split; [exact Hrun|exact Hr].
Defined.

Lemma forallb_elem {A} (f : A → bool) (l : list A) x :
  forallb f l = true → x ∈ l → f x = true.
Proof.
  intros Hf Hx. rewrite forallb_forall in Hf. apply Hf.
  by apply list_elem_of_In.
Qed.

Lemma find_in_subtree_bst t :
  ∀ fuel s par p k,
    rep (heap s) par p t → bst t = true → (height t ≤ fuel)%nat →
    k ∈ inorder_keys t →
    ∃ v n, _find_key_in_subtree fuel p k s = Ok (Some v, s) ∧
           v ∈ addrs t ∧ heap s !! v = Some n ∧ key n = k.
Proof.
  induction t as [|l IHl a n r IHr]; intros fuel s par p k Hrep Hbst Hfuel Hk.
  - by apply elem_of_nil in Hk.
  - destruct Hrep as (-> & Hn & _ & Hl & Hr). simpl in Hfuel, Hbst, Hk.
    apply andb_prop in Hbst as [Hbst Hbr].
    apply andb_prop in Hbst as [Hbst Hbl].
    apply andb_prop in Hbst as [Hlt Hge].
    destruct fuel as [|fuel]; [lia|]. simpl.
    rewrite (bind_ok _ _ _ _ _ (getf_some key a n s Hn)).
    destruct (Z.eqb_spec (key n) k) as [Hkn|Hkn].
    { exists a, n. split; [done|]. split; [apply (in_here l _ n r)|done]. }
    assert (k ∈ inorder_keys l ∨ k ∈ inorder_keys r) as Hside.
    { apply elem_of_app in Hk as [?|Hk]; [by left|].
      apply elem_of_cons in Hk as [?|?]; [congruence|by right]. }
    destruct (Z.ltb_spec (key n) k) as [Hcmp|Hcmp].
    + rewrite (bind_ok _ _ _ _ _ (getf_some right_node a n s Hn)).
      destruct Hside as [Hkl|Hkr].
      { pose proof (forallb_elem _ _ _ Hlt Hkl) as H. simpl in H. lia. }
      destruct (IHr fuel s (Some a) _ k Hr Hbr) as (v & m & ? & ? & ?);
        [lia|done|].
      exists v, m. split; [done|]. split; [by apply (in_right l a n r)|done].
    + rewrite (bind_ok _ _ _ _ _ (getf_some left_node a n s Hn)).
      destruct Hside as [Hkl|Hkr].
      2:{ pose proof (forallb_elem _ _ _ Hge Hkr) as H. simpl in H. lia. }
      destruct (IHl fuel s (Some a) _ k Hl Hbl) as (v & m & ? & ? & ?);
        [lia|done|].
      exists v, m. split; [done|]. split; [by apply (in_left l a n r)|done].
Qed.

(** X2. On every tree whose keys are ordered as in a search tree (I1),
    [find_key] finds every key that some node carries: it returns a node
    of the tree with that key, and leaves the state as it is. *)
Theorem find_key_finds_every_key_of_a_search_tree s t fuel k :
  is_tree s t → bst t = true → (height t ≤ fuel)%nat →
  k ∈ inorder_keys t →
  ∃ v n, find_key fuel k s = Ok (Some v, s) ∧
         v ∈ addrs t ∧ heap s !! v = Some n ∧ key n = k.
Proof.
  intros [Hrep _] Hbst Hfuel Hk. unfold find_key.
  rewrite (bind_ok _ _ s (root s) s eq_refl).
  by eapply find_in_subtree_bst.
Qed.

Lemma find_key_finds_every_key_of_a_search_tree_witness :
  ∃ t, is_tree tree_1_to_8 t ∧ bst t = true ∧ (height t ≤ 8)%nat ∧
       5 ∈ inorder_keys t ∧
       ∃ v n, find_key 8 5 tree_1_to_8 = Ok (Some v, tree_1_to_8) ∧
              v ∈ addrs t ∧ heap tree_1_to_8 !! v = Some n ∧ key n = 5.
Proof.
  concrete_tree tree_1_to_8 t Ht.
  eexists. split; [exact Ht|].
  assert (bst t = true) as Hb by (subst t; vm_compute; reflexivity).
  assert (height t ≤ 8)%nat as Hh by (subst t; vm_compute; lia).
  assert (5 ∈ inorder_keys t) as Hk
    by (subst t; refine (bool_decide_unpack _ _); vm_compute; exact I).
  split; [exact Hb|]. split; [exact Hh|]. split; [exact Hk|].
  exact (find_key_finds_every_key_of_a_search_tree _ _ 8%nat 5 Ht Hb Hh Hk).
Defined.

(** ** Frame properties: what the operations leave alone *)

Section preserves.
Context {B : Type} (f : Node → B) (P : addr → Prop).

Lemma preserves_ret {A} (v : A) : preserves f P (ret v).
Proof. by intros s a s' [= _ <-]. Qed.

Lemma preserves_raise {A} e : preserves f P (@raise A e).
Proof. by intros s a s'. Qed.

Lemma preserves_bind {A C} (m : M A) (k : A → M C) :
  preserves f P m → (∀ a, preserves f P (k a)) → preserves f P (bind m k).
Proof.
  intros Hm Hk s c s' Hrun x Hx. unfold bind in Hrun.
  destruct (m s) as [[a s1]|e] eqn:Hms; [|done].
  rewrite (Hk a _ _ _ Hrun x Hx). by apply (Hm _ _ _ Hms).
Qed.

Lemma preserves_getf {A} (g : Node → A) r : preserves f P (getf g r).
Proof.
  intros s a s' Hrun x _. unfold getf, bind, load, ret in Hrun.
  destruct r as [b|]; [|done]. destruct (heap s !! b); [|done].
  by injection Hrun as _ <-.
Qed.

Lemma preserves_store (g : Node → Node) r :
  (∀ n, f (g n) = f n) ∨ (∀ b, r = Some b → P b) →
  preserves f P (store r g).
Proof.
  intros Hg s a s' Hrun x Hx. unfold store in Hrun.
  destruct r as [b|]; [|done]. destruct (heap s !! b) as [n|] eqn:Hb; [|done].
  injection Hrun as _ <-. simpl.
  destruct (decide (b = x)) as [->|Hbx].
  - rewrite lookup_insert_eq, Hb. simpl. destruct Hg as [Hg|Hg].
    + by rewrite Hg.
    + destruct Hx. by apply Hg.
  - by rewrite lookup_insert_ne.
Qed.

Lemma preserves_get_root : preserves f P get_root.
Proof. by intros s a s' [= _ <-]. Qed.

Lemma preserves_set_root r : preserves f P (set_root r).
Proof. by intros s a s' [= _ <-]. Qed.

End preserves.

Ltac frame_step :=
  first
    [ apply preserves_getf | apply preserves_ret | apply preserves_raise
    | apply preserves_get_root | apply preserves_set_root
    | apply preserves_store; left; first [intros []; reflexivity | solve [auto]]
    | apply preserves_store; right; first [assumption | intros ? ->; reflexivity]
    | match goal with H : _ |- _ => apply H end
    | apply preserves_bind; [|intros ?]
    | match goal with
      | |- preserves _ _ (if ?b then _ else _) => destruct b
      | |- preserves _ _ (match ?b with _ => _ end) => destruct b
      end ].

Ltac frame_unfold :=
  unfold andM, orM, is_red, is_black, has_right_son, has_left_son,
    has_no_children, has_two_children, has_black_children,
    is_left_son, is_right_son, grandfather_node, brother_node, _node_is_root,
    is_empty.

Ltac frame_auto := frame_unfold; repeat frame_step.

Section frame.
Context {B : Type} (f : Node → B) (P : addr → Prop).
Hypothesis Hfp : ∀ p n, f (with_parent p n) = f n.
Hypothesis Hfl : ∀ p n, f (with_left_node p n) = f n.
Hypothesis Hfr : ∀ p n, f (with_right_node p n) = f n.

(** The rotations write links only. *)
Lemma preserves_left_rotate r : preserves f P (_left_rotate r).
Proof using Hfp Hfl Hfr. unfold _left_rotate. frame_auto. Qed.

Lemma preserves_right_rotate r : preserves f P (_right_rotate r).
Proof using Hfp Hfl Hfr. unfold _right_rotate. frame_auto. Qed.

Lemma preserves_find_in_subtree fuel k :
  ∀ r, preserves f P (_find_key_in_subtree fuel r k).
Proof using Type. induction fuel as [|fuel IH]; intros r; simpl; frame_auto. Qed.

Lemma preserves_find_key fuel k : preserves f P (find_key fuel k).
Proof using Type.
  pose proof (preserves_find_in_subtree fuel k). unfold find_key. frame_auto.
Qed.

Lemma preserves_find_next_loop fuel : ∀ r, preserves f P (find_next_loop fuel r).
Proof using Type. induction fuel as [|fuel IH]; intros r; simpl; frame_auto. Qed.

Lemma preserves_find_next_key fuel r : preserves f P (_find_next_key fuel r).
Proof using Type.
  pose proof (preserves_find_next_loop fuel). unfold _find_next_key. frame_auto.
Qed.

Lemma preserves_insert_descend fuel n :
  ∀ p c, preserves f P (insert_descend fuel n p c).
Proof using Type. induction fuel as [|fuel IH]; intros p c; simpl; frame_auto. Qed.

Lemma preserves_delete_childless_node r :
  preserves f P (_delete_childless_node r).
Proof using Hfp Hfl Hfr. unfold _delete_childless_node. frame_auto. Qed.

Hypothesis Hfc : ∀ c n, f (with_colour c n) = f n.

Lemma preserves_insert_loop fuel : ∀ z, preserves f P (insert_loop fuel z).
Proof using Hfp Hfl Hfr Hfc.
  pose proof preserves_left_rotate. pose proof preserves_right_rotate.
  induction fuel as [|fuel IH]; intros z; simpl;
    unfold insert_loop_body, insert_case_right, insert_case_left; frame_auto.
Qed.

Lemma preserves_balance_after_insert fuel z :
  preserves f P (_balance_after_insert fuel z).
Proof using Hfp Hfl Hfr Hfc.
  pose proof (preserves_insert_loop fuel).
  unfold _balance_after_insert. frame_auto.
Qed.

Lemma preserves_delete_loop fuel : ∀ z, preserves f P (delete_loop fuel z).
Proof using Hfp Hfl Hfr Hfc.
  pose proof preserves_left_rotate. pose proof preserves_right_rotate.
  induction fuel as [|fuel IH]; intros z; simpl;
    unfold delete_loop_body, delete_case_left, delete_case_right,
      delete_right_rest, delete_left_finish, delete_right_finish; frame_auto.
Qed.

Lemma preserves_balance_after_delete fuel z :
  preserves f P (_balance_after_delete fuel z).
Proof using Hfp Hfl Hfr Hfc.
  pose proof (preserves_delete_loop fuel).
  unfold _balance_after_delete. frame_auto.
Qed.

End frame.

(** The structural part of [delete] writes the key of the located node
    only. *)
Section frame_delete.
Context {B : Type} (f : Node → B) (P : addr → Prop) (v : option addr).
Hypothesis Hfp : ∀ p n, f (with_parent p n) = f n.
Hypothesis Hfl : ∀ p n, f (with_left_node p n) = f n.
Hypothesis Hfr : ∀ p n, f (with_right_node p n) = f n.
Hypothesis Hfc : ∀ c n, f (with_colour c n) = f n.
Hypothesis Hfk : (∀ k n, f (with_key k n) = f n) ∨ (∀ b, v = Some b → P b).

Lemma preserves_delete_cases fuel : preserves f P (delete_cases fuel v).
Proof using Hfp Hfl Hfr Hfc Hfk.
  pose proof (preserves_find_next_key f P fuel).
  destruct Hfk; unfold delete_cases; frame_auto.
Qed.

Lemma preserves_delete_tail w : preserves f P (delete_tail v w).
Proof using Hfp Hfl Hfr Hfc Hfk. destruct Hfk; unfold delete_tail; frame_auto. Qed.

Lemma preserves_delete_after_find fuel :
  preserves f P
    (let* p :=
       (if is_None v then ret NoFixup else
        let* leaf := has_no_children v in
        if leaf then _delete_childless_node v >> ret NoFixup else
        let* fl := delete_cases fuel v in
        match fl with
        | Return p => ret p
        | Fallthrough next_key_node => delete_tail v next_key_node
        end) in
     match p with
     | NoFixup => ret tt
     | CallFixup node => _balance_after_delete fuel node
     end).
Proof using Hfp Hfl Hfr Hfc Hfk.
  pose proof (preserves_delete_cases fuel).
  pose proof preserves_delete_tail.
  pose proof (preserves_delete_childless_node f P Hfp Hfl Hfr).
  pose proof (preserves_balance_after_delete f P Hfp Hfl Hfr Hfc).
  frame_auto.
Qed.

End frame_delete.

(** ** Queries only read *)

Lemma read_only_ret {A} (v : A) : read_only (ret v).
Proof. by intros s a s' [= _ <-]. Qed.

Lemma read_only_raise {A} e : read_only (@raise A e).
Proof. by intros s a s'. Qed.

Lemma read_only_bind {A C} (m : M A) (k : A → M C) :
  read_only m → (∀ a, read_only (k a)) → read_only (bind m k).
Proof.
  intros Hm Hk s c s' Hrun. unfold bind in Hrun.
  destruct (m s) as [[a s1]|e] eqn:Hms; [|done].
  rewrite (Hk a _ _ _ Hrun). by apply (Hm _ _ _ Hms).
Qed.

Lemma read_only_getf {A} (g : Node → A) r : read_only (getf g r).
Proof.
  intros s a s' Hrun. unfold getf, bind, load, ret in Hrun.
  destruct r as [b|]; [|done]. destruct (heap s !! b); [|done].
  by injection Hrun as _ <-.
Qed.

Lemma read_only_get_root : read_only get_root.
Proof. by intros s a s' [= _ <-]. Qed.

Ltac read_step :=
  first
    [ apply read_only_getf | apply read_only_ret | apply read_only_raise
    | apply read_only_get_root
    | match goal with H : _ |- _ => apply H end
    | apply read_only_bind; [|intros ?]
    | match goal with
      | |- read_only (if ?b then _ else _) => destruct b
      | |- read_only (match ?b with _ => _ end) => destruct b
      end ].

Ltac read_auto := frame_unfold; repeat read_step.

Lemma read_only_find_in_subtree fuel k :
  ∀ r, read_only (_find_key_in_subtree fuel r k).
Proof. induction fuel as [|fuel IH]; intros r; simpl; read_auto. Qed.

Lemma read_only_find_next_loop fuel : ∀ r, read_only (find_next_loop fuel r).
Proof. induction fuel as [|fuel IH]; intros r; simpl; read_auto. Qed.

Lemma read_only_insert_descend fuel n :
  ∀ p c, read_only (insert_descend fuel n p c).
Proof. induction fuel as [|fuel IH]; intros p c; simpl; read_auto. Qed.

(** X3. The queries never modify the tree: on any state, also one that
    is not a well-formed tree, whenever [find_key], [_find_next_key],
    [is_empty] or one of the predicates of [Node] returns, the state
    (the root reference and every field of every node) is the one it
    started from. *)
Theorem queries_only_read fuel k r :
  read_only (find_key fuel k) ∧ read_only (_find_next_key fuel r) ∧
  read_only is_empty ∧ read_only (_node_is_root r) ∧
  read_only (is_red r) ∧ read_only (is_black r) ∧
  read_only (has_left_son r) ∧ read_only (has_right_son r) ∧
  read_only (has_no_children r) ∧ read_only (has_two_children r) ∧
  read_only (has_black_children r) ∧
  read_only (is_left_son r) ∧ read_only (is_right_son r) ∧
  read_only (brother_node r) ∧ read_only (grandfather_node r).
Proof.
  pose proof (read_only_find_in_subtree fuel k).
  pose proof (read_only_find_next_loop fuel).
  unfold find_key, _find_next_key.
  repeat split; read_auto.
Qed.

(** X4. The rotations write links only: whenever [_left_rotate] or
    [_right_rotate] returns, on any state, every node has the key and the
    colour it had, and no node has been allocated or dropped. *)
Theorem rotations_keep_keys_and_colours x s s' :
  _left_rotate x s = Ok (tt, s') ∨ _right_rotate x s = Ok (tt, s') →
  ∀ a, key <$> heap s' !! a = key <$> heap s !! a ∧
       colour <$> heap s' !! a = colour <$> heap s !! a.
Proof.
  intros Hrun a.
  destruct Hrun as [Hrun|Hrun]; split.
  - by eapply (preserves_left_rotate key (λ _, False)); eauto.
  - by eapply (preserves_left_rotate colour (λ _, False)); eauto.
  - by eapply (preserves_right_rotate key (λ _, False)); eauto.
  - by eapply (preserves_right_rotate colour (λ _, False)); eauto.
Qed.

Lemma rotations_keep_keys_and_colours_witness :
  _left_rotate (Some 1%nat) tree_1_to_4
  = Ok (tt, state_after (_left_rotate (Some 1%nat) tree_1_to_4)) ∧
  ∀ a, key <$> heap (state_after (_left_rotate (Some 1%nat) tree_1_to_4)) !! a
       = key <$> heap tree_1_to_4 !! a ∧
       colour <$> heap (state_after (_left_rotate (Some 1%nat) tree_1_to_4)) !! a
       = colour <$> heap tree_1_to_4 !! a.
Proof.
  split; [vm_compute; reflexivity|].
  apply (rotations_keep_keys_and_colours (Some 1%nat)).
  left. vm_compute. reflexivity.
Defined.

(** X5. Neither fix-up touches a key: whenever [_balance_after_insert]
    or [_balance_after_delete] returns, on any state and from any node,
    every node has the key it had, and no node has been allocated or
    dropped. *)
Theorem fixups_keep_keys fuel z s s' :
  _balance_after_insert fuel z s = Ok (tt, s') ∨
  _balance_after_delete fuel z s = Ok (tt, s') →
  ∀ a, key <$> heap s' !! a = key <$> heap s !! a.
Proof.
  intros [Hrun|Hrun] a.
  - by eapply (preserves_balance_after_insert key (λ _, False)); eauto.
  - by eapply (preserves_balance_after_delete key (λ _, False)); eauto.
Qed.

Lemma fixups_keep_keys_witness :
  _balance_after_insert 1 (Some 3%nat) tree_before_fixup
  = Ok (tt, state_after (_balance_after_insert 1 (Some 3%nat) tree_before_fixup)) ∧
  ∀ a, key <$> heap (state_after
                       (_balance_after_insert 1 (Some 3%nat) tree_before_fixup)) !! a
       = key <$> heap tree_before_fixup !! a.
Proof.
  split; [vm_compute; reflexivity|].
  apply (fixups_keep_keys 1 (Some 3%nat)).
  left. vm_compute. reflexivity.
Defined.

Lemma insert_frame {B} (f : Node → B) fuel k s s' :
  (∀ p n, f (with_parent p n) = f n) →
  (∀ p n, f (with_left_node p n) = f n) →
  (∀ p n, f (with_right_node p n) = f n) →
  (∀ c n, f (with_colour c n) = f n) →
  insert fuel k s = Ok (tt, s') →
  ∃ c, ∀ b, f <$> heap s' !! b
            = f <$> <[fresh (dom (heap s)) := mkNode k c None None None]> (heap s) !! b.
Proof.
  intros Hp Hl Hr Hc Hrun. unfold insert in Hrun.
  rewrite (bind_ok _ _ s (is_None (root s)) s eq_refl) in Hrun.
  destruct (is_None (root s)).
  - exists black. injection Hrun as <-. done.
  - exists red. rewrite (bind_ok _ _ s _ _ eq_refl) in Hrun.
    intros b.
    pose proof (preserves_insert_descend f (λ _, False) fuel).
    pose proof (preserves_balance_after_insert f (λ _, False) Hp Hl Hr Hc fuel).
    match type of Hrun with
    | ?m ?s1 = _ => assert (preserves f (λ _, False) m) as Hm by frame_auto
    end.
    apply (Hm _ _ _ Hrun b). tauto.
Qed.

(** X6. [insert] allocates exactly one node, which carries the new key,
    and leaves the key of every other node as it was: whenever it
    returns, on any state, the heap has the node at the fresh address and
    the keys elsewhere are unchanged. *)
Theorem insert_allocates_one_node fuel k s s' :
  insert fuel k s = Ok (tt, s') →
  heap s !! fresh (dom (heap s)) = None ∧
  key <$> heap s' !! fresh (dom (heap s)) = Some k ∧
  (∀ b, b ≠ fresh (dom (heap s)) →
        key <$> heap s' !! b = key <$> heap s !! b) ∧
  dom (heap s') = {[fresh (dom (heap s))]} ∪ dom (heap s).
Proof.
  intros Hrun.
  split; [apply not_elem_of_dom, is_fresh|].
  destruct (insert_frame key fuel k s s') as [c Hkey]; try done.
  split; [by rewrite Hkey, lookup_insert_eq|].
  split; [intros b Hb; by rewrite Hkey, lookup_insert_ne|].
  apply set_eq. intros b.
  rewrite elem_of_union, elem_of_singleton, !elem_of_dom.
  rewrite <- (fmap_is_Some key (heap s' !! b)).
  rewrite <- (fmap_is_Some key (heap s !! b)), Hkey.
  destruct (decide (b = fresh (dom (heap s)))) as [->|Hb].
  - rewrite lookup_insert_eq. simpl. split; [by left|eauto].
  - rewrite lookup_insert_ne by done. split; [by right|]. by intros [?|?].
Qed.

Lemma insert_allocates_one_node_witness :
  insert 8 5 tree_1_to_4 = Ok (tt, state_after (insert 8 5 tree_1_to_4)) ∧
  heap tree_1_to_4 !! fresh (dom (heap tree_1_to_4)) = None ∧
  key <$> heap (state_after (insert 8 5 tree_1_to_4))
            !! fresh (dom (heap tree_1_to_4)) = Some 5.
Proof.
  assert (insert 8 5 tree_1_to_4
          = Ok (tt, state_after (insert 8 5 tree_1_to_4))) as Hrun
    by (vm_compute; reflexivity).
  split; [exact Hrun|].
  pose proof (insert_allocates_one_node 8 5 tree_1_to_4 _ Hrun) as (H1 & H2 & _).
  split; [exact H1|exact H2].
Defined.

Lemma delete_frame {B} (f : Node → B) (P : option addr → addr → Prop) fuel k s s' :
  (∀ p n, f (with_parent p n) = f n) →
  (∀ p n, f (with_left_node p n) = f n) →
  (∀ p n, f (with_right_node p n) = f n) →
  (∀ c n, f (with_colour c n) = f n) →
  (∀ k n, f (with_key k n) = f n) ∨ (∀ b, P (Some b) b) →
  delete fuel k s = Ok (tt, s') →
  ∃ v, find_key fuel k s = Ok (v, s) ∧
       ∀ b, ¬ P v b → f <$> heap s' !! b = f <$> heap s !! b.
Proof.
  intros Hp Hl Hr Hc Hk Hrun. unfold delete, delete_unlink in Hrun.
  unfold bind at 1 in Hrun. unfold bind at 1 in Hrun.
  destruct (find_key fuel k s) as [[v s1]|e] eqn:Hfind; [|done].
  assert (s1 = s) as ->.
  { pose proof (read_only_find_in_subtree fuel k).
    assert (read_only (find_key fuel k)) as Hro by (unfold find_key; read_auto).
    by apply (Hro _ _ _ Hfind). }
  exists v. split; [done|]. intros b Hb.
  apply (preserves_delete_after_find f (P v) v Hp Hl Hr Hc) with (fuel := fuel) (a := tt);
    [|exact Hrun|done].
  destruct Hk as [Hk|Hk]; [by left|right]. by intros b' ->.
Qed.

(** X7. [delete] allocates and drops no node, and the only key it can
    overwrite is the one of the node that [find_key] locates: whenever it
    returns, on any state, every other node has the key it had. *)
Theorem delete_overwrites_only_the_located_key fuel k s s' :
  delete fuel k s = Ok (tt, s') →
  dom (heap s') = dom (heap s) ∧
  ∃ v, find_key fuel k s = Ok (v, s) ∧
       ∀ b, Some b ≠ v → key <$> heap s' !! b = key <$> heap s !! b.
Proof.
  intros Hrun. split.
  - destruct (delete_frame (λ _, tt) (λ _ _, False) fuel k s s') as (v & _ & Hv);
      try done; [by left|].
    apply set_eq. intros b. rewrite !elem_of_dom.
    rewrite <- (fmap_is_Some (λ _, tt) (heap s' !! b)).
    rewrite <- (fmap_is_Some (λ _, tt) (heap s !! b)).
    rewrite Hv by tauto. done.
  - destruct (delete_frame key (λ v b, Some b = v) fuel k s s') as (v & Hf & Hv);
      try done; [by right|].
    exists v. split; [done|]. intros b Hb. by apply Hv.
Qed.

Lemma delete_overwrites_only_the_located_key_witness :
  delete 8 2 tree_13_keys = Ok (tt, state_after (delete 8 2 tree_13_keys)) ∧
  dom (heap (state_after (delete 8 2 tree_13_keys))) = dom (heap tree_13_keys).
Proof.
  assert (delete 8 2 tree_13_keys
          = Ok (tt, state_after (delete 8 2 tree_13_keys))) as Hrun
    by (vm_compute; reflexivity).
  split; [exact Hrun|].
  pose proof (delete_overwrites_only_the_located_key 8 2 tree_13_keys _ Hrun)
    as (H1 & _).
  exact H1.
Defined.

(** ** The relatives of a node *)

(** X8. A node without parent, such as the root, is neither a left nor a
    right son; asking for its brother or its grandfather does not answer
    [None] but fails on the attribute access to the missing parent. A
    node whose parent exists gets as grandfather the parent reference of
    its parent, [None] included. This holds on any state. *)
Theorem relatives_of_a_parentless_node s a n :
  heap s !! a = Some n →
  (parent n = None →
     is_left_son (Some a) s = Ok (false, s) ∧
     is_right_son (Some a) s = Ok (false, s) ∧
     brother_node (Some a) s = Raise AttributeError ∧
     grandfather_node (Some a) s = Raise AttributeError) ∧
  (∀ p np, parent n = Some p → heap s !! p = Some np →
     grandfather_node (Some a) s = Ok (parent np, s)).
Proof.
  intros Ha. split.
  - intros Hp.
    unfold brother_node, is_left_son, is_right_son, grandfather_node,
      getf, load, bind, ret. simpl.
    repeat (rewrite ?Ha; simpl; rewrite ?Hp; simpl). done.
  - intros p np Hp Hnp.
    unfold grandfather_node, getf, load, bind, ret. simpl.
    rewrite Ha. simpl. rewrite Hp. by rewrite Hnp.
Qed.

Lemma relatives_of_a_parentless_node_witness :
  heap tree_1_2_3 !! 1%nat = Some (mkNode 2 black None (Some 0%nat) (Some 2%nat)) ∧
  brother_node (Some 1%nat) tree_1_2_3 = Raise AttributeError ∧
  grandfather_node (Some 1%nat) tree_1_2_3 = Raise AttributeError.
Proof.
  assert (heap tree_1_2_3 !! 1%nat
          = Some (mkNode 2 black None (Some 0%nat) (Some 2%nat))) as Hn
    by (vm_compute; reflexivity).
  split; [exact Hn|].
  pose proof (relatives_of_a_parentless_node _ _ _ Hn) as [H _].
  destruct (H eq_refl) as (_ & _ & Hb & Hg).
  split; [exact Hb|exact Hg].
Defined.

(** X9. In a tree, a node [x] with parent [q] is the left son exactly
    when the left reference of [q] is [x], the right son exactly when the
    right reference is, and it is one of the two and not both; its
    brother is what the other reference of [q] holds, and is never [x]
    itself. *)
Theorem sons_and_brother_in_a_tree s t x nx q nq :
  is_tree s t → x ∈ addrs t →
  heap s !! x = Some nx → parent nx = Some q → heap s !! q = Some nq →
  is_left_son (Some x) s = Ok (bool_decide (left_node nq = Some x), s) ∧
  is_right_son (Some x) s = Ok (bool_decide (right_node nq = Some x), s) ∧
  (left_node nq = Some x ↔ right_node nq ≠ Some x) ∧
  ∃ b, brother_node (Some x) s = Ok (b, s) ∧ b ≠ Some x ∧
       b = (if bool_decide (left_node nq = Some x)
            then right_node nq else left_node nq).
Proof.
  intros Ht Hxt Hx Hxq Hq.
  destruct (is_tree_parent _ _ _ _ _ Ht Hxt Hx Hxq) as (nq' & Hqt & Hd & Hq' & Hside).
  assert (nq' = nq) as -> by congruence.
  destruct (rep_linked _ _ _ _ (proj1 Ht) (proj2 Ht) q Hqt) as [nq' [Hq'' Hl _ _]].
  assert (nq' = nq) as -> by congruence.
  assert (left_node nq = Some x → right_node nq ≠ Some x) as Hexcl.
  { intros Hlx. by destruct (Hl x Hlx) as (_ & _ & ? & _). }
  assert (is_left_son (Some x) s = Ok (bool_decide (left_node nq = Some x), s))
    as Hls.
  { unfold is_left_son, getf, load, bind, ret. simpl. rewrite Hx. simpl.
    rewrite Hxq. simpl. rewrite Hq. simpl.
    destruct (left_node nq) as [l|]; simpl; [|done].
    f_equal. f_equal. apply bool_decide_ext. split; congruence. }
  split; [done|]. split.
  { unfold is_right_son, getf, load, bind, ret. simpl. rewrite Hx. simpl.
    rewrite Hxq. simpl. rewrite Hq. simpl.
    destruct (right_node nq) as [r|]; simpl; [|done].
    f_equal. f_equal. apply bool_decide_ext. split; congruence. }
  split.
  { split; [done|]. intros Hr. by destruct Hside. }
  eexists. split; [|split; [|reflexivity]].
  - unfold brother_node. rewrite (bind_ok _ _ _ _ _ Hls).
    rewrite (bind_ok _ _ _ _ _ (getf_some parent x nx s Hx)), Hxq.
    case_bool_decide; by rewrite (getf_some _ q nq s Hq).
  - case_bool_decide as Hlx; [by apply Hexcl|done].
Qed.

Lemma sons_and_brother_in_a_tree_witness :
  ∃ t, is_tree tree_1_2_3 t ∧ 0%nat ∈ addrs t ∧
       is_left_son (Some 0%nat) tree_1_2_3 = Ok (true, tree_1_2_3) ∧
       is_right_son (Some 0%nat) tree_1_2_3 = Ok (false, tree_1_2_3) ∧
       ∃ b, brother_node (Some 0%nat) tree_1_2_3 = Ok (b, tree_1_2_3) ∧
            b ≠ Some 0%nat.
Proof.
  concrete_tree tree_1_2_3 t Ht.
  eexists. split; [exact Ht|].
  assert (0%nat ∈ addrs t) as Hin
    by (subst t; refine (bool_decide_unpack _ _); vm_compute; exact I).
  split; [exact Hin|].
  destruct (sons_and_brother_in_a_tree tree_1_2_3 t 0%nat
              (mkNode 1 red (Some 1%nat) None None) 1%nat
              (mkNode 2 black None (Some 0%nat) (Some 2%nat)) Ht Hin)
    as (Hl & Hr & _ & b & Hb & Hne & _);
    [vm_compute; reflexivity|reflexivity|vm_compute; reflexivity|].
  split; [exact Hl|]. split; [exact Hr|].
  exists b. split; [exact Hb|exact Hne].
Defined.

(** ** The in-order successor *)

(** Going down to the left from the top of a subtree ends at the first
    node of the subtree in the in-order sequence. *)
Lemma find_next_loop_first t :
  ∀ fuel s par a,
    rep (heap s) par (Some a) t → (height t ≤ S fuel)%nat →
    ∃ d rest, find_next_loop fuel (Some a) s = Ok (Some d, s) ∧
              addrs t = d :: rest.
Proof.
  induction t as [|l IHl b n r _]; intros fuel s par a Hrep Hfuel; [done|].
  destruct Hrep as ([= ->] & Hn & _ & Hl & _). simpl in Hfuel.
  rewrite find_next_loop_unfold. unfold has_left_son.
  rewrite (bind_ok _ _ s (not_None (left_node n)) s)
    by (by rewrite (bind_ok _ _ _ _ _ (getf_some left_node b n s Hn))).
  destruct (left_node n) as [c|] eqn:Hc; simpl.
  - destruct l as [|ll c' nc lr]; [done|].
    assert (c' = c) as -> by (by destruct Hl as ([= ->] & _)).
    destruct fuel as [|fuel]; [simpl in Hfuel; lia|].
    rewrite (bind_ok _ _ _ _ _ (getf_some left_node b n s Hn)), Hc.
    destruct (IHl fuel s (Some b) c Hl) as (d & rest & Hrun & Hd); [lia|].
    exists d, (rest ++ b :: addrs r). split; [done|].
    by rewrite Hd.
  - destruct l as [|ll c' nc lr]; [|by destruct Hl].
    by exists b, (addrs r).
Qed.

Lemma find_next_key_in_subtree t :
  ∀ fuel s par p a na,
    rep (heap s) par p t → a ∈ addrs t →
    heap s !! a = Some na → right_node na ≠ None →
    (height t ≤ S fuel)%nat →
    ∃ d pre post, _find_next_key fuel (Some a) s = Ok (Some d, s) ∧
                  addrs t = pre ++ a :: d :: post.
Proof.
  induction t as [|l IHl b n r IHr]; intros fuel s par p a na Hrep Hat Ha Hr Hfuel.
  { by apply elem_of_nil in Hat. }
  pose proof Hrep as (-> & Hn & _ & Hl & Hrr). simpl in Hfuel.
  destruct (decide (a = b)) as [->|Hab].
  - assert (na = n) as -> by congruence.
    unfold _find_next_key.
    rewrite (bind_ok _ _ _ _ _ (getf_some right_node b n s Hn)).
    destruct (right_node n) as [c|] eqn:Hc; [|done].
    destruct (find_next_loop_first r fuel s (Some b) c Hrr) as (d & rest & Hrun & Hd);
      [lia|].
    exists d, (addrs l), rest. split; [done|]. simpl. by rewrite Hd.
  - simpl in Hat.
    apply elem_of_app in Hat as [Hat|Hat];
      [|apply elem_of_cons in Hat as [?|Hat]; [done|]].
    + destruct (IHl fuel s _ _ a na Hl Hat Ha Hr) as (d & pre & post & Hrun & Hd);
        [lia|].
      exists d, pre, (post ++ b :: addrs r). split; [done|].
      simpl. rewrite Hd. by rewrite <- app_assoc.
    + destruct (IHr fuel s _ _ a na Hrr Hat Ha Hr) as (d & pre & post & Hrun & Hd);
        [lia|].
      exists d, (addrs l ++ b :: pre), post. split; [done|].
      simpl. rewrite Hd. by rewrite <- app_assoc.
Qed.

(** X10. On every tree and for every node with a right child,
    [_find_next_key] returns normally once the fuel covers the height,
    reads only, and answers the node that comes directly after the given
    one in the in-order sequence of the tree. For a node without right
    child it does not answer [None], on any state: it fails on the
    attribute access. *)
Theorem find_next_key_is_the_inorder_successor s t fuel a na :
  heap s !! a = Some na →
  (right_node na = None → _find_next_key fuel (Some a) s = Raise AttributeError) ∧
  (is_tree s t → a ∈ addrs t → right_node na ≠ None →
   (height t ≤ S fuel)%nat →
   ∃ d pre post, _find_next_key fuel (Some a) s = Ok (Some d, s) ∧
                 addrs t = pre ++ a :: d :: post).
Proof.
  intros Ha. split.
  - intros Hr. unfold _find_next_key.
    rewrite (bind_ok _ _ _ _ _ (getf_some right_node a na s Ha)), Hr.
    by destruct fuel.
  - intros [Hrep _] Hat Hr Hfuel. by eapply find_next_key_in_subtree.
Qed.

Lemma find_next_key_is_the_inorder_successor_witness :
  ∃ t, is_tree tree_13_keys t ∧
       ∃ d pre post, _find_next_key 4 (Some 1%nat) tree_13_keys
                     = Ok (Some d, tree_13_keys) ∧
                     addrs t = pre ++ 1%nat :: d :: post.
Proof.
  concrete_tree tree_13_keys t Ht.
  eexists. split; [exact Ht|].
  destruct (heap tree_13_keys !! 1%nat) as [n|] eqn:Hn;
    [|vm_compute in Hn; discriminate].
  pose proof (find_next_key_is_the_inorder_successor tree_13_keys t 4%nat
                1%nat n Hn) as [_ H].
  apply H; [exact Ht| | |].
  - subst t. refine (bool_decide_unpack _ _). vm_compute. exact I.
  - vm_compute in Hn. injection Hn as <-. discriminate.
  - subst t. vm_compute. lia.
Defined.

(** ** The two rotations undo each other *)

Lemma state_eq (s s' : RBTree) :
  root s = root s' → (∀ a, heap s !! a = heap s' !! a) → s = s'.
Proof.
  destruct s, s'. simpl. intros -> Hh. f_equal. by apply map_eq.
Qed.

Lemma left_then_right_rotate s t x nx y :
  is_tree s t → x ∈ addrs t →
  heap s !! x = Some nx → right_node nx = Some y →
  (_left_rotate (Some x) >> _right_rotate (Some y)) s = Ok (tt, s).
Proof.
  intros Ht Hxt Hx Hxr.
  destruct (left_rotate_tree s t x nx y Ht Hxt Hx Hxr)
    as (s1 & ny & Hy & Hrun1 & Hroot1 & Hheap1 & Ht1 & Hxy & Hxb & Hyb & Hxq & Hyq & Hbq).
  rewrite (bind_ok _ _ _ _ _ Hrun1).
  (* what the tree says about [x], [y] and the parent of [x] *)
  pose proof Ht as [Hrep Hnd].
  destruct (rep_linked _ _ _ _ Hrep Hnd x Hxt) as [nx' [Hnx _ Hxrr Hxp]].
  assert (nx' = nx) as -> by congruence.
  destruct (Hxrr y Hxr) as (Hyt & Hdy & ny' & Hy' & Hyp).
  assert (ny' = ny) as -> by congruence.
  destruct (rep_linked _ _ _ _ Hrep Hnd y Hyt) as [ny' [Hny' Hyl _ _]].
  assert (ny' = ny) as -> by congruence.
  assert (parent nx = None → root s = Some x) as Hrootx.
  { intros Hp. destruct Hxp as [(Htop & _)|(? & ? & ? & _)]; [|congruence].
    by rewrite (rep_top _ _ _ _ Hrep). }
  assert (∀ q, parent nx = Some q →
            ∃ nq, heap s !! q = Some nq ∧ right_node nq ≠ Some y ∧
                  (left_node nq ≠ Some x → right_node nq = Some x)) as Hq.
  { intros q Hq.
    destruct (is_tree_parent _ _ _ _ _ Ht Hxt Hx Hq) as (nq & Hqt & Hdq & Hnq & Hside).
    exists nq. split; [done|]. split; [|by destruct Hside].
    destruct (rep_linked _ _ _ _ Hrep Hnd q Hqt) as [nq' [Hnq' _ Hqr _]].
    assert (nq' = nq) as -> by congruence.
    intros Hqy. destruct (Hqr y Hqy) as (_ & ? & _). lia. }
  remember (left_child_of s x (parent nx)) as pl eqn:Hpl.
  assert (heap s1 !! y
          = Some (mkNode (key ny) (colour ny) (parent nx) (Some x) (right_node ny)))
    as Hy1.
  { rewrite Hheap1, Hy. simpl. f_equal. unfold rotl_node. by simpl_decide. }
  assert (heap s1 !! x
          = Some (mkNode (key nx) (colour nx) (Some y) (left_node nx) (left_node ny)))
    as Hx1.
  { rewrite Hheap1, Hx. simpl. f_equal. unfold rotl_node. by simpl_decide. }
  (* the rotation back, as a left rotation of the mirror image *)
  rewrite right_rotate_mirror.
  destruct (left_rotate_tree (mirror s1) _ y
              (mkNode (key ny) (colour ny) (parent nx) (right_node ny) (Some x)) x
              (is_tree_mirror _ _ Ht1))
    as (s2 & nx2 & Hx2 & Hrun2 & Hroot2 & Hheap2 & _).
  { rewrite addrs_mirror_tree. apply elem_of_reverse.
    by rewrite addrs_tmap, addrs_rot_left_at. }
  { by rewrite lookup_mirror, Hy1. }
  { done. }
  rewrite lookup_mirror, Hx1 in Hx2. injection Hx2 as <-.
  cbn [parent left_node right_node mirror_node] in Hheap2, Hroot2.
  remember (left_child_of (mirror s1) y (parent nx)) as pl2 eqn:Hpl2.
  rewrite Hrun2. cbn [mirror_result]. f_equal. f_equal.
  apply state_eq.
  - (* the root *)
    cbn [mirror root]. rewrite Hroot2.
    destruct (parent nx) as [q|] eqn:Hp.
    + unfold mirror. cbn [root]. by rewrite Hroot1.
    + symmetry. by apply Hrootx.
  - (* the nodes *)
    intros a. rewrite lookup_mirror, Hheap2, lookup_mirror, Hheap1.
    destruct (heap s !! a) as [n|] eqn:Hn; [|done]. cbn [fmap option_fmap option_map].
    f_equal.
    assert (∀ c, left_node ny = Some c → c ≠ x ∧ c ≠ y ∧ Some c ≠ parent nx ∧
              ∃ nc, heap s !! c = Some nc ∧ parent nc = Some y) as Hb.
    { intros c Hc. destruct (Hyl c Hc) as (_ & _ & _ & nc & Hnc & Hpc).
      split; [congruence|]. split; [congruence|].
      split; [destruct Hbq; congruence|eauto]. }
    destruct (decide (a = x)) as [->|Hax];
      [|destruct (decide (a = y)) as [->|Hay]].
    + assert (n = nx) as -> by congruence. destruct nx. simpl in *.
      unfold rotl_node, mirror_node. simpl. simpl_decide. by subst.
    + assert (n = ny) as -> by congruence. destruct ny. simpl in *.
      unfold rotl_node, mirror_node. simpl. simpl_decide.
      by subst.
    + destruct (decide (Some a = left_node ny)) as [Hab|Hab].
      * symmetry in Hab. destruct (Hb a Hab) as (_ & _ & Haq & na & Hna & Hpa).
        assert (na = n) as -> by congruence.
        destruct n. simpl in *.
        unfold rotl_node, mirror_node. simpl. simpl_decide. by subst.
      * destruct (decide (Some a = parent nx)) as [Hap|Hap].
        -- symmetry in Hap. destruct (Hq a Hap) as (nq & Hnq & Hqy & Hqx).
           assert (nq = n) as -> by congruence.
           assert (pl = bool_decide (left_node n = Some x)) as Hplv.
           { rewrite Hpl. unfold left_child_of, node_at. rewrite Hap. simpl.
             by rewrite Hn. }
           assert (pl2 = negb pl) as Hpl2v.
           { rewrite Hpl2. unfold left_child_of, node_at. rewrite Hap. simpl.
             rewrite lookup_fmap, Hheap1, Hn. simpl.
             unfold rotl_node. simpl. simpl_decide.
             destruct pl; simpl.
             - by rewrite bool_decide_eq_false_2.
             - by rewrite bool_decide_eq_true_2. }
           rewrite Hpl2v, Hplv. destruct n as [kn cn pn ln rn]. simpl in *.
           unfold rotl_node, mirror_node. simpl. simpl_decide.
           case_bool_decide as Hl; simpl; [by subst|by rewrite (Hqx Hl)].
        -- destruct n. unfold rotl_node, mirror_node. simpl. by simpl_decide.
Qed.

Lemma right_then_left_rotate s t x nx y :
  is_tree s t → x ∈ addrs t →
  heap s !! x = Some nx → left_node nx = Some y →
  (_right_rotate (Some x) >> _left_rotate (Some y)) s = Ok (tt, s).
Proof.
  intros Ht Hxt Hx Hxl.
  assert (mirrors (_right_rotate (Some x) >> _left_rotate (Some y))
                  (_left_rotate (Some x) >> _right_rotate (Some y))) as Hm.
  { apply mirrors_bind; [apply mirrors_right_rotate|].
    intros _. apply mirrors_left_rotate. }
  rewrite <- (mirror_involutive s) at 1. rewrite Hm.
  rewrite (left_then_right_rotate (mirror s) (mirror_tree t) x (mirror_node nx) y).
  - simpl. by rewrite mirror_involutive.
  - by apply is_tree_mirror.
  - rewrite addrs_mirror_tree. by apply elem_of_reverse.
  - by rewrite lookup_mirror, Hx.
  - done.
Qed.

(** X11. The two rotations undo each other. On every tree, rotating
    left at a node [x] with right child [y] and then right at [y] gives
    back exactly the state before: the root reference and every field of
    every node. The same holds for rotating right at a node with left
    child [y] and then left at [y]. *)
Theorem rotations_undo_each_other s t x nx y :
  is_tree s t → x ∈ addrs t → heap s !! x = Some nx →
  (right_node nx = Some y →
   (_left_rotate (Some x) >> _right_rotate (Some y)) s = Ok (tt, s)) ∧
  (left_node nx = Some y →
   (_right_rotate (Some x) >> _left_rotate (Some y)) s = Ok (tt, s)).
Proof.
  intros Ht Hxt Hx. split; intros Hy.
  - by eapply left_then_right_rotate.
  - by eapply right_then_left_rotate.
Qed.

Lemma rotations_undo_each_other_witness :
  ∃ t, is_tree tree_1_to_8 t ∧ 3%nat ∈ addrs t ∧
       (_left_rotate (Some 3%nat) >> _right_rotate (Some 5%nat)) tree_1_to_8
       = Ok (tt, tree_1_to_8) ∧
       (_right_rotate (Some 3%nat) >> _left_rotate (Some 1%nat)) tree_1_to_8
       = Ok (tt, tree_1_to_8).
Proof.
  concrete_tree tree_1_to_8 t Ht.
  eexists. split; [exact Ht|].
  assert (3%nat ∈ addrs t) as Hin
    by (subst t; refine (bool_decide_unpack _ _); vm_compute; exact I).
  split; [exact Hin|].
  destruct (heap tree_1_to_8 !! 3%nat) as [n|] eqn:Hn;
    [|vm_compute in Hn; discriminate].
  split.
  - apply (proj1 (rotations_undo_each_other _ _ _ _ 5%nat Ht Hin Hn)).
    vm_compute in Hn. injection Hn as <-. reflexivity.
  - apply (proj2 (rotations_undo_each_other _ _ _ _ 1%nat Ht Hin Hn)).
    vm_compute in Hn. injection Hn as <-. reflexivity.
Defined.

(** ** Insertion *)

Lemma rep_ext t :
  ∀ h h' par p, rep h par p t → (∀ x, x ∈ addrs t → h' !! x = h !! x) →
                rep h' par p t.
Proof.
  induction t as [|l IHl a n r IHr]; intros h h' par p Hrep Hh; [done|].
  destruct Hrep as (-> & Hn & Hp & Hl & Hr).
  split; [done|]. split; [rewrite Hh; [done|apply (in_here l _ n r)]|].
  split; [done|]. split.
  - apply (IHl h); [done|]. intros x Hx. apply Hh. by apply (in_left l a n r).
  - apply (IHr h); [done|]. intros x Hx. apply Hh. by apply (in_right l a n r).
Qed.

Lemma insert_descend_unfold fuel z p c :
  insert_descend fuel z p c
  = (if is_None p then ret c else
     match fuel with
     | O => raise OutOfFuel
     | S fuel' =>
         let* k := getf key z in
         let* pk := getf key p in
         let* p' := (if k <? pk then getf left_node p else getf right_node p) in
         insert_descend fuel' z p' p
     end).
Proof. by destruct fuel. Qed.

(** The descent ends below the last node of the search path. *)
Lemma insert_descend_tree t :
  ∀ fuel s par p a na c0,
    rep (heap s) par p t → heap s !! a = Some na → (height t ≤ fuel)%nat →
    insert_descend fuel (Some a) p c0 s = Ok (attach (key na) c0 t, s).
Proof.
  induction t as [|l IHl b n r IHr]; intros fuel s par p a na c0 Hrep Ha Hfuel.
  - simpl in Hrep. subst p. by rewrite insert_descend_unfold.
  - destruct Hrep as (-> & Hn & _ & Hl & Hr). simpl in Hfuel.
    destruct fuel as [|fuel]; [lia|].
    rewrite insert_descend_unfold. simpl.
    rewrite (bind_ok _ _ _ _ _ (getf_some key a na s Ha)).
    rewrite (bind_ok _ _ _ _ _ (getf_some key b n s Hn)).
    destruct (key na <? key n).
    + rewrite (bind_ok _ _ _ _ _ (getf_some left_node b n s Hn)).
      apply (IHl fuel s (Some b)); [done|done|lia].
    + rewrite (bind_ok _ _ _ _ _ (getf_some right_node b n s Hn)).
      apply (IHr fuel s (Some b)); [done|done|lia].
Qed.

(** Hanging the new node in below the end of the search path gives the
    tree [ins]. *)
Lemma rep_ins a k c t :
  ∀ h par p c0,
    rep h par p t → NoDup (addrs t) → a ∉ addrs t → t ≠ Leaf →
    ∃ b nb, attach k c0 t = Some b ∧ b ∈ addrs t ∧ h !! b = Some nb ∧
            rep (<[b := if k <? key nb then with_left_node (Some a) nb
                        else with_right_node (Some a) nb]>
                   (<[a := mkNode k c (Some b) None None]> h))
                par p (ins a k c par t).
Proof.
  induction t as [|l IHl b n r IHr]; intros h par p c0 Hrep Hnd Ha Hne; [done|].
  clear Hne. pose proof Hrep as (-> & Hn & Hp & Hl & Hr).
  apply NoDup_Tr in Hnd as (Hndl & Hndr & Hbl & Hbr & Hdisj).
  assert (a ≠ b) as Hab by (intros ->; apply Ha, (in_here l _ n r)).
  assert (a ∉ addrs l) as Hal by (intros ?; by apply Ha, (in_left l b n r)).
  assert (a ∉ addrs r) as Har by (intros ?; by apply Ha, (in_right l b n r)).
  simpl. destruct (k <? key n) eqn:Hk.
  - destruct l as [|ll lb ln lr].
    + (* the new node becomes the left child of [b] *)
      exists b, n. rewrite Hk. split; [done|]. split; [apply (in_here Leaf _ n r)|].
      split; [done|]. simpl in Hl.
      split; [done|]. split; [by rewrite lookup_insert_eq|]. split; [done|].
      split.
      * simpl. split; [done|].
        split; [by rewrite lookup_insert_ne, lookup_insert_eq|]. done.
      * simpl. apply (rep_ext r h); [done|]. intros x Hx.
        assert (b ≠ x) by (intros ->; done).
        assert (a ≠ x) by (intros ->; done).
        by rewrite !lookup_insert_ne.
    + destruct (IHl h (Some b) (left_node n) (Some b) Hl Hndl Hal)
        as (d & nd & Hd & Hdl & Hnd & Hrepl); [done|].
      exists d, nd. split; [done|]. split; [by apply (in_left _ b n r)|].
      split; [done|].
      assert (d ≠ b) by (intros ->; done).
      split; [done|]. split; [by rewrite !lookup_insert_ne|]. split; [done|].
      split; [done|].
      apply (rep_ext r h); [done|]. intros x Hx.
      assert (d ≠ x) by (intros ->; by apply (Hdisj x)).
      assert (a ≠ x) by (intros ->; done).
      by rewrite !lookup_insert_ne.
  - destruct r as [|rl rb rn rr].
    + exists b, n. rewrite Hk. split; [done|]. split; [apply (in_here l _ n Leaf)|].
      split; [done|]. simpl in Hr.
      split; [done|]. split; [by rewrite lookup_insert_eq|]. split; [done|].
      split.
      * simpl. apply (rep_ext l h); [done|]. intros x Hx.
        assert (b ≠ x) by (intros ->; done).
        assert (a ≠ x) by (intros ->; done).
        by rewrite !lookup_insert_ne.
      * simpl. split; [done|].
        split; [by rewrite lookup_insert_ne, lookup_insert_eq|]. done.
    + destruct (IHr h (Some b) (right_node n) (Some b) Hr Hndr Har)
        as (d & nd & Hd & Hdr & Hnd & Hrepr); [done|].
      exists d, nd. split; [done|]. split; [by apply (in_right l b n _)|].
      split; [done|].
      assert (d ≠ b) by (intros ->; done).
      split; [done|]. split; [by rewrite !lookup_insert_ne|]. split; [done|].
      split; [|done].
      apply (rep_ext l h); [done|]. intros x Hx.
      assert (d ≠ x) by (intros ->; by apply (Hdisj x)).
      assert (a ≠ x) by (intros ->; done).
      by rewrite !lookup_insert_ne.
Qed.

Lemma addrs_ins a k c t : ∀ par, addrs (ins a k c par t) ≡ₚ a :: addrs t.
Proof.
  induction t as [|l IHl b n r IHr]; intros par; [done|].
  simpl. destruct (k <? key n); simpl.
  - by rewrite IHl.
  - rewrite IHr.
    transitivity ((addrs l ++ [b]) ++ a :: addrs r); [by rewrite <- app_assoc|].
    rewrite <- (Permutation_middle (addrs l ++ [b]) (addrs r) a).
    by rewrite <- app_assoc.
Qed.

Lemma inorder_keys_ins a k c t :
  ∀ par, inorder_keys (ins a k c par t) ≡ₚ k :: inorder_keys t.
Proof.
  induction t as [|l IHl b n r IHr]; intros par; [done|].
  simpl. destruct (k <? key n); simpl.
  - rewrite IHl. by destruct l.
  - rewrite IHr.
    assert (key (if r is Leaf then with_right_node (Some a) n else n) = key n)
      as -> by (by destruct r).
    transitivity ((inorder_keys l ++ [key n]) ++ k :: inorder_keys r);
      [by rewrite <- app_assoc|].
    rewrite <- (Permutation_middle (inorder_keys l ++ [key n]) (inorder_keys r) k).
    by rewrite <- app_assoc.
Qed.

Lemma height_ins a k c t : ∀ par, (height (ins a k c par t) ≤ S (height t))%nat.
Proof.
  induction t as [|l IHl b n r IHr]; intros par; [simpl; lia|].
  simpl. destruct (k <? key n); simpl.
  - specialize (IHl (Some b)). lia.
  - specialize (IHr (Some b)). lia.
Qed.

Lemma top_colour_ins a k c par t :
  t ≠ Leaf → top_colour (ins a k c par t) = top_colour t.
Proof.
  destruct t as [|l b n r]; [done|]. intros _. simpl.
  destruct (k <? key n); simpl; [by destruct l|by destruct r].
Qed.

Lemma forallb_elem_of {A} (f : A → bool) (l : list A) :
  forallb f l = true ↔ ∀ x, x ∈ l → f x = true.
Proof.
  rewrite forallb_forall. split; intros H x Hx; apply H; by apply list_elem_of_In.
Qed.

(** Hanging a node in at the end of its search path keeps the order of
    a search tree. *)
Lemma bst_ins a k c t : ∀ par, bst t = true → bst (ins a k c par t) = true.
Proof.
  induction t as [|l IHl b n r IHr]; intros par Hb; [done|].
  simpl in Hb.
  apply andb_prop in Hb as [Hb Hbr]. apply andb_prop in Hb as [Hb Hbl].
  apply andb_prop in Hb as [Hlt Hge].
  simpl. destruct (Z.ltb_spec k (key n)) as [Hk|Hk]; simpl.
  - assert (key (if l is Leaf then with_left_node (Some a) n else n) = key n)
      as -> by (by destruct l).
    rewrite Hge, Hbr, (IHl _ Hbl), !andb_true_r.
    apply forallb_elem_of. intros x Hx.
    rewrite inorder_keys_ins in Hx. apply elem_of_cons in Hx as [->|Hx].
    + by apply Z.ltb_lt.
    + by apply (proj1 (forallb_elem_of _ _) Hlt).
  - assert (key (if r is Leaf then with_right_node (Some a) n else n) = key n)
      as -> by (by destruct r).
    rewrite Hlt, Hbl, (IHr _ Hbr), !andb_true_r. simpl.
    apply forallb_elem_of. intros x Hx.
    rewrite inorder_keys_ins in Hx. apply elem_of_cons in Hx as [->|Hx].
    + by apply Z.leb_le.
    + by apply (proj1 (forallb_elem_of _ _) Hge).
Qed.

(** The in-order key sequence is read off the heap along the in-order
    sequence of the nodes. *)
Lemma inorder_keys_heap t :
  ∀ h par p, rep h par p t →
  Some <$> inorder_keys t = (λ a, key <$> h !! a) <$> addrs t.
Proof.
  induction t as [|l IHl b n r IHr]; intros h par p Hrep; [done|].
  destruct Hrep as (_ & Hn & _ & Hl & Hr). simpl.
  rewrite !fmap_app, !fmap_cons, (IHl _ _ _ Hl), (IHr _ _ _ Hr), Hn. done.
Qed.

Lemma inorder_keys_same h h' t t' par par' p p' :
  rep h par p t → rep h' par' p' t' → addrs t' = addrs t →
  (∀ a, key <$> h' !! a = key <$> h !! a) →
  inorder_keys t' = inorder_keys t.
Proof.
  intros Hrep Hrep' Ha Hk.
  apply (inj (fmap Some)).
  rewrite (inorder_keys_heap _ _ _ _ Hrep), (inorder_keys_heap _ _ _ _ Hrep'), Ha.
  apply list_fmap_ext. intros _ a _. apply Hk.
Qed.

Lemma height_le_length t : (height t ≤ length (addrs t))%nat.
Proof.
  induction t as [|l IHl b n r IHr]; [done|]. simpl.
  rewrite length_app. simpl. lia.
Qed.

(** The insert fix-up on a tree with black root. *)
Lemma balance_after_insert_tree s t z fuel :
  is_tree s t → top_colour t = black → z ∈ addrs t →
  (depth t z ≤ 2 * fuel + 1)%nat →
  ∃ s' t', _balance_after_insert fuel (Some z) s = Ok (tt, s') ∧
           is_tree s' t' ∧ addrs t' = addrs t ∧ top_colour t' = black.
Proof.
  intros Ht Hblack Hzt Hfuel.
  destruct (rep_linked _ _ _ _ (proj1 Ht) (proj2 Ht) z Hzt) as [nz [Hz _ _ _]].
  unfold _balance_after_insert, andM.
  rewrite (bind_ok _ _ s
             (match parent nz with
              | Some P => match node_at s (Some P) with
                          | Some nP => not_None (parent nP)
                          | None => false
                          end
              | None => false
              end) s).
  2:{ unfold grandfather_node, getf, load, bind, ret. simpl. rewrite Hz. simpl.
      destruct (parent nz) as [P|] eqn:HzP; simpl; [|done].
      destruct (is_tree_parent _ _ _ _ _ Ht Hzt Hz HzP) as (nP & _ & _ & HP & _).
      rewrite Hz. simpl. rewrite HzP. simpl. by rewrite HP. }
  destruct (parent nz) as [P|] eqn:HzP; simpl; [|by exists s, t].
  destruct (is_tree_parent _ _ _ _ _ Ht Hzt Hz HzP) as (nP & _ & _ & HP & _).
  rewrite HP. destruct (parent nP) as [g|]; simpl; [|by exists s, t].
  destruct (insert_loop_terminates fuel s t z nz P) as (s' & t' & Hloop & Ht' & Ha');
    try done.
  rewrite (bind_ok _ _ _ _ _ Hloop).
  assert (∃ r' nr', root s' = Some r' ∧ heap s' !! r' = Some nr' ∧ top t' = Some r')
    as (r' & nr' & Hr' & Hnr' & Htop').
  { destruct t' as [|l' r' nr' rr'].
    - rewrite <- Ha' in Hzt. by apply elem_of_nil in Hzt.
    - destruct Ht' as [(? & ? & _) _]. eauto. }
  unfold get_root, bind. rewrite Hr'.
  rewrite (store_some _ _ _ _ Hnr').
  eexists _, _. split; [done|]. split; [by apply recolour_tree|].
  split; [by rewrite addrs_tmap|].
  destruct t' as [|l' a' n' rr']; [done|]. simpl in *.
  unfold recolour. simplify_eq. by rewrite decide_True.
Qed.

(** Keys in strictly increasing order make a search tree, whatever the
    shape. *)
Lemma sorted_bst t : StronglySorted Z.lt (inorder_keys t) → bst t = true.
Proof.
  induction t as [|l IHl b n r IHr]; intros Hs; [done|]. simpl in *.
  apply StronglySorted_app in Hs as (Hlr & Hsl & Hsr).
  apply StronglySorted_cons in Hsr as [Hnr Hsr].
  rewrite (IHl Hsl), (IHr Hsr), !andb_true_r.
  apply andb_true_intro. split.
  - apply forallb_elem_of. intros x Hx. apply Z.ltb_lt.
    apply (Hlr x (key n)); [done|by apply elem_of_cons; left].
  - apply forallb_elem_of. intros x Hx. apply Z.leb_le.
    rewrite Forall_forall in Hnr. specialize (Hnr x Hx). lia.
Qed.

(** A search tree without repeated keys has its keys in strictly
    increasing order. *)
Lemma bst_sorted t :
  bst t = true → NoDup (inorder_keys t) → StronglySorted Z.lt (inorder_keys t).
Proof.
  induction t as [|l IHl b n r IHr]; intros Hb Hnd; [constructor|].
  simpl in *.
  apply andb_prop in Hb as [Hb Hbr]. apply andb_prop in Hb as [Hb Hbl].
  apply andb_prop in Hb as [Hlt Hge].
  apply NoDup_app in Hnd as (Hndl & Hdisj & Hndr).
  apply NoDup_cons in Hndr as [Hnr Hndr].
  rewrite forallb_elem_of in Hlt. rewrite forallb_elem_of in Hge.
  assert (∀ x, x ∈ inorder_keys r → key n < x) as Hgt.
  { intros x Hx. specialize (Hge x Hx). simpl in Hge.
    apply Z.leb_le in Hge. assert (x ≠ key n) by (intros ->; done). lia. }
  apply StronglySorted_app. split; [|split; [by apply IHl|]].
  - intros x y Hx Hy. specialize (Hlt x Hx). simpl in Hlt.
    apply Z.ltb_lt in Hlt.
    apply elem_of_cons in Hy as [->|Hy]; [done|]. specialize (Hgt y Hy). lia.
  - apply StronglySorted_cons. split; [by apply Forall_forall|by apply IHr].
Qed.

Lemma rep_is_Some t :
  ∀ h par p x, rep h par p t → x ∈ addrs t → is_Some (h !! x).
Proof.
  induction t as [|l IHl b n r IHr]; intros h par p x Hrep Hx.
  { by apply elem_of_nil in Hx. }
  destruct Hrep as (_ & Hn & _ & Hl & Hr). simpl in Hx.
  apply elem_of_app in Hx as [Hx|Hx]; [by eapply IHl|].
  apply elem_of_cons in Hx as [->|Hx]; [eauto|by eapply IHr].
Qed.

Lemma fresh_not_in_tree s t : is_tree s t → fresh (dom (heap s)) ∉ addrs t.
Proof.
  intros [Hrep _] Hin.
  apply (is_fresh (dom (heap s))). apply elem_of_dom.
  by eapply rep_is_Some.
Qed.

(** [insert] on a tree that is not empty: the new red node is hung in
    at the end of the search path, and the fix-up is called on it. *)
Lemma insert_attach s t fuel k :
  is_tree s t → t ≠ Leaf → (height t ≤ fuel)%nat →
  ∃ s1 c,
    is_tree s1 (ins (fresh (dom (heap s))) k red None t) ∧
    heap s1 !! fresh (dom (heap s)) = Some (mkNode k red (Some c) None None) ∧
    insert fuel k s = _balance_after_insert fuel (Some (fresh (dom (heap s)))) s1.
Proof.
  intros Ht Hne Hfuel.
  pose proof (fresh_not_in_tree s t Ht) as Hfresh.
  set (a := fresh (dom (heap s))) in *.
  pose proof Ht as [Hrep Hnd].
  unfold insert.
  rewrite (bind_ok _ _ s (is_None (root s)) s eq_refl).
  rewrite (is_tree_root _ _ Ht).
  assert (is_None (top t) = false) as -> by (by destruct t).
  rewrite (bind_ok _ _ s (Some a)
             (mkTree (root s) (<[a := mkNode k red None None None]> (heap s)))
             eq_refl).
  set (s0 := mkTree (root s) (<[a := mkNode k red None None None]> (heap s))).
  rewrite (bind_ok _ _ s0 (root s) s0 eq_refl).
  assert (rep (heap s0) None (root s) t) as Hrep0.
  { apply (rep_ext t (heap s)); [done|]. intros x Hx. simpl.
    rewrite lookup_insert_ne; [done|]. by intros ->. }
  assert (heap s0 !! a = Some (mkNode k red None None None)) as Ha0
    by apply lookup_insert_eq.
  rewrite (bind_ok _ _ _ _ _
             (insert_descend_tree t fuel s0 None (root s) a _ None Hrep0 Ha0 Hfuel)).
  destruct (rep_ins a k red t (heap s0) None (root s) None Hrep0 Hnd Hfresh Hne)
    as (c & nc & Hc & Hct & Hnc & Hrep1).
  cbn [key]. rewrite Hc.
  assert (c ≠ a) as Hca by (intros ->; done).
  rewrite (bind_ok _ _ _ _ _ (store_some _ _ _ _ Ha0)). simpl is_None. cbv iota.
  set (s0' := mkTree (root s0) (<[a := with_parent (Some c) (mkNode k red None None None)]> (heap s0))).
  assert (heap s0' !! a = Some (mkNode k red (Some c) None None)) as Ha0'
    by apply lookup_insert_eq.
  assert (heap s0' !! c = Some nc) as Hc0'
    by (simpl; by rewrite lookup_insert_ne).
  set (s1 := mkTree (root s)
               (<[c := if k <? key nc then with_left_node (Some a) nc
                       else with_right_node (Some a) nc]> (heap s0'))).
  assert ((let* nk := getf key (Some a) in
           let* ck := getf key (Some c) in
           if nk <? ck then store (Some c) (with_left_node (Some a))
           else store (Some c) (with_right_node (Some a))) s0' = Ok (tt, s1))
    as Hstore.
  { rewrite (bind_ok _ _ _ _ _ (getf_some key a _ s0' Ha0')).
    rewrite (bind_ok _ _ _ _ _ (getf_some key c _ s0' Hc0')). cbn [key].
    unfold s1. destruct (k <? key nc); exact (store_some _ _ _ _ Hc0'). }
  rewrite (bind_ok _ _ _ _ _ Hstore).
  exists s1, c. split; [|split; [|done]].
  - split; [exact Hrep1|]. rewrite addrs_ins. by apply NoDup_cons.
  - unfold s1. simpl. by rewrite lookup_insert_ne.
Qed.

(** [insert] on a tree with black root: it returns, and the result is
    the tree with the new node hung in at the end of the search path, up
    to what the fix-up does, which keeps the nodes and their order. *)
Lemma insert_tree s t fuel k :
  is_tree s t → top_colour t = black → (height t ≤ fuel)%nat →
  ∃ s' t' c,
    insert fuel k s = Ok (tt, s') ∧ is_tree s' t' ∧ top_colour t' = black ∧
    addrs t' = addrs (ins (fresh (dom (heap s))) k c None t) ∧
    inorder_keys t' = inorder_keys (ins (fresh (dom (heap s))) k c None t).
Proof.
  intros Ht Hblack Hfuel.
  assert (t = Leaf ∨ t ≠ Leaf) as [->|Hne] by (destruct t; [by left|by right]).
  - (* the empty tree *)
    unfold insert.
    rewrite (bind_ok _ _ s (is_None (root s)) s eq_refl).
    rewrite (is_tree_root _ _ Ht). simpl.
    eexists _, (Tr Leaf _ (mkNode k black None None None) Leaf), black.
    split; [reflexivity|]. split; [|done].
    split; [|apply NoDup_singleton].
    simpl. by rewrite lookup_insert_eq.
  - destruct (insert_attach s t fuel k Ht Hne Hfuel) as (s1 & c & Ht1 & Ha1 & ->).
    set (a := fresh (dom (heap s))) in *.
    assert (a ∈ addrs (ins a k red None t)) as Hat1
      by (rewrite addrs_ins; by apply elem_of_cons; left).
    destruct (balance_after_insert_tree s1 _ a fuel Ht1) as (s2 & t2 & Hrun & Ht2 & Ha2 & Hb2).
    { by rewrite top_colour_ins. }
    { done. }
    { pose proof (depth_lt_height _ _ Hat1).
      pose proof (height_ins a k red t None). lia. }
    exists s2, t2, red. split; [done|]. split; [done|]. split; [done|].
    split; [done|].
    eapply inorder_keys_same; [exact (proj1 Ht1)|exact (proj1 Ht2)|done|].
    intros x.
    eapply (preserves_balance_after_insert key (λ _, False)); try done.
    tauto.
Qed.

Lemma inorder_keys_ins_indep a a' k c c' t :
  ∀ par par', inorder_keys (ins a k c par t) = inorder_keys (ins a' k c' par' t).
Proof.
  induction t as [|l IHl b n r IHr]; intros par par'; [done|].
  simpl. destruct (k <? key n); simpl.
  - rewrite (IHl (Some b) (Some b)). by destruct l.
  - rewrite (IHr (Some b) (Some b)). by destruct r.
Qed.

Lemma insert_tree_sorted s t fuel k :
  is_tree s t → top_colour t = black → (height t ≤ fuel)%nat →
  ∃ s' t',
    insert fuel k s = Ok (tt, s') ∧ is_tree s' t' ∧ top_colour t' = black ∧
    inorder_keys t' = inorder_keys (ins (fresh (dom (heap s))) k red None t) ∧
    inorder_keys t' ≡ₚ k :: inorder_keys t ∧
    length (addrs t') = S (length (addrs t)) ∧
    (bst t = true → NoDup (inorder_keys t) → k ∉ inorder_keys t →
     bst t' = true ∧ NoDup (inorder_keys t')).
Proof.
  intros Ht Hblack Hfuel.
  destruct (insert_tree s t fuel k Ht Hblack Hfuel)
    as (s' & t' & c & Hrun & Ht' & Hb' & Ha' & Hk').
  exists s', t'. split; [done|]. split; [done|]. split; [done|].
  split.
  { rewrite Hk'. apply inorder_keys_ins_indep. }
  split; [by rewrite Hk', inorder_keys_ins|].
  split; [by rewrite Ha', addrs_ins|].
  intros Hbst Hnd Hk.
  assert (NoDup (inorder_keys t')) as Hnd'.
  { rewrite Hk', inorder_keys_ins. by apply NoDup_cons. }
  split; [|done].
  apply sorted_bst. rewrite Hk'. apply bst_sorted.
  - by apply bst_ins.
  - by rewrite <- Hk'.
Qed.

(** X12. On every tree with black root, [insert] returns normally once
    the fuel covers the height. The result is again a tree with black
    root and one node more, and its in-order key sequence is the old one
    with the new key put in at the place where the search for it ends.
    If the tree was a search tree without repeated keys and the key is
    new, the result is a search tree without repeated keys. *)
Theorem insert_puts_the_key_in_its_place s t fuel k :
  is_tree s t → root_black t = true → (height t ≤ fuel)%nat →
  ∃ s' t',
    insert fuel k s = Ok (tt, s') ∧ is_tree s' t' ∧ root_black t' = true ∧
    inorder_keys t' = inorder_keys (ins (fresh (dom (heap s))) k red None t) ∧
    inorder_keys t' ≡ₚ k :: inorder_keys t ∧
    length (addrs t') = S (length (addrs t)) ∧
    (bst t = true → NoDup (inorder_keys t) → k ∉ inorder_keys t →
     bst t' = true ∧ NoDup (inorder_keys t')).
Proof.
  intros Ht Hblack Hfuel. apply bool_decide_eq_true_1 in Hblack.
  destruct (insert_tree_sorted s t fuel k Ht Hblack Hfuel)
    as (s' & t' & Hrun & Ht' & Hb' & Hrest).
  exists s', t'. split; [done|]. split; [done|]. split; [|done].
  by apply bool_decide_eq_true_2.
Qed.

Lemma insert_puts_the_key_in_its_place_witness :
  ∃ t, is_tree tree_1_to_4 t ∧ root_black t = true ∧ (height t ≤ 8)%nat ∧
       ∃ s' t', insert 8 0 tree_1_to_4 = Ok (tt, s') ∧ is_tree s' t' ∧
                root_black t' = true ∧
                inorder_keys t' ≡ₚ 0 :: inorder_keys t.
Proof.
  concrete_tree tree_1_to_4 t Ht.
  eexists. split; [exact Ht|].
  assert (root_black t = true) as Hb by (subst t; vm_compute; reflexivity).
  assert (height t ≤ 8)%nat as Hh by (subst t; vm_compute; lia).
  split; [exact Hb|]. split; [exact Hh|].
  destruct (insert_puts_the_key_in_its_place _ _ 8%nat 0 Ht Hb Hh)
    as (s' & t' & Hrun & Ht' & Hb' & _ & Hperm & _).
  exists s', t'. split; [exact Hrun|]. split; [exact Ht'|].
  split; [exact Hb'|exact Hperm].
Defined.

(** X13. Inserting a new key into a search tree without repeated keys
    and with black root, and then searching: the new key is found, every
    key that was in the tree is still found, and any other key is
    reported absent. *)
Theorem find_after_insert s t fuel fuel' k :
  is_tree s t → root_black t = true → bst t = true →
  NoDup (inorder_keys t) → k ∉ inorder_keys t →
  (height t ≤ fuel)%nat → (S (length (addrs t)) ≤ fuel')%nat →
  ∃ s', insert fuel k s = Ok (tt, s') ∧
        ∀ k', if bool_decide (k' = k ∨ k' ∈ inorder_keys t)
              then ∃ v n, find_key fuel' k' s' = Ok (Some v, s') ∧
                          heap s' !! v = Some n ∧ key n = k'
              else find_key fuel' k' s' = Ok (None, s').
Proof.
  intros Ht Hblack Hbst Hnd Hk Hfuel Hfuel'.
  apply bool_decide_eq_true_1 in Hblack.
  destruct (insert_tree_sorted s t fuel k Ht Hblack Hfuel)
    as (s' & t' & Hrun & Ht' & _ & _ & Hperm & Hlen & Hsorted).
  destruct (Hsorted Hbst Hnd Hk) as [Hbst' _].
  exists s'. split; [done|]. intros k'.
  assert (height t' ≤ fuel')%nat as Hh.
  { pose proof (height_le_length t'). lia. }
  case_bool_decide as Hin.
  - assert (k' ∈ inorder_keys t') as Hin'.
    { rewrite Hperm. apply elem_of_cons. destruct Hin; [by left|by right]. }
    destruct Ht' as [Hrep' _]. unfold find_key.
    rewrite (bind_ok _ _ s' (root s') s' eq_refl).
    destruct (find_in_subtree_bst t' fuel' s' None (root s') k' Hrep' Hbst' Hh Hin')
      as (v & n & Hfind & _ & Hn & Hkn).
    by exists v, n.
  - apply (find_key_absent s' t'); [done| |done].
    rewrite Hperm. intros [->|?]%elem_of_cons; apply Hin; [by left|by right].
Qed.

Lemma find_after_insert_witness :
  ∃ t, is_tree tree_1_to_4 t ∧ root_black t = true ∧ bst t = true ∧
       NoDup (inorder_keys t) ∧ (7 ∉ inorder_keys t) ∧
       ∃ s', insert 8 7 tree_1_to_4 = Ok (tt, s') ∧
             (∃ v n, find_key 8 7 s' = Ok (Some v, s') ∧
                     heap s' !! v = Some n ∧ key n = 7) ∧
             find_key 8 9 s' = Ok (None, s').
Proof.
  concrete_tree tree_1_to_4 t Ht.
  eexists. split; [exact Ht|].
  assert (root_black t = true) as Hb by (subst t; vm_compute; reflexivity).
  assert (bst t = true) as Hbst by (subst t; vm_compute; reflexivity).
  assert (NoDup (inorder_keys t)) as Hnd
    by (subst t; refine (bool_decide_unpack _ _); vm_compute; exact I).
  assert (7 ∉ inorder_keys t) as Hk
    by (subst t; refine (bool_decide_unpack _ _); vm_compute; exact I).
  split; [exact Hb|]. split; [exact Hbst|]. split; [exact Hnd|].
  split; [exact Hk|].
  destruct (find_after_insert _ _ 8%nat 8%nat 7 Ht Hb Hbst Hnd Hk)
    as (s' & Hrun & Hfind); [subst t; vm_compute; lia|subst t; vm_compute; lia|].
  exists s'. split; [exact Hrun|]. split.
  - pose proof (Hfind 7) as H7.
    rewrite bool_decide_eq_true_2 in H7 by (by left). exact H7.
  - pose proof (Hfind 9) as H9.
    rewrite bool_decide_eq_false_2 in H9; [exact H9|].
    subst t. intros [?|Hin]; [done|].
    revert Hin. refine (bool_decide_unpack _ _). vm_compute. exact I.
Defined.

(** The constructor, from any tree with black root on. *)
Lemma insert_all_tree fuel elements :
  ∀ s t,
    is_tree s t → top_colour t = black →
    (length (addrs t) + length elements ≤ fuel)%nat →
    ∃ s' t',
      insert_all fuel elements s = Ok (tt, s') ∧ is_tree s' t' ∧
      top_colour t' = black ∧
      inorder_keys t' ≡ₚ elements ++ inorder_keys t ∧
      (bst t = true → NoDup (elements ++ inorder_keys t) →
       bst t' = true).
Proof.
  induction elements as [|k elements IH]; intros s t Ht Hblack Hfuel.
  { exists s, t. split; [done|]. split; [done|]. split; [done|].
    split; [done|]. by intros. }
  simpl in Hfuel.
  destruct (insert_tree_sorted s t fuel k Ht Hblack)
    as (s1 & t1 & Hrun & Ht1 & Hb1 & _ & Hperm & Hlen & Hsorted).
  { pose proof (height_le_length t). lia. }
  destruct (IH s1 t1 Ht1 Hb1) as (s' & t' & Hall & Ht' & Hb' & Hperm' & Hsorted');
    [lia|].
  exists s', t'. split; [simpl; by rewrite (bind_ok _ _ _ _ _ Hrun)|].
  split; [done|]. split; [done|]. split.
  { rewrite Hperm', Hperm. simpl. by rewrite Permutation_middle. }
  intros Hbst Hnd. simpl in Hnd. apply NoDup_cons in Hnd as [Hk Hnd].
  destruct Hsorted as [Hbst1 Hnd1]; [done| | |].
  { by apply NoDup_app in Hnd as (_ & _ & ?). }
  { intros Hin. apply Hk. apply elem_of_app. by right. }
  apply Hsorted'; [done|].
  rewrite Hperm. rewrite <- Permutation_middle. by apply NoDup_cons.
Qed.

(** X14. The constructor builds a tree from any list of elements no
    longer than the fuel: it returns normally, the result is a tree
    with black root (or the empty tree) whose keys are the elements, each
    as often as it is listed; when the elements are pairwise distinct,
    the result is a search tree. *)
Theorem constructor_builds_a_search_tree fuel elements :
  (length elements ≤ fuel)%nat →
  ∃ s t, RBTree_init fuel elements = Ok (tt, s) ∧ is_tree s t ∧
         root_black t = true ∧ inorder_keys t ≡ₚ elements ∧
         (NoDup elements → bst t = true ∧ NoDup (inorder_keys t)).
Proof.
  intros Hfuel.
  destruct (insert_all_tree fuel elements empty_tree Leaf)
    as (s & t & Hrun & Ht & Hb & Hperm & Hsorted).
  { split; [done|constructor]. }
  { done. }
  { simpl. lia. }
  rewrite app_nil_r in Hperm, Hsorted.
  exists s, t. split; [exact Hrun|]. split; [done|].
  split; [by apply bool_decide_eq_true_2|]. split; [done|].
  intros Hnd. split; [by apply Hsorted|]. by rewrite Hperm.
Qed.

Lemma constructor_builds_a_search_tree_witness :
  ∃ s t, RBTree_init 5 [3; 1; 2] = Ok (tt, s) ∧ is_tree s t ∧
         root_black t = true ∧ inorder_keys t ≡ₚ [3; 1; 2].
Proof.
  destruct (constructor_builds_a_search_tree 5 [3; 1; 2])
    as (s & t & Hrun & Ht & Hb & Hperm & _); [simpl; lia|].
  exists s, t. split; [exact Hrun|]. split; [exact Ht|].
  split; [exact Hb|exact Hperm].
Defined.

(** ** The colour skeleton *)

Lemma caddrs_skel t : caddrs (skel t) = addrs t.
Proof. induction t; simpl; congruence. Qed.

Lemma ctop_skel t : ctop (skel t) = top t.
Proof. by destruct t. Qed.

Lemma ctopc_skel t : ctopc (skel t) = top_colour t.
Proof. by destruct t. Qed.

Lemma cnrr_skel t : cnrr None (skel t) = no_red_red t.
Proof.
  induction t as [|l IHl a n r IHr]; [done|]. simpl.
  rewrite IHl, IHr. unfold child_ok. rewrite !ctopc_skel, !orb_false_r. done.
Qed.

Lemma cbh_skel t : cbh (skel t) = black_height t.
Proof. induction t as [|l IHl a n r IHr]; [done|]. simpl. by rewrite IHl, IHr. Qed.

Lemma skel_tmap_in f t :
  (∀ a n, a ∈ addrs t → colour (f a n) = colour n) → skel (tmap f t) = skel t.
Proof.
  induction t as [|l IHl b n r IHr]; intros Hf; [done|]. simpl.
  rewrite Hf by apply (in_here l _ n r).
  rewrite IHl, IHr; [done| |]; intros a m Ha; apply Hf.
  - by apply (in_right l b n r).
  - by apply (in_left l b n r).
Qed.

Lemma skel_tmap f t :
  (∀ a n, colour (f a n) = colour n) → skel (tmap f t) = skel t.
Proof. intros Hf. apply skel_tmap_in. intros a n _. apply Hf. Qed.

Lemma NoDup_CNode l a c r :
  NoDup (caddrs (CNode l a c r)) →
  NoDup (caddrs l) ∧ NoDup (caddrs r) ∧ (a ∉ caddrs l) ∧ (a ∉ caddrs r) ∧
  (∀ x, x ∈ caddrs l → x ∉ caddrs r).
Proof.
  simpl. intros (Hl & Hlr & Hr)%NoDup_app.
  apply NoDup_cons in Hr as (Har & Hr).
  repeat split; try done.
  - intros ?. eapply Hlr; [done|]. by apply elem_of_cons; left.
  - intros x ? ?. eapply Hlr; [done|]. by apply elem_of_cons; right.
Qed.

Lemma cat_notin g F u : g ∉ caddrs u → cat g F u = u.
Proof.
  induction u as [|l IHl a c r IHr]; intros Hg; [done|]. simpl in *.
  rewrite decide_False by (intros ->; apply Hg; set_solver).
  rewrite IHl, IHr; [done| |]; set_solver.
Qed.

Lemma skel_recolour a c t :
  NoDup (addrs t) →
  skel (tmap (recolour a c) t) = cat a (paint_top c) (skel t).
Proof.
  induction t as [|l IHl b n r IHr]; intros Hnd; [done|].
  apply NoDup_Tr in Hnd as (Hndl & Hndr & Hbl & Hbr & _).
  simpl. unfold recolour at 2. destruct (decide (b = a)) as [->|Hne].
  - simpl. f_equal.
    + rewrite skel_tmap_in; [done|]. intros x m Hx. unfold recolour.
      case_decide; [|done]. by subst.
    + rewrite skel_tmap_in; [done|]. intros x m Hx. unfold recolour.
      case_decide; [|done]. by subst.
  - by rewrite IHl, IHr.
Qed.

Lemma skel_rot_left_at x t : skel (rot_left_at x t) = cat x rotl_top (skel t).
Proof.
  induction t as [|l IHl b n r IHr]; [done|]. simpl.
  case_decide.
  - by destruct r.
  - simpl. by rewrite IHl, IHr.
Qed.

Lemma skel_mirror_tree t : skel (mirror_tree t) = cmirror (skel t).
Proof. induction t; simpl; congruence. Qed.

Lemma cmirror_involutive u : cmirror (cmirror u) = u.
Proof. induction u; simpl; congruence. Qed.

Lemma cmirror_cat_rotl x u :
  cmirror (cat x rotl_top (cmirror u)) = cat x rotr_top u.
Proof.
  induction u as [|l IHl a c r IHr]; [done|]. simpl.
  case_decide.
  - destruct l as [|ll y cy lr]; simpl; by rewrite ?cmirror_involutive.
  - simpl. by rewrite IHl, IHr.
Qed.

(** ** Surgery on the subtree below a node *)

Lemma csub_in g u : g ∈ caddrs u → ctop (csub g u) = Some g.
Proof.
  induction u as [|l IHl a c r IHr]; intros Hg; [by apply elem_of_nil in Hg|].
  simpl. case_decide; [by subst|]. case_decide; [by apply IHl|].
  apply IHr. simpl in Hg. set_solver.
Qed.

Lemma csub_notin g u : g ∉ caddrs u → csub g u = CLeaf.
Proof.
  induction u as [|l IHl a c r IHr]; intros Hg; [done|]. simpl in *.
  rewrite decide_False by (intros ->; apply Hg; set_solver).
  rewrite decide_False by set_solver. apply IHr. set_solver.
Qed.

Lemma caddrs_csub g u x : x ∈ caddrs (csub g u) → x ∈ caddrs u.
Proof.
  induction u as [|l IHl a c r IHr]; [done|]. simpl.
  case_decide; [done|]. case_decide; intros Hx; set_solver.
Qed.

Lemma csub_top g u : ctop u = Some g → csub g u = u.
Proof. destruct u as [|l a c r]; [done|]. intros [= ->]. simpl. by rewrite decide_True. Qed.

Section surgery.
Variables (g : addr) (F : ctree → ctree).




(** The addresses stay, if they stay below [g]. *)
Lemma caddrs_cat u :
  caddrs (F (csub g u)) ≡ₚ caddrs (csub g u) →
  NoDup (caddrs u) →
  caddrs (cat g F u) ≡ₚ caddrs u.
Proof.
  induction u as [|l IHl a c r IHr]; intros HF Hnd; [done|].
  apply NoDup_CNode in Hnd as (Hndl & Hndr & Hal & Har & Hdisj).
  simpl in *. destruct (decide (a = g)) as [->|Hne]; [done|]. simpl.
  destruct (decide (g ∈ caddrs l)) as [Hgl|Hgl].
  - rewrite (IHl HF Hndl), (cat_notin g F r); [done|]. by apply Hdisj.
  - rewrite (cat_notin g F l) by done.
    destruct (decide (g ∈ caddrs r)) as [Hgr|Hgr].
    + by rewrite (IHr HF Hndr).
    + by rewrite (cat_notin g F r).
Qed.

(** I3 is kept, if it is kept below [g]. *)
Lemma cbh_cat u :
  cbh (F (csub g u)) = cbh (csub g u) →
  NoDup (caddrs u) →
  cbh (cat g F u) = cbh u.
Proof.
  induction u as [|l IHl a c r IHr]; intros HF Hnd; [done|].
  apply NoDup_CNode in Hnd as (Hndl & Hndr & Hal & Har & Hdisj).
  simpl in *. destruct (decide (a = g)) as [->|Hne]; [done|]. simpl.
  destruct (decide (g ∈ caddrs l)) as [Hgl|Hgl].
  - rewrite (IHl HF Hndl), (cat_notin g F r); [done|]. by apply Hdisj.
  - rewrite (cat_notin g F l) by done.
    destruct (decide (g ∈ caddrs r)) as [Hgr|Hgr].
    + by rewrite (IHr HF Hndr).
    + by rewrite (cat_notin g F r).
Qed.

Lemma ctop_cat u :
  ctop (cat g F u) = if decide (ctop u = Some g) then ctop (F u) else ctop u.
Proof.
  destruct u as [|l a c r]; simpl; [repeat case_decide; done|].
  destruct (decide (a = g)) as [->|Hne].
  - by rewrite decide_True.
  - rewrite decide_False by congruence. done.
Qed.

Lemma ctopc_cat u :
  ctopc (cat g F u) = if decide (ctop u = Some g) then ctopc (F u) else ctopc u.
Proof.
  destruct u as [|l a c r]; simpl; [repeat case_decide; done|].
  destruct (decide (a = g)) as [->|Hne].
  - by rewrite decide_True.
  - rewrite decide_False by congruence. done.
Qed.


End surgery.

Lemma cat_id g u : cat g (λ v, v) u = u.
Proof.
  induction u as [|l IHl a c r IHr]; [done|]. simpl.
  case_decide; [done|]. by rewrite IHl, IHr.
Qed.

(** What is done below [g] after something that keeps [g] on top. *)
Lemma cat_cat g H x K u G :
  NoDup (caddrs u) → g ∈ caddrs u → csub g u = G →
  ctop (H G) = Some g →
  x ∈ caddrs G →
  cat x K (cat g H u) = cat g (λ v, cat x K (H v)) u.
Proof.
  revert G.
  induction u as [|l IHl a c r IHr]; intros G Hnd Hg HG Htop Hx;
    [by apply elem_of_nil in Hg|].
  apply NoDup_CNode in Hnd as (Hndl & Hndr & Hal & Har & Hdisj).
  simpl in *. destruct (decide (a = g)) as [->|Hne]; [done|].
  assert (x ∈ caddrs (if decide (g ∈ caddrs l) then l else r)) as Hx'.
  { subst G. case_decide; by eapply caddrs_csub. }
  simpl. rewrite decide_False.
  2:{ intros ->. case_decide; done. }
  destruct (decide (g ∈ caddrs l)) as [Hgl|Hgl].
  - rewrite (IHl G); try done.
    assert (g ∉ caddrs r) by (by apply Hdisj).
    assert (x ∉ caddrs r) by (by apply Hdisj).
    by rewrite !(cat_notin g _ r), (cat_notin x _ r).
  - assert (g ∈ caddrs r) by set_solver.
    rewrite (IHr G); try done.
    assert (x ∉ caddrs l) by (intros ?; by apply (Hdisj x)).
    by rewrite !(cat_notin g _ l), (cat_notin x _ l).
Qed.

Lemma cat_ext g F F' u G :
  NoDup (caddrs u) → csub g u = G → F G = F' G → cat g F u = cat g F' u.
Proof.
  revert G.
  induction u as [|l IHl a c r IHr]; intros G Hnd HG HF; [done|].
  apply NoDup_CNode in Hnd as (Hndl & Hndr & Hal & Har & Hdisj).
  simpl in *. destruct (decide (a = g)) as [->|Hne]; [by subst|].
  destruct (decide (g ∈ caddrs l)) as [Hgl|Hgl].
  - rewrite (IHl G); try done.
    assert (g ∉ caddrs r) by (by apply Hdisj).
    by rewrite !(cat_notin g _ r).
  - rewrite (IHr G); try done. by rewrite !(cat_notin g _ l).
Qed.

(** ** I2 under surgery *)

Lemma child_ok_weaken zo u : child_ok None u = true → child_ok zo u = true.
Proof.
  unfold child_ok. rewrite orb_false_r. by intros ->.
Qed.

Lemma child_ok_other z zo u :
  ctop u ≠ Some z → child_ok (Some z) u = true → child_ok zo u = true.
Proof.
  unfold child_ok. intros Hz H. destruct (bool_decide (ctopc u = black)); [done|].
  simpl in H. destruct (ctop u) as [a|]; [|done].
  apply bool_decide_eq_true_1 in H. congruence.
Qed.

Lemma ctop_in u a : ctop u = Some a → a ∈ caddrs u.
Proof. destruct u; [done|]. intros [= ->]. simpl. set_solver. Qed.

Lemma cnrr_notin z zo u :
  z ∉ caddrs u → cnrr (Some z) u = true → cnrr zo u = true.
Proof.
  induction u as [|l IHl a c r IHr]; intros Hz H; [done|]. simpl in *.
  apply andb_prop in H as [H Hr]. apply andb_prop in H as [H Hl].
  rewrite IHl, IHr, !andb_true_r; [|set_solver..|done|set_solver|done].
  destruct (bool_decide (c = black)); [done|]. simpl in *.
  apply andb_prop in H as [H1 H2].
  rewrite (child_ok_other z zo l), (child_ok_other z zo r); try done.
  - intros Ht. apply Hz. apply ctop_in in Ht. set_solver.
  - intros Ht. apply Hz. apply ctop_in in Ht. set_solver.
Qed.

(** The exemption is of no use to the node on top. *)
Lemma cnrr_top z zo u :
  NoDup (caddrs u) → ctop u = Some z →
  cnrr (Some z) u = true → cnrr zo u = true.
Proof.
  destruct u as [|l a c r]; [done|]. intros Hnd [= ->] H.
  apply NoDup_CNode in Hnd as (_ & _ & Hal & Har & _).
  simpl in *.
  apply andb_prop in H as [H Hr]. apply andb_prop in H as [H Hl].
  rewrite (cnrr_notin z zo l), (cnrr_notin z zo r), !andb_true_r by done.
  destruct (bool_decide (c = black)); [done|]. simpl in *.
  apply andb_prop in H as [H1 H2].
  rewrite (child_ok_other z zo l), (child_ok_other z zo r); try done.
  - intros Ht. by apply ctop_in in Ht.
  - intros Ht. by apply ctop_in in Ht.
Qed.

Lemma csub_proper g u x :
  NoDup (caddrs u) → ctop u = Some x → x ≠ g → x ∉ caddrs (csub g u).
Proof.
  destruct u as [|l a c r]; [by intros _ ?|]. intros Hnd [= ->] Hne.
  apply NoDup_CNode in Hnd as (_ & _ & Hal & Har & _).
  simpl. rewrite decide_False by done.
  case_decide; intros Hx; apply caddrs_csub in Hx; done.
Qed.

(** I2 with the exemption [zo'] holds after the surgery below [g], if
    it held before with an exemption for a node [z] strictly below [g],
    holds for what is put in, and the top of what is put in is a child
    that a red node may have. *)
Lemma cnrr_cat g F z zo' u :
  NoDup (caddrs u) → g ∈ caddrs u →
  z ∈ caddrs (csub g u) → z ≠ g →
  cnrr (Some z) u = true →
  cnrr zo' (F (csub g u)) = true →
  child_ok zo' (F (csub g u)) = true →
  cnrr zo' (cat g F u) = true.
Proof.
  induction u as [|l IHl a c r IHr]; intros Hnd Hg Hz Hzg H HF Hint;
    [by apply elem_of_nil in Hg|].
  pose proof Hnd as (Hndl & Hndr & Hal & Har & Hdisj)%NoDup_CNode.
  simpl in *. destruct (decide (a = g)) as [->|Hne]; [done|].
  apply andb_prop in H as [H Hr]. apply andb_prop in H as [H Hl].
  simpl.
  destruct (decide (g ∈ caddrs l)) as [Hgl|Hgl].
  - assert (g ∉ caddrs r) as Hgr by (by apply Hdisj).
    assert (z ∈ caddrs l) as Hzl by (by eapply caddrs_csub).
    assert (z ∉ caddrs r) as Hzr by (by apply Hdisj).
    rewrite (cat_notin g F r) by done.
    rewrite (IHl Hndl Hgl Hz Hzg Hl HF Hint), (cnrr_notin z zo' r Hzr Hr).
    rewrite !andb_true_r.
    destruct (bool_decide (c = black)); [done|]. simpl in *.
    apply andb_prop in H as [H1 H2].
    rewrite (child_ok_other z zo' r); [|intros Ht; by apply ctop_in in Ht|done].
    rewrite andb_true_r.
    destruct (decide (ctop l = Some g)) as [Htop|Htop].
    + destruct l as [|ll b cb lr]; [done|]. injection Htop as ->.
      simpl. rewrite decide_True by done.
      simpl in Hint. by rewrite decide_True in Hint.
    + assert (ctop l ≠ Some z) as Hlz.
      { intros Ht. by apply (csub_proper g l z Hndl Ht). }
      unfold child_ok. rewrite ctop_cat, ctopc_cat, !decide_False by done.
      by apply (child_ok_other z zo' l).
  - assert (g ∈ caddrs r) as Hgr by set_solver.
    assert (z ∈ caddrs r) as Hzr by (by eapply caddrs_csub).
    assert (z ∉ caddrs l) as Hzl by (intros ?; by apply (Hdisj z)).
    rewrite (cat_notin g F l) by done.
    rewrite (IHr Hndr Hgr Hz Hzg Hr HF Hint), (cnrr_notin z zo' l Hzl Hl).
    rewrite !andb_true_r.
    destruct (bool_decide (c = black)); [done|]. simpl in *.
    apply andb_prop in H as [H1 H2].
    rewrite (child_ok_other z zo' l); [|intros Ht; by apply ctop_in in Ht|done].
    simpl.
    destruct (decide (ctop r = Some g)) as [Htop|Htop].
    + destruct r as [|rl b cb rr]; [done|]. injection Htop as ->.
      simpl. rewrite decide_True by done.
      simpl in Hint. by rewrite decide_True in Hint.
    + assert (ctop r ≠ Some z) as Hrz.
      { intros Ht. by apply (csub_proper g r z Hndr Ht). }
      unfold child_ok. rewrite ctop_cat, ctopc_cat, !decide_False by done.
      by apply (child_ok_other z zo' r).
Qed.

(** What I2 with an exemption says below [g]. *)
Lemma cnrr_csub g z u :
  cnrr z u = true → cnrr z (csub g u) = true.
Proof.
  induction u as [|l IHl a c r IHr]; intros H; [done|]. simpl.
  case_decide; [done|]. simpl in H.
  apply andb_prop in H as [H Hr]. apply andb_prop in H as [H Hl].
  destruct (decide (g ∈ caddrs l)); [by apply IHl|by apply IHr].
Qed.

(** I3 holds below [g] when it holds for the tree. *)
Lemma cbh_csub g u : is_Some (cbh u) → is_Some (cbh (csub g u)).
Proof.
  induction u as [|l IHl a c r IHr]; intros H; [done|]. simpl.
  case_decide; [done|]. simpl in H.
  destruct (cbh l) as [x|]; [|by destruct H].
  destruct (cbh r) as [y|]; [|by destruct H].
  destruct (decide (g ∈ caddrs l)); [by apply IHl|by apply IHr].
Qed.

Lemma NoDup_csub g u : NoDup (caddrs u) → NoDup (caddrs (csub g u)).
Proof.
  induction u as [|l IHl a c r IHr]; intros Hnd; [done|]. simpl.
  destruct (decide (a = g)); [done|].
  apply NoDup_CNode in Hnd as (Hndl & Hndr & _).
  destruct (decide (g ∈ caddrs l)); [by apply IHl|by apply IHr].
Qed.

Lemma cat_node_top a F l c r : cat a F (CNode l a c r) = F (CNode l a c r).
Proof. simpl. by rewrite decide_True. Qed.

Lemma cat_node_left x F l a c r :
  x ≠ a → x ∉ caddrs r → cat x F (CNode l a c r) = CNode (cat x F l) a c r.
Proof. intros ? ?. simpl. rewrite decide_False by done. by rewrite (cat_notin x F r). Qed.

Lemma cat_node_right x F l a c r :
  x ≠ a → x ∉ caddrs l → cat x F (CNode l a c r) = CNode l a c (cat x F r).
Proof. intros ? ?. simpl. rewrite decide_False by done. by rewrite (cat_notin x F l). Qed.

Lemma cin_here l a c r : a ∈ caddrs (CNode l a c r).
Proof. simpl. apply elem_of_app. right. by apply elem_of_cons; left. Qed.

Lemma cin_left l a c r x : x ∈ caddrs l → x ∈ caddrs (CNode l a c r).
Proof. intros ?. simpl. apply elem_of_app. by left. Qed.

Lemma cin_right l a c r x : x ∈ caddrs r → x ∈ caddrs (CNode l a c r).
Proof. intros ?. simpl. apply elem_of_app. right. by apply elem_of_cons; right. Qed.

Lemma cin_inv l a c r x :
  x ∈ caddrs (CNode l a c r) → x ∈ caddrs l ∨ x = a ∨ x ∈ caddrs r.
Proof.
  simpl. intros [?|[?|?]%elem_of_cons]%elem_of_app; auto.
Qed.

Lemma cnrr_change z zo u :
  NoDup (caddrs u) → z ∉ caddrs u ∨ ctop u = Some z →
  cnrr (Some z) u = true → cnrr zo u = true.
Proof.
  intros Hnd [Hz|Hz] Hc; [by eapply cnrr_notin|by eapply cnrr_top].
Qed.

(** Three operations below [g], of which the first two keep [g] on
    top. *)
Lemma cat3 g x1 K1 x2 K2 x3 K3 u G :
  NoDup (caddrs u) → g ∈ caddrs u → csub g u = G →
  x1 ∈ caddrs G →
  ctop (cat x1 K1 G) = Some g → x2 ∈ caddrs G →
  ctop (cat x2 K2 (cat x1 K1 G)) = Some g → x3 ∈ caddrs G →
  cat x3 K3 (cat x2 K2 (cat x1 K1 u))
  = cat g (λ v, cat x3 K3 (cat x2 K2 (cat x1 K1 v))) u.
Proof.
  intros Hnd Hg HG H1 Ht1 H2 Ht2 H3.
  assert (ctop G = Some g) as Ht0 by (subst G; by apply csub_in).
  rewrite <- (cat_id g u) at 1.
  rewrite (cat_cat g (λ v, v) x1 K1 u G); try done.
  rewrite (cat_cat g (λ v, cat x1 K1 v) x2 K2 u G); try done.
  rewrite (cat_cat g (λ v, cat x2 K2 (cat x1 K1 v)) x3 K3 u G); done.
Qed.

(** *** The uncle is red: three nodes change colour *)

Lemma recolouring_keeps_rb T g cg u UL UR P PL PR z :
  NoDup (caddrs T) → g ∈ caddrs T →
  csub g T = CNode (CNode UL u red UR) g cg (CNode PL P red PR) →
  ctop PL = Some z ∨ ctop PR = Some z →
  cnrr (Some z) T = true → is_Some (cbh T) →
  cbh (cat g (paint_top red)
         (cat P (paint_top black) (cat u (paint_top black) T))) = cbh T ∧
  cnrr (Some g) (cat g (paint_top red)
                   (cat P (paint_top black) (cat u (paint_top black) T))) = true.
Proof.
  intros Hnd Hg HG Hz Hnrr Hbh.
  pose proof (NoDup_csub g T Hnd) as HndG. rewrite HG in HndG.
  pose proof (cnrr_csub g _ T Hnrr) as HnrrG. rewrite HG in HnrrG.
  pose proof (cbh_csub g T Hbh) as HbhG. rewrite HG in HbhG.
  pose proof HndG as (HndU & HndP & HgU & HgP & HUP)%NoDup_CNode.
  pose proof HndU as (HndUL & HndUR & HuUL & HuUR & HULR)%NoDup_CNode.
  pose proof HndP as (HndPL & HndPR & HPPL & HPPR & HPLR)%NoDup_CNode.
  set (U := CNode UL u red UR) in *. set (PT := CNode PL P red PR) in *.
  assert (u ∈ caddrs U) as HuU by apply cin_here.
  assert (P ∈ caddrs PT) as HPP by apply cin_here.
  assert (u ≠ g) as Hug by (intros ->; done).
  assert (P ≠ g) as HPg by (intros ->; done).
  assert (u ∉ caddrs PT) as HuPT by (by apply HUP).
  assert (P ∉ caddrs U) as HPU by (intros ?; by apply (HUP P)).
  assert (z ∈ caddrs PL ∨ z ∈ caddrs PR) as Hzin
    by (destruct Hz as [?%ctop_in|?%ctop_in]; [by left|by right]).
  assert (z ∈ caddrs PT) as HzPT
    by (destruct Hzin; [by apply cin_left|by apply cin_right]).
  assert (z ≠ g) as Hzg by (intros ->; done).
  assert (z ≠ P) as HzP by (intros ->; destruct Hzin; done).
  assert (z ∉ caddrs U) as HzU by (intros ?; by apply (HUP z)).
  assert (z ∉ caddrs UL) as HzUL by (intros ?; by apply HzU, cin_left).
  assert (z ∉ caddrs UR) as HzUR by (intros ?; by apply HzU, cin_right).
  assert (z ≠ u) as Hzu by (intros ->; done).
  assert (cat g (paint_top red)
            (cat P (paint_top black) (cat u (paint_top black) T))
          = cat g (λ _, CNode (CNode UL u black UR) g red (CNode PL P black PR)) T)
    as ->.
  { assert (P ∉ caddrs (CNode UL u black UR)) as HPU'.
    { intros [?|[->|?]]%cin_inv; [by apply HPU, cin_left|done|
                                   by apply HPU, cin_right]. }
    rewrite (cat3 g u _ P _ g _ T _ Hnd Hg HG).
    - apply (cat_ext g _ _ T _ Hnd HG).
      rewrite (cat_node_left u) by done.
      unfold U. rewrite (cat_node_top u). simpl paint_top.
      rewrite (cat_node_right P) by done.
      unfold PT. rewrite (cat_node_top P). simpl paint_top.
      by rewrite (cat_node_top g).
    - by apply cin_left.
    - by rewrite (cat_node_left u) by done.
    - by apply cin_right.
    - rewrite (cat_node_left u) by done.
      unfold U. rewrite (cat_node_top u). simpl paint_top.
      by rewrite (cat_node_right P) by done.
    - apply cin_here. }
  (* [g] is black, since its child [P] is red and is not [z] *)
  unfold U, PT in HnrrG, HbhG. simpl in HnrrG.
  apply andb_prop in HnrrG as [HnrrG HnP]. apply andb_prop in HnrrG as [Hcg HnU].
  apply andb_prop in HnU as [HnU HnUR]. apply andb_prop in HnU as [_ HnUL].
  apply andb_prop in HnP as [HnP HnPR]. apply andb_prop in HnP as [_ HnPL].
  assert (cg = black) as ->.
  { destruct cg; [done|]. simpl in Hcg. unfold child_ok in Hcg. simpl in Hcg.
    rewrite (bool_decide_eq_false_2 (u = z)) in Hcg by done. done. }
  split.
  - apply cbh_cat; [|done]. rewrite HG. simpl in *.
    destruct (cbh UL) as [a1|], (cbh UR) as [a2|]; try by destruct HbhG.
    all: destruct (cbh PL) as [a3|], (cbh PR) as [a4|]; try by destruct HbhG.
    all: repeat case_bool_decide; simplify_eq; try done; try by destruct HbhG.
  - apply (cnrr_cat g _ z); try done.
    + by rewrite HG; apply cin_right.
    + simpl.
      rewrite (cnrr_notin z _ UL), (cnrr_notin z _ UR) by done.
      rewrite (cnrr_change z _ PL), (cnrr_change z _ PR); try done.
      * destruct Hz as [Hz|Hz]; [|by right]. left. intros Hin.
        apply ctop_in in Hz. by apply (HPLR z).
      * destruct Hz as [Hz|Hz]; [by right|]. left. intros Hin.
        apply ctop_in in Hz. by apply (HPLR z).
    + unfold child_ok. simpl. by rewrite bool_decide_eq_true_2.
Qed.

Lemma cat4 g x1 K1 x2 K2 x3 K3 x4 K4 u G :
  NoDup (caddrs u) → g ∈ caddrs u → csub g u = G →
  x1 ∈ caddrs G →
  ctop (cat x1 K1 G) = Some g → x2 ∈ caddrs G →
  ctop (cat x2 K2 (cat x1 K1 G)) = Some g → x3 ∈ caddrs G →
  ctop (cat x3 K3 (cat x2 K2 (cat x1 K1 G))) = Some g → x4 ∈ caddrs G →
  cat x4 K4 (cat x3 K3 (cat x2 K2 (cat x1 K1 u)))
  = cat g (λ v, cat x4 K4 (cat x3 K3 (cat x2 K2 (cat x1 K1 v)))) u.
Proof.
  intros Hnd Hg HG H1 Ht1 H2 Ht2 H3 Ht3 H4.
  rewrite (cat3 g x1 K1 x2 K2 x3 K3 u G) by done.
  by rewrite (cat_cat g (λ v, cat x3 K3 (cat x2 K2 (cat x1 K1 v))) x4 K4 u G).
Qed.

(** *** The uncle is black and the working node is an outer grandchild:
    one rotation *)

Lemma single_rotation_restores_rb T g cg U P PL z ZL ZR :
  NoDup (caddrs T) → g ∈ caddrs T →
  csub g T = CNode U g cg (CNode PL P red (CNode ZL z red ZR)) →
  ctopc U = black →
  cnrr (Some z) T = true → is_Some (cbh T) →
  cbh (cat g rotl_top
         (cat g (paint_top red) (cat P (paint_top black) T))) = cbh T ∧
  cnrr None (cat g rotl_top
               (cat g (paint_top red) (cat P (paint_top black) T))) = true ∧
  (ctopc T = black →
   ctopc (cat g rotl_top
            (cat g (paint_top red) (cat P (paint_top black) T))) = black).
Proof.
  intros Hnd Hg HG HU Hnrr Hbh.
  pose proof (NoDup_csub g T Hnd) as HndG. rewrite HG in HndG.
  pose proof (cnrr_csub g _ T Hnrr) as HnrrG. rewrite HG in HnrrG.
  pose proof (cbh_csub g T Hbh) as HbhG. rewrite HG in HbhG.
  pose proof HndG as (HndU & HndP & HgU & HgP & HUP)%NoDup_CNode.
  pose proof HndP as (HndPL & HndZ & HPPL & HPZ & HPLZ)%NoDup_CNode.
  pose proof HndZ as (HndZL & HndZR & HzZL & HzZR & HZLR)%NoDup_CNode.
  set (Z := CNode ZL z red ZR) in *. set (PT := CNode PL P red Z) in *.
  assert (z ∈ caddrs Z) as HzZ by apply cin_here.
  assert (P ∈ caddrs PT) as HPP by apply cin_here.
  assert (z ∈ caddrs PT) as HzPT by (by apply cin_right).
  assert (P ≠ g) as HPg by (intros ->; done).
  assert (z ≠ g) as Hzg by (intros ->; done).
  assert (z ≠ P) as HzP by (intros ->; done).
  assert (P ∉ caddrs U) as HPU by (intros ?; by apply (HUP P)).
  assert (z ∉ caddrs U) as HzU by (intros ?; by apply (HUP z)).
  assert (z ∉ caddrs PL) as HzPL by (intros ?; by apply (HPLZ z)).
  assert (ctop U ≠ Some z) as HtU by (intros ?%ctop_in; done).
  assert (ctop PL ≠ Some z) as HtPL by (intros ?%ctop_in; done).
  assert (cat g rotl_top (cat g (paint_top red) (cat P (paint_top black) T))
          = cat g (λ _, CNode (CNode U g red PL) P black Z) T) as ->.
  { rewrite (cat3 g P _ g _ g _ T _ Hnd Hg HG).
    - apply (cat_ext g _ _ T _ Hnd HG).
      rewrite (cat_node_right P) by done.
      unfold PT. rewrite (cat_node_top P). simpl paint_top.
      rewrite (cat_node_top g). simpl paint_top.
      by rewrite (cat_node_top g).
    - by apply cin_right.
    - by rewrite (cat_node_right P) by done.
    - apply cin_here.
    - rewrite (cat_node_right P) by done.
      by rewrite (cat_node_top g).
    - apply cin_here. }
  unfold Z, PT in HnrrG, HbhG. simpl in HnrrG.
  apply andb_prop in HnrrG as [HnrrG HnP]. apply andb_prop in HnrrG as [Hcg HnU].
  apply andb_prop in HnP as [HnP HnZ]. apply andb_prop in HnP as [HcP HnPL].
  apply andb_prop in HcP as [HcPL _].
  assert (cg = black) as ->.
  { destruct cg; [done|]. simpl in Hcg. unfold child_ok in Hcg. simpl in Hcg.
    rewrite (bool_decide_eq_false_2 (P = z)) in Hcg by done.
    by rewrite andb_false_r in Hcg. }
  assert (ctopc PL = black) as HPLb.
  { unfold child_ok in HcPL. destruct (ctopc PL); [done|]. simpl in HcPL.
    destruct (ctop PL) as [a|]; [|done].
    apply bool_decide_eq_true_1 in HcPL. congruence. }
  split; [|split].
  - apply cbh_cat; [|done]. rewrite HG. unfold Z. simpl in *.
    destruct (cbh U) as [a1|]; try by destruct HbhG.
    destruct (cbh PL) as [a2|]; try by destruct HbhG.
    destruct (cbh ZL) as [a3|], (cbh ZR) as [a4|]; try by destruct HbhG.
    all: repeat case_bool_decide; simplify_eq; try done; try by destruct HbhG.
  - apply (cnrr_cat g _ z);
      [done|done|by rewrite HG; apply cin_right|done|done| |done].
    unfold Z. simpl. unfold child_ok. rewrite HU, HPLb. simpl.
    rewrite (cnrr_notin z _ U), (cnrr_notin z _ PL) by done. simpl.
    by apply (cnrr_top z None (CNode ZL z red ZR)).
  - intros Hb. rewrite ctopc_cat. by destruct (decide (ctop T = Some g)).
Qed.

(** *** The uncle is black and the working node is an inner grandchild:
    two rotations *)

Lemma double_rotation_restores_rb T g cg U P PR z ZL ZR :
  NoDup (caddrs T) → g ∈ caddrs T →
  csub g T = CNode U g cg (CNode (CNode ZL z red ZR) P red PR) →
  ctopc U = black →
  cnrr (Some z) T = true → is_Some (cbh T) →
  cbh (cat g rotl_top
         (cat g (paint_top red)
            (cat z (paint_top black) (cat P rotr_top T)))) = cbh T ∧
  cnrr None (cat g rotl_top
               (cat g (paint_top red)
                  (cat z (paint_top black) (cat P rotr_top T)))) = true ∧
  (ctopc T = black →
   ctopc (cat g rotl_top
            (cat g (paint_top red)
               (cat z (paint_top black) (cat P rotr_top T)))) = black).
Proof.
  intros Hnd Hg HG HU Hnrr Hbh.
  pose proof (NoDup_csub g T Hnd) as HndG. rewrite HG in HndG.
  pose proof (cnrr_csub g _ T Hnrr) as HnrrG. rewrite HG in HnrrG.
  pose proof (cbh_csub g T Hbh) as HbhG. rewrite HG in HbhG.
  pose proof HndG as (HndU & HndP & HgU & HgP & HUP)%NoDup_CNode.
  pose proof HndP as (HndZ & HndPR & HPZ & HPPR & HZPR)%NoDup_CNode.
  pose proof HndZ as (HndZL & HndZR & HzZL & HzZR & HZLR)%NoDup_CNode.
  set (Z := CNode ZL z red ZR) in *. set (PT := CNode Z P red PR) in *.
  assert (z ∈ caddrs Z) as HzZ by apply cin_here.
  assert (P ∈ caddrs PT) as HPP by apply cin_here.
  assert (z ∈ caddrs PT) as HzPT by (by apply cin_left).
  assert (P ≠ g) as HPg by (intros ->; done).
  assert (z ≠ g) as Hzg by (intros ->; done).
  assert (z ≠ P) as HzP by (intros ->; done).
  assert (P ∉ caddrs U) as HPU by (intros ?; by apply (HUP P)).
  assert (z ∉ caddrs U) as HzU by (intros ?; by apply (HUP z)).
  assert (z ∉ caddrs PR) as HzPR by (by apply HZPR).
  assert (ctop PR ≠ Some z) as HtPR by (intros ?%ctop_in; done).
  assert (ctop ZL ≠ Some z) as HtZL by (intros ?%ctop_in; done).
  assert (ctop ZR ≠ Some z) as HtZR by (intros ?%ctop_in; done).
  assert (cat P rotr_top (CNode U g cg PT)
          = CNode U g cg (CNode ZL z red (CNode ZR P red PR))) as Hrot.
  { rewrite (cat_node_right P) by done. unfold PT. by rewrite (cat_node_top P). }
  assert (cat g rotl_top
            (cat g (paint_top red)
               (cat z (paint_top black) (cat P rotr_top T)))
          = cat g (λ _, CNode (CNode U g red ZL) z black (CNode ZR P red PR)) T)
    as ->.
  { rewrite (cat4 g P _ z _ g _ g _ T _ Hnd Hg HG).
    - apply (cat_ext g _ _ T _ Hnd HG).
      rewrite Hrot.
      rewrite (cat_node_right z) by done.
      rewrite (cat_node_top z). simpl paint_top.
      rewrite (cat_node_top g). simpl paint_top.
      by rewrite (cat_node_top g).
    - by apply cin_right.
    - by rewrite Hrot.
    - by apply cin_right.
    - rewrite Hrot. by rewrite (cat_node_right z) by done.
    - apply cin_here.
    - rewrite Hrot. rewrite (cat_node_right z) by done.
      by rewrite (cat_node_top g).
    - apply cin_here. }
  unfold Z, PT in HnrrG, HbhG. simpl in HnrrG.
  apply andb_prop in HnrrG as [HnrrG HnP]. apply andb_prop in HnrrG as [Hcg HnU].
  apply andb_prop in HnP as [HnP HnPR]. apply andb_prop in HnP as [HcP HnZ].
  apply andb_prop in HcP as [_ HcPR].
  apply andb_prop in HnZ as [HnZ HnZR]. apply andb_prop in HnZ as [HcZ HnZL].
  apply andb_prop in HcZ as [HcZL HcZR].
  assert (cg = black) as ->.
  { destruct cg; [done|]. simpl in Hcg. unfold child_ok in Hcg. simpl in Hcg.
    rewrite (bool_decide_eq_false_2 (P = z)) in Hcg by done.
    by rewrite andb_false_r in Hcg. }
  assert (∀ X, ctop X ≠ Some z → child_ok (Some z) X = true → ctopc X = black)
    as Hblack.
  { intros X HX Hc. unfold child_ok in Hc. destruct (ctopc X); [done|].
    simpl in Hc. destruct (ctop X) as [a|]; [|done].
    apply bool_decide_eq_true_1 in Hc. congruence. }
  pose proof (Hblack PR HtPR HcPR) as HPRb.
  pose proof (Hblack ZL HtZL HcZL) as HZLb.
  pose proof (Hblack ZR HtZR HcZR) as HZRb.
  split; [|split].
  - apply cbh_cat; [|done]. rewrite HG. unfold PT, Z. simpl in *.
    destruct (cbh U) as [a1|]; try by destruct HbhG.
    destruct (cbh PR) as [a2|]; try by destruct HbhG.
    all: destruct (cbh ZL) as [a3|], (cbh ZR) as [a4|]; try by destruct HbhG.
    all: repeat case_bool_decide; simplify_eq; try done; try by destruct HbhG.
  - apply (cnrr_cat g _ z);
      [done|done|by rewrite HG; apply cin_right|done|done| |done].
    simpl. unfold child_ok. rewrite HU, HPRb, HZLb, HZRb. simpl.
    rewrite (cnrr_notin z _ U), (cnrr_notin z _ PR) by done.
    rewrite (cnrr_notin z _ ZL), (cnrr_notin z _ ZR) by done. done.
  - intros Hb. rewrite ctopc_cat. by destruct (decide (ctop T = Some g)).
Qed.

(** ** From the heap to the skeleton *)

Lemma rep_unique t1 :
  ∀ t2 h par p, rep h par p t1 → rep h par p t2 → t1 = t2.
Proof.
  induction t1 as [|l IHl a n r IHr]; intros t2 h par p H1 H2.
  - simpl in H1. subst p. by destruct t2; [|destruct H2].
  - destruct H1 as (-> & Hn & _ & Hl & Hr).
    destruct t2 as [|l2 a2 n2 r2]; [done|].
    destruct H2 as ([= <-] & Hn2 & _ & Hl2 & Hr2).
    assert (n2 = n) as -> by congruence.
    by rewrite (IHl _ _ _ _ Hl Hl2), (IHr _ _ _ _ Hr Hr2).
Qed.

Lemma is_tree_unique s t1 t2 : is_tree s t1 → is_tree s t2 → t1 = t2.
Proof. intros [H1 _] [H2 _]. by eapply rep_unique. Qed.

(** The skeleton after a rotation. *)
Lemma left_rotate_skel s t x nx y s' t' :
  is_tree s t → x ∈ addrs t →
  heap s !! x = Some nx → right_node nx = Some y →
  _left_rotate (Some x) s = Ok (tt, s') → is_tree s' t' →
  skel t' = cat x rotl_top (skel t).
Proof.
  intros Ht Hxt Hx Hxr Hrun Ht'.
  destruct (left_rotate_tree s t x nx y Ht Hxt Hx Hxr)
    as (s1 & ny & _ & Hrun1 & _ & _ & Ht1 & _).
  assert (s1 = s') as -> by congruence.
  rewrite (is_tree_unique _ _ _ Ht' Ht1).
  rewrite skel_tmap by (by intros a []).
  apply skel_rot_left_at.
Qed.

Lemma right_rotate_skel s t x nx y s' t' :
  is_tree s t → x ∈ addrs t →
  heap s !! x = Some nx → left_node nx = Some y →
  _right_rotate (Some x) s = Ok (tt, s') → is_tree s' t' →
  skel t' = cat x rotr_top (skel t).
Proof.
  intros Ht Hxt Hx Hxl Hrun Ht'.
  rewrite right_rotate_mirror in Hrun.
  destruct (_left_rotate (Some x) (mirror s)) as [[[] s1]|] eqn:Hrun1; [|done].
  injection Hrun as <-.
  apply is_tree_mirror in Ht'. rewrite mirror_involutive in Ht'.
  pose proof (left_rotate_skel (mirror s) (mirror_tree t) x (mirror_node nx) y
                s1 (mirror_tree t')) as Hsk.
  rewrite !skel_mirror_tree in Hsk.
  rewrite <- (cmirror_involutive (skel t')), Hsk; try done.
  - apply cmirror_cat_rotl.
  - by apply is_tree_mirror.
  - rewrite addrs_mirror_tree. by apply elem_of_reverse.
  - by rewrite lookup_mirror, Hx.
Qed.

(** The subtree below a node of the tree, read off its fields. *)
Lemma csub_skel t :
  ∀ h par p x nx,
    rep h par p t → NoDup (addrs t) → x ∈ addrs t → h !! x = Some nx →
    ∃ L R, csub x (skel t) = CNode L x (colour nx) R ∧
           ctop L = left_node nx ∧ ctop R = right_node nx ∧
           (∀ c, left_node nx = Some c → csub c (skel t) = L) ∧
           (∀ c, right_node nx = Some c → csub c (skel t) = R).
Proof.
  induction t as [|l IHl a n r IHr]; intros h par p x nx Hrep Hnd Hx Hnx.
  { by apply elem_of_nil in Hx. }
  destruct Hrep as (-> & Hn & _ & Hl & Hr).
  pose proof Hnd as (Hndl & Hndr & Hal & Har & Hdisj)%NoDup_Tr.
  simpl. destruct (decide (a = x)) as [->|Hne].
  - assert (nx = n) as -> by congruence.
    exists (skel l), (skel r). split; [done|].
    split; [by rewrite ctop_skel, <- (rep_top _ _ _ _ Hl)|].
    split; [by rewrite ctop_skel, <- (rep_top _ _ _ _ Hr)|].
    split; intros c Hc.
    + assert (top l = Some c) as Htop by (by rewrite <- (rep_top _ _ _ _ Hl)).
      assert (c ∈ addrs l) as Hcl by (by apply top_in).
      rewrite decide_False by (intros ->; done).
      rewrite decide_True by (by rewrite caddrs_skel).
      apply csub_top. by rewrite ctop_skel.
    + assert (top r = Some c) as Htop by (by rewrite <- (rep_top _ _ _ _ Hr)).
      assert (c ∈ addrs r) as Hcr by (by apply top_in).
      rewrite decide_False by (intros ->; done).
      rewrite decide_False
        by (rewrite caddrs_skel; intros ?; by apply (Hdisj c)).
      apply csub_top. by rewrite ctop_skel.
  - simpl in Hx.
    apply elem_of_app in Hx as [Hx|Hx];
      [|apply elem_of_cons in Hx as [?|Hx]; [done|]].
    + destruct (IHl h _ _ x nx Hl Hndl Hx Hnx) as (L & R & Hsub & HL & HR & HcL & HcR).
      exists L, R. rewrite decide_True by (by rewrite caddrs_skel).
      split; [done|]. split; [done|]. split; [done|].
      assert (∀ c, c ∈ caddrs (csub x (skel l)) →
                   csub c (CNode (skel l) a (colour n) (skel r))
                   = csub c (skel l)) as Hin.
      { intros c Hc. apply caddrs_csub in Hc. simpl.
        rewrite decide_False by (intros ->; by rewrite caddrs_skel in Hc).
        by rewrite decide_True. }
      split; intros c Hc.
      * rewrite <- (HcL c Hc). apply Hin. rewrite Hsub. apply cin_left.
        apply ctop_in. by rewrite HL.
      * rewrite <- (HcR c Hc). apply Hin. rewrite Hsub. apply cin_right.
        apply ctop_in. by rewrite HR.
    + destruct (IHr h _ _ x nx Hr Hndr Hx Hnx) as (L & R & Hsub & HL & HR & HcL & HcR).
      exists L, R.
      rewrite decide_False
        by (rewrite caddrs_skel; intros ?; by apply (Hdisj x)).
      split; [done|]. split; [done|]. split; [done|].
      assert (∀ c, c ∈ caddrs (csub x (skel r)) →
                   csub c (CNode (skel l) a (colour n) (skel r))
                   = csub c (skel r)) as Hin.
      { intros c Hc. apply caddrs_csub in Hc. simpl.
        rewrite decide_False by (intros ->; by rewrite caddrs_skel in Hc).
        rewrite decide_False; [done|].
        rewrite caddrs_skel in *. intros ?. by apply (Hdisj c). }
      split; intros c Hc.
      * rewrite <- (HcL c Hc). apply Hin. rewrite Hsub. apply cin_left.
        apply ctop_in. by rewrite HL.
      * rewrite <- (HcR c Hc). apply Hin. rewrite Hsub. apply cin_right.
        apply ctop_in. by rewrite HR.
Qed.

(** ** The insert fix-up keeps I2 and I3 *)

Lemma ctopc_black_of_child T lg :
  (lg = None ∨ ∃ u L R, lg = Some u ∧ csub u T = CNode L u black R) →
  ∀ L, ctop L = lg → (∀ c, lg = Some c → csub c T = L) → ctopc L = black.
Proof.
  intros [->|(u & L0 & R0 & -> & Hu)] L HL Hc.
  - by destruct L.
  - rewrite <- (Hc u eq_refl), Hu. done.
Qed.

(** One pass through the right-hand branch, with the colours. *)
Lemma insert_case_right_rb s t z nz P nP g ng :
  is_tree s t → z ∈ addrs t →
  heap s !! z = Some nz → parent nz = Some P → colour nz = red →
  heap s !! P = Some nP → parent nP = Some g → colour nP = red →
  heap s !! g = Some ng → right_node ng = Some P →
  cnrr (Some z) (skel t) = true → is_Some (cbh (skel t)) →
  ∃ z' s' t',
    insert_case_right (Some z) s = Ok (Some z', s') ∧
    is_tree s' t' ∧ addrs t' = addrs t ∧
    cbh (skel t') = cbh (skel t) ∧
    ((z' = g ∧ (∃ f, t' = tmap f t) ∧
      cnrr (Some g) (skel t') = true ∧
      heap s' !! g = Some (with_colour red ng) ∧
      (root s' = Some g ∨ top_colour t' = top_colour t))
     ∨
     (root s' ≠ Some z' ∧
      (∃ nz' w nw, heap s' !! z' = Some nz' ∧ parent nz' = Some w ∧
                   heap s' !! w = Some nw ∧ colour nw = black) ∧
      cnrr None (skel t') = true ∧
      (top_colour t = black → top_colour t' = black))).
Proof.
  intros Ht Hzt Hz HzP Hzred HP HPg HPred Hg HgP Hnrr Hbh.
  pose proof Ht as [Hrep Hnd].
  destruct (rep_linked _ _ _ _ Hrep Hnd z Hzt) as [nz' [Hnz Hzl Hzr Hzp]].
  assert (nz' = nz) as -> by congruence.
  destruct Hzp as [(_ & ? & _)|(P' & nP' & ? & HPt & HdP & ? & HPz)]; [congruence|].
  assert (P' = P) as -> by congruence. assert (nP' = nP) as -> by congruence.
  destruct (rep_linked _ _ _ _ Hrep Hnd P HPt) as [nP' [? HPl HPr HPp]].
  assert (nP' = nP) as -> by congruence.
  destruct HPp as [(_ & ? & _)|(g' & ng' & ? & Hgt & Hdg & ? & _)]; [congruence|].
  assert (g' = g) as -> by congruence. assert (ng' = ng) as -> by congruence.
  destruct (rep_linked _ _ _ _ Hrep Hnd g Hgt) as [ng' [? Hgl Hgr Hgp]].
  assert (ng' = ng) as -> by congruence.
  assert (z ≠ P) as HzP' by (intros ->; lia).
  assert (z ≠ g) as Hzg by (intros ->; lia).
  assert (P ≠ g) as HPg' by (intros ->; lia).
  assert (left_node ng ≠ Some P) as HgPl.
  { intros Hl. by destruct (Hgl P Hl) as (_ & _ & ? & _). }
  assert (left_node nz ≠ Some P) as HzlP.
  { intros Hl. destruct (Hzl P Hl) as (_ & ? & _). lia. }
  assert (parent ng ≠ Some P) as HgpP.
  { intros Hp. destruct Hgp as [(_ & ? & _)|(q & ? & ? & _ & ? & _)]; [congruence|].
    assert (q = P) as -> by congruence. lia. }
  assert (parent ng ≠ Some z) as Hgpz.
  { intros Hp. destruct Hgp as [(_ & ? & _)|(q & ? & ? & _ & ? & _)]; [congruence|].
    assert (q = z) as -> by congruence. lia. }
  (* the skeleton below [g] *)
  set (T := skel t) in *.
  assert (NoDup (caddrs T)) as HndT by (unfold T; by rewrite caddrs_skel).
  assert (g ∈ caddrs T) as HgT by (unfold T; by rewrite caddrs_skel).
  destruct (csub_skel t _ _ _ g ng Hrep Hnd Hgt Hg)
    as (GL & GR & HsubG & HGL & HGR & HcGL & HcGR).
  destruct (csub_skel t _ _ _ P nP Hrep Hnd HPt HP)
    as (PL & PR & HsubP & HPL & HPR & HcPL & HcPR).
  destruct (csub_skel t _ _ _ z nz Hrep Hnd Hzt Hz)
    as (ZL & ZR & HsubZ & _).
  fold T in HsubG, HsubP, HsubZ, HcGL, HcGR, HcPL, HcPR.
  rewrite (HcGR P HgP) in HsubP. subst GR.
  rewrite HPred in HsubG. rewrite Hzred in HsubZ.
  destruct nz as [kz cz pz lz rz], nP as [kP cP pP lP rP], ng as [kg cg pg lg rg].
  simpl in *. subst pz pP rg cz cP.
  assert (∀ s0 t0 a n, is_tree s0 t0 → root s0 = Some a →
                       heap s0 !! a = Some n → parent n = None) as Htopnone.
  { intros s0 t0 a n Ht0 Hr Ha. rewrite (is_tree_root _ _ Ht0) in Hr.
    by destruct (is_tree_top_node _ _ _ _ Ht0 Hr Ha). }
  (* is the uncle red? *)
  assert ((∃ u ku pu lu ru, lg = Some u ∧
             heap s !! u = Some (mkNode ku red pu lu ru) ∧
             u ∈ addrs t ∧ u ≠ z ∧ u ≠ P ∧ u ≠ g)
          ∨ (lg = None ∨
             ∃ u ku pu lu ru, lg = Some u ∧ u ∈ addrs t ∧
               heap s !! u = Some (mkNode ku black pu lu ru)))
    as [Hred|Hblack].
  { destruct lg as [u|]; [|by right; left].
    destruct (Hgl u eq_refl) as (Hut & Hdu & Hne & [ku cu pu lu ru] & Hnu & _).
    destruct cu.
    - right. right. eauto 10.
    - left. exists u, ku, pu, lu, ru. split; [done|]. split; [done|].
      split; [done|].
      split; [intros ->; lia|]. split; [congruence|intros ->; lia]. }
  - (* recolouring *)
    destruct Hred as (u & ku & pu & lu & ru & -> & Hnu & Hut & Huz & HuP & Hug).
    destruct (csub_skel t _ _ _ u _ Hrep Hnd Hut Hnu)
      as (UL & UR & HsubU & _).
    fold T in HsubU. rewrite (HcGL u eq_refl) in HsubU. subst GL. simpl in HsubG.
    pose proof (recolour_tree _ _ u _ black Ht Hnu) as Ht1.
    eassert (is_tree _ _) as Ht2.
    { eapply (recolour_tree _ _ P _ black Ht1). simpl.
      rewrite lookup_insert_ne by done. exact HP. }
    eassert (is_tree _ _) as Ht3.
    { eapply (recolour_tree _ _ g _ red Ht2). simpl.
      rewrite !lookup_insert_ne by done. exact Hg. }
    simpl in Ht3.
    destruct (recolouring_keeps_rb T g cg u UL UR P PL PR z HndT HgT HsubG)
      as [Hbh' Hnrr']; [|done|done|].
    { destruct HPz as [Hl|Hr]; [left|right].
      - by rewrite HPL.
      - by rewrite HPR. }
    exists g. eexists _, _. split.
    { run. reflexivity. }
    split; [exact Ht3|].
    split; [by rewrite !addrs_tmap|].
    rewrite !skel_recolour by (by rewrite ?addrs_tmap).
    split; [done|].
    left. split; [done|]. split; [rewrite !tmap_tmap; by eexists|].
    split; [done|].
    split; [simpl; by rewrite lookup_insert_eq|].
    simpl. destruct (decide (root s = Some g)) as [?|Hrg]; [by left|right].
    destruct t as [|l r nr rr]; [done|]. simpl.
    destruct Hrep as (Hr & Hnr & Hpr & _).
    assert (r ≠ g) by congruence.
    assert (r ≠ u) by (intros ->; destruct (Hgl u eq_refl) as (_ & _ & _ & ? & ? & ?); congruence).
    assert (r ≠ P) by (intros ->; simplify_eq).
    unfold recolour. by simpl_decide.
  - (* rotations *)
    assert (ctopc GL = black) as HGLb.
    { apply (ctopc_black_of_child T lg); [|done|done].
      destruct Hblack as [?|(u & ku & pu & lu & ru & -> & Hut & Hnu)]; [by left|].
      right. destruct (csub_skel t _ _ _ u _ Hrep Hnd Hut Hnu)
        as (UL & UR & HsubU & _). eauto 10. }
    destruct (decide (lP = Some z)) as [->|HlP].
    + (* the working node is a left child: two rotations *)
      rewrite (HcPL z eq_refl) in HsubZ. subst PL.
      edestruct (right_rotate_relinks s t P _ z _ Ht HPt HP Hz)
        as (s1 & t1 & Hrot1 & Ht1 & Ha1 & _ & HP1 & Hz1 & Hroot1 & Hq1 & _ & _);
        [done|].
      pose proof (right_rotate_skel s t P _ z s1 t1 Ht HPt HP eq_refl Hrot1 Ht1)
        as Hsk1.
      specialize (Hq1 g _ eq_refl Hg). simpl in *.
      rewrite bool_decide_eq_false_2 in Hq1 by done.
      pose proof (recolour_tree _ _ z _ black Ht1 Hz1) as Ht2.
      eassert (is_tree _ _) as Ht3.
      { eapply (recolour_tree _ _ g _ red Ht2). simpl.
        rewrite lookup_insert_ne by done. exact Hq1. }
      lazymatch type of Ht3 with
      | is_tree ?s3 ?t3 =>
          assert (g ∈ addrs t3) as Hgt3 by (by rewrite !addrs_tmap, Ha1);
          eassert (heap s3 !! g = Some _) as Hg3
            by (simpl; apply lookup_insert_eq);
          eassert (heap s3 !! z = Some _) as Hz3
            by (simpl; rewrite lookup_insert_ne by done; apply lookup_insert_eq)
      end.
      destruct (left_rotate_relinks _ _ g _ z _ Ht3 Hgt3 Hg3 Hz3 eq_refl)
        as (s4 & t4 & Hrot2 & Ht4 & Ha4 & _ & Hg4 & Hz4 & Hroot4 & _ & _ & Hfr4).
      pose proof (left_rotate_skel _ _ g _ z s4 t4 Ht3 Hgt3 Hg3 eq_refl Hrot2 Ht4)
        as Hsk4.
      rewrite !skel_recolour in Hsk4
        by (rewrite ?addrs_tmap; apply (proj2 Ht1)).
      rewrite Hsk1 in Hsk4. fold T in Hsk4.
      destruct (double_rotation_restores_rb T g cg GL P PR z ZL ZR HndT HgT HsubG HGLb)
        as (Hbh' & Hnrr' & Htopc'); [done|done|].
      rewrite <- Hsk4 in Hbh', Hnrr', Htopc'.
      simpl in *.
      exists P, s4, t4. split.
      { destruct Hblack as [->|(u & ku & pu & lu & ru & -> & Hut & Hnu)].
        all: run; rewrite Hrot1; simpl; repeat exec_step; rewrite Hrot2; done. }
      split; [done|]. split; [by rewrite Ha4, !addrs_tmap, Ha1|].
      split; [done|]. right.
      eassert (heap s4 !! P = Some _) as HP4.
      { rewrite Hfr4 by congruence. rewrite !lookup_insert_ne by done. exact HP1. }
      split.
      { intros Hr. by pose proof (Htopnone _ _ _ _ Ht4 Hr HP4). }
      split.
      { eexists _, z, _. split; [exact HP4|]. split; [done|]. split; [exact Hz4|done]. }
      split; [done|].
      rewrite <- !ctopc_skel. exact Htopc'.
    + (* the working node is a right child: one rotation *)
      assert (rP = Some z) as -> by (by destruct HPz).
      rewrite (HcPR z eq_refl) in HsubZ. subst PR.
      pose proof (recolour_tree _ _ P _ black Ht HP) as Ht1.
      eassert (is_tree _ _) as Ht2.
      { eapply (recolour_tree _ _ g _ red Ht1). simpl.
        rewrite lookup_insert_ne by done. exact Hg. }
      lazymatch type of Ht2 with
      | is_tree ?s3 ?t3 =>
          assert (g ∈ addrs t3) as Hgt3 by (by rewrite !addrs_tmap);
          eassert (heap s3 !! g = Some _) as Hg3
            by (simpl; apply lookup_insert_eq);
          eassert (heap s3 !! P = Some _) as HP3
            by (simpl; rewrite lookup_insert_ne by done; apply lookup_insert_eq)
      end.
      destruct (left_rotate_relinks _ _ g _ P _ Ht2 Hgt3 Hg3 HP3 eq_refl)
        as (s4 & t4 & Hrot2 & Ht4 & Ha4 & _ & Hg4 & HP4 & Hroot4 & _ & _ & Hfr4).
      pose proof (left_rotate_skel _ _ g _ P s4 t4 Ht2 Hgt3 Hg3 eq_refl Hrot2 Ht4)
        as Hsk4.
      rewrite !skel_recolour in Hsk4 by (by rewrite ?addrs_tmap).
      fold T in Hsk4.
      destruct (single_rotation_restores_rb T g cg GL P PL z ZL ZR HndT HgT HsubG HGLb)
        as (Hbh' & Hnrr' & Htopc'); [done|done|].
      rewrite <- Hsk4 in Hbh', Hnrr', Htopc'.
      simpl in *.
      exists z, s4, t4. split.
      { destruct Hblack as [->|(u & ku & pu & lu & ru & -> & Hut & Hnu)].
        all: destruct lP as [b|]; [assert (z ≠ b) by congruence|].
        all: run; rewrite Hrot2; done. }
      split; [done|]. split; [by rewrite Ha4, !addrs_tmap|].
      split; [done|]. right.
      eassert (heap s4 !! z = Some _) as Hz4.
      { rewrite Hfr4 by congruence. rewrite !lookup_insert_ne by done. exact Hz. }
      split.
      { intros Hr. by pose proof (Htopnone _ _ _ _ Ht4 Hr Hz4). }
      split.
      { eexists _, P, _. split; [exact Hz4|]. split; [done|]. split; [exact HP4|done]. }
      split; [done|].
      rewrite <- !ctopc_skel. exact Htopc'.
Qed.

Lemma child_ok_cmirror z u : child_ok z (cmirror u) = child_ok z u.
Proof. by destruct u. Qed.

Lemma cnrr_cmirror z u : cnrr z (cmirror u) = cnrr z u.
Proof.
  induction u as [|l IHl a c r IHr]; [done|]. simpl.
  rewrite IHl, IHr, !child_ok_cmirror.
  destruct (bool_decide (c = black)), (child_ok z l), (child_ok z r),
    (cnrr z l), (cnrr z r); done.
Qed.

Lemma cbh_cmirror u : cbh (cmirror u) = cbh u.
Proof.
  induction u as [|l IHl a c r IHr]; [done|]. simpl. rewrite IHl, IHr.
  destruct (cbh l) as [x|], (cbh r) as [y|]; try done.
  repeat case_bool_decide; simplify_eq; done.
Qed.

(** The left-hand branch, by symmetry. *)
Lemma insert_case_left_rb s t z nz P nP g ng :
  is_tree s t → z ∈ addrs t →
  heap s !! z = Some nz → parent nz = Some P → colour nz = red →
  heap s !! P = Some nP → parent nP = Some g → colour nP = red →
  heap s !! g = Some ng → left_node ng = Some P →
  cnrr (Some z) (skel t) = true → is_Some (cbh (skel t)) →
  ∃ z' s' t',
    insert_case_left (Some z) s = Ok (Some z', s') ∧
    is_tree s' t' ∧ addrs t' = addrs t ∧
    cbh (skel t') = cbh (skel t) ∧
    ((z' = g ∧ (∃ f, t' = tmap f t) ∧
      cnrr (Some g) (skel t') = true ∧
      heap s' !! g = Some (with_colour red ng) ∧
      (root s' = Some g ∨ top_colour t' = top_colour t))
     ∨
     (root s' ≠ Some z' ∧
      (∃ nz' w nw, heap s' !! z' = Some nz' ∧ parent nz' = Some w ∧
                   heap s' !! w = Some nw ∧ colour nw = black) ∧
      cnrr None (skel t') = true ∧
      (top_colour t = black → top_colour t' = black))).
Proof.
  intros Ht Hzt Hz HzP Hzred HP HPg HPred Hg HgP Hnrr Hbh.
  destruct (insert_case_right_rb (mirror s) (mirror_tree t) z
              (mirror_node nz) P (mirror_node nP) g (mirror_node ng))
    as (z' & s1 & t1 & Hrun & Ht1 & Ha1 & Hbh1 & Hpost).
  { by apply is_tree_mirror. }
  { rewrite addrs_mirror_tree. by apply elem_of_reverse. }
  { by rewrite lookup_mirror, Hz. }
  { done. }
  { done. }
  { by rewrite lookup_mirror, HP. }
  { done. }
  { done. }
  { by rewrite lookup_mirror, Hg. }
  { done. }
  { by rewrite skel_mirror_tree, cnrr_cmirror. }
  { by rewrite skel_mirror_tree, cbh_cmirror. }
  exists z', (mirror s1), (mirror_tree t1).
  split; [by rewrite insert_case_left_mirror, Hrun|].
  split; [by apply is_tree_mirror|].
  split; [by rewrite addrs_mirror_tree, Ha1, addrs_mirror_tree, reverse_involutive|].
  rewrite !skel_mirror_tree, !cbh_cmirror, !cnrr_cmirror in *.
  split; [done|].
  destruct Hpost as [(-> & (f & ->) & Hn' & Hg' & Hroot)
                    |(Hroot & (nz' & w & nw & Hz' & Hp & Hw & Hc) & Hn' & Htop)].
  - left. split; [done|]. split.
    { rewrite mirror_tree_tmap. by eexists. }
    split; [done|]. split.
    { rewrite lookup_mirror, Hg'. by destruct ng. }
    destruct Hroot as [?|Hcol]; [by left|right].
    by rewrite top_colour_mirror_tree, Hcol, top_colour_mirror_tree.
  - right. split; [done|]. split.
    { exists (mirror_node nz'), w, (mirror_node nw).
      rewrite !lookup_mirror, Hz', Hw. done. }
    split; [done|].
    rewrite !top_colour_mirror_tree in *. done.
Qed.

(** One pass through the body of the loop, with the colours. *)
Lemma insert_loop_body_rb s t z nz P nP :
  is_tree s t → top_colour t = black → z ∈ addrs t →
  heap s !! z = Some nz → parent nz = Some P → colour nz = red →
  heap s !! P = Some nP → colour nP = red →
  cnrr (Some z) (skel t) = true → is_Some (cbh (skel t)) →
  ∃ z' s' t',
    insert_loop_body (Some z) s = Ok (Some z', s') ∧
    is_tree s' t' ∧ addrs t' = addrs t ∧
    cbh (skel t') = cbh (skel t) ∧
    (z' ∈ addrs t ∧ depth t z = S (S (depth t' z')) ∧
      cnrr (Some z') (skel t') = true ∧
      (∃ nz', heap s' !! z' = Some nz' ∧ colour nz' = red) ∧
      (root s' = Some z' ∨ top_colour t' = black)
     ∨
     (root s' ≠ Some z' ∧
      (∀ fuel', insert_loop fuel' (Some z') s' = Ok (tt, s')) ∧
      cnrr None (skel t') = true ∧ top_colour t' = black)).
Proof.
  intros Ht Hblack Hzt Hz HzP Hzred HP Hred Hnrr Hbh.
  destruct (is_tree_parent _ _ _ _ _ Ht Hzt Hz HzP) as (nP' & HPt & HdP & HP' & _).
  assert (nP' = nP) as -> by congruence.
  assert (root s ≠ Some P) as HPr
    by (intros Hr; rewrite (is_tree_root _ _ Ht) in Hr;
        destruct (is_tree_top_node _ _ _ _ Ht Hr HP); congruence).
  destruct (is_tree_nonroot _ _ _ _ Ht HPt HP HPr)
    as (g & ng & HPg & Hgt & Hdg & Hg & Hside).
  assert (∃ z' s' t',
    insert_loop_body (Some z) s = Ok (Some z', s') ∧
    is_tree s' t' ∧ addrs t' = addrs t ∧
    cbh (skel t') = cbh (skel t) ∧
    ((z' = g ∧ (∃ f, t' = tmap f t) ∧
      cnrr (Some g) (skel t') = true ∧
      heap s' !! g = Some (with_colour red ng) ∧
      (root s' = Some g ∨ top_colour t' = top_colour t))
     ∨
     (root s' ≠ Some z' ∧
      (∃ nz' w nw, heap s' !! z' = Some nz' ∧ parent nz' = Some w ∧
                   heap s' !! w = Some nw ∧ colour nw = black) ∧
      cnrr None (skel t') = true ∧
      (top_colour t = black → top_colour t' = black))))
    as (z' & s' & t' & Hbody & Ht' & Ha' & Hbh' & Hpost).
  { unfold insert_loop_body.
    rewrite (bind_ok _ _ _ _ _ (getf_some parent z nz s Hz)), HzP.
    destruct (decide (right_node ng = Some P)) as [Hr|Hr].
    - rewrite (bind_ok _ _ s true s).
      + by eapply insert_case_right_rb.
      + unfold is_right_son, getf, load, bind, ret. simpl.
        rewrite HP. simpl. rewrite HPg. simpl. rewrite Hg. simpl.
        rewrite Hr. simpl. by rewrite bool_decide_eq_true_2.
    - rewrite (bind_ok _ _ s false s).
      + eapply insert_case_left_rb; try done. by destruct Hside.
      + unfold is_right_son, getf, load, bind, ret. simpl.
        rewrite HP. simpl. rewrite HPg. simpl. rewrite Hg. simpl.
        destruct (right_node ng) as [w|]; simpl; [|done].
        rewrite bool_decide_eq_false_2; [done|congruence]. }
  exists z', s', t'. split; [done|]. split; [done|]. split; [done|].
  destruct Hpost as [(-> & (f & ->) & Hn' & Hg' & Hcol)
                    |(Hroot & (nz' & w & nw & Hnz' & Hw' & Hnw & Hc) & Hn' & Htop)].
  - split; [done|]. left.
    rewrite depth_tmap.
    split; [done|]. split; [lia|]. split; [done|].
    split; [by eexists|].
    destruct Hcol as [?|Hcol]; [by left|right]. congruence.
  - split; [done|]. right. split; [done|]. split.
    + intros fuel'. rewrite insert_loop_unfold.
      rewrite (bind_ok _ _ _ _ _ (getf_some parent z' nz' s' Hnz')), Hw'.
      unfold is_red.
      rewrite (bind_ok _ _ s' (bool_decide (colour nw = red)) s')
        by (by rewrite (bind_ok _ _ _ _ _ (getf_some colour w nw s' Hnw))).
      by rewrite Hc.
    + split; [done|]. by apply Htop.
Qed.

(** Below a black parent the exemption is not needed. *)
Lemma cnrr_parent_black T P L R z :
  NoDup (caddrs T) → P ∈ caddrs T →
  csub P T = CNode L P black R →
  ctop L = Some z ∨ ctop R = Some z →
  cnrr (Some z) T = true → cnrr None T = true.
Proof.
  intros Hnd HP HG Hz Hnrr.
  pose proof (NoDup_csub P T Hnd) as HndG. rewrite HG in HndG.
  pose proof (cnrr_csub P _ T Hnrr) as HnrrG. rewrite HG in HnrrG.
  pose proof HndG as (HndL & HndR & HPL & HPR & HLR)%NoDup_CNode.
  assert (z ∈ caddrs L ∨ z ∈ caddrs R) as Hzin
    by (destruct Hz as [?%ctop_in|?%ctop_in]; [by left|by right]).
  assert (z ≠ P) as HzP by (intros ->; destruct Hzin; done).
  pose proof (cnrr_cat P (λ v, v) z None T Hnd HP) as H.
  rewrite cat_id, HG in H. apply H; try done.
  - destruct Hzin; [by apply cin_left|by apply cin_right].
  - simpl in *.
    apply andb_prop in HnrrG as [HnL HnR].
    rewrite (cnrr_change z None L), (cnrr_change z None R); try done.
    + destruct Hz as [Hz|Hz]; [|by right]. left. intros Hin.
      apply ctop_in in Hz. by apply (HLR z).
    + destruct Hz as [Hz|Hz]; [by right|]. left. intros Hin.
      apply ctop_in in Hz. by apply (HLR z).
Qed.

Lemma cnrr_parent_black_tree s t z nz P nP :
  is_tree s t → z ∈ addrs t →
  heap s !! z = Some nz → parent nz = Some P →
  heap s !! P = Some nP → colour nP = black →
  cnrr (Some z) (skel t) = true → cnrr None (skel t) = true.
Proof.
  intros Ht Hzt Hz HzP HP Hblack Hnrr.
  destruct (is_tree_parent _ _ _ _ _ Ht Hzt Hz HzP) as (nP' & HPt & _ & HP' & Hside).
  assert (nP' = nP) as -> by congruence.
  destruct Ht as [Hrep Hnd].
  destruct (csub_skel t _ _ _ P nP Hrep Hnd HPt HP)
    as (L & R & Hsub & HL & HR & _).
  rewrite Hblack in Hsub.
  apply (cnrr_parent_black (skel t) P L R z); try done.
  - by rewrite caddrs_skel.
  - by rewrite caddrs_skel.
  - destruct Hside; [left|right]; congruence.
Qed.

(** The loop of the insert fix-up restores I2 and keeps I3. *)
Lemma insert_loop_rb fuel :
  ∀ s t z nz P,
    is_tree s t → top_colour t = black → z ∈ addrs t →
    heap s !! z = Some nz → parent nz = Some P → colour nz = red →
    cnrr (Some z) (skel t) = true → is_Some (cbh (skel t)) →
    (depth t z ≤ 2 * fuel + 1)%nat →
    ∃ s' t', insert_loop fuel (Some z) s = Ok (tt, s') ∧
             is_tree s' t' ∧ addrs t' = addrs t ∧
             cnrr None (skel t') = true ∧ is_Some (cbh (skel t')).
Proof.
  induction fuel as [|fuel IH];
    intros s t z nz P Ht Hblack Hzt Hz HzP Hzred Hnrr Hbh Hfuel.
  all: destruct (is_tree_parent _ _ _ _ _ Ht Hzt Hz HzP)
    as (nP & HPt & HdP & HP & HPz).
  all: rewrite insert_loop_unfold.
  all: rewrite (bind_ok _ _ _ _ _ (getf_some parent z nz s Hz)), HzP.
  all: unfold is_red at 1.
  all: rewrite (bind_ok _ _ s (bool_decide (colour nP = red)) s)
    by (by rewrite (bind_ok _ _ _ _ _ (getf_some colour P nP s HP))).
  all: case_bool_decide as Hred;
    [|exists s, t; split; [done|]; split; [done|]; split; [done|];
      split; [|done];
      apply (cnrr_parent_black_tree s t z nz P nP); try done;
      by destruct (colour nP)].
  all: assert (2 ≤ depth t z)%nat as Hdeep.
  1, 3: assert (root s ≠ Some P) as HPr
    by (intros Hr; rewrite (is_tree_root _ _ Ht) in Hr;
        destruct (is_tree_top_node _ _ _ _ Ht Hr HP); congruence).
  1, 2: destruct (is_tree_nonroot _ _ _ _ Ht HPt HP HPr) as (g & _ & _ & _ & ? & _);
    lia.
  { lia. }
  destruct (insert_loop_body_rb _ _ _ _ _ _ Ht Hblack Hzt Hz HzP Hzred HP Hred Hnrr Hbh)
    as (z' & s' & t' & Hbody & Ht' & Ha' & Hbh' & Hpost).
  rewrite (bind_ok _ _ _ _ _ Hbody).
  unfold _node_is_root at 1.
  rewrite (bind_ok _ _ s' (bool_decide (Some z' = root s')) s') by done.
  assert (is_Some (cbh (skel t'))) as Hbh'' by (by rewrite Hbh').
  destruct Hpost as [(Hz't & Hdep & Hn' & (nz' & Hnz' & Hz'red) & Hcol)
                    |(Hnroot & Hexit & Hn' & Htop)].
  - case_bool_decide as Hroot.
    + (* the working node has become the root *)
      exists s', t'. split; [done|]. split; [done|]. split; [done|].
      split; [|done].
      apply (cnrr_top z'); [rewrite caddrs_skel; apply (proj2 Ht')| |done].
      by rewrite ctop_skel, <- (is_tree_root _ _ Ht').
    + destruct Hcol as [?|Hcol]; [congruence|].
      destruct (is_tree_nonroot _ _ _ _ Ht' ltac:(by rewrite Ha') Hnz')
        as (q & nq & Hgq & _); [congruence|].
      destruct (IH s' t' z' nz' q) as (s'' & t'' & Hloop & Ht'' & Ha'' & Hn'' & Hb'');
        try done.
      * by rewrite Ha'.
      * lia.
      * exists s'', t''. split; [done|]. split; [done|]. split; [congruence|].
        done.
  - rewrite bool_decide_eq_false_2 by congruence.
    exists s', t'. by rewrite Hexit.
Qed.

Lemma cnrr_paint_top z c u :
  c = black → cnrr z u = true → cnrr z (paint_top c u) = true.
Proof.
  intros -> H. destruct u as [|l a c' r]; [done|]. simpl in *.
  apply andb_prop in H as [H Hr]. apply andb_prop in H as [_ Hl].
  by rewrite Hl, Hr.
Qed.

Lemma cbh_paint_top c u : is_Some (cbh u) → is_Some (cbh (paint_top c u)).
Proof.
  destruct u as [|l a c' r]; [done|]. simpl.
  destruct (cbh l), (cbh r); try done. by case_bool_decide.
Qed.

(** The insert fix-up, started at a red node that is the only one that
    may have a red parent, restores I2, keeps I3 and leaves the root
    black. *)
Lemma balance_after_insert_rb s t z nz fuel :
  is_tree s t → top_colour t = black → z ∈ addrs t →
  heap s !! z = Some nz → colour nz = red →
  cnrr (Some z) (skel t) = true → is_Some (cbh (skel t)) →
  (depth t z ≤ 2 * fuel + 1)%nat →
  ∃ s' t', _balance_after_insert fuel (Some z) s = Ok (tt, s') ∧
           is_tree s' t' ∧ addrs t' = addrs t ∧ top_colour t' = black ∧
           no_red_red t' = true ∧ balanced t' = true.
Proof.
  intros Ht Hblack Hzt Hz Hzred Hnrr Hbh Hfuel.
  assert (∀ t', is_Some (cbh (skel t')) → balanced t' = true) as Hbal.
  { intros t'. unfold balanced. rewrite cbh_skel. by intros [? ->]. }
  unfold _balance_after_insert, andM.
  rewrite (bind_ok _ _ s
             (match parent nz with
              | Some P => match node_at s (Some P) with
                          | Some nP => not_None (parent nP)
                          | None => false
                          end
              | None => false
              end) s).
  2:{ unfold grandfather_node, getf, load, bind, ret. simpl. rewrite Hz. simpl.
      destruct (parent nz) as [P|] eqn:HzP; simpl; [|done].
      destruct (is_tree_parent _ _ _ _ _ Ht Hzt Hz HzP) as (nP & _ & _ & HP & _).
      rewrite Hz. simpl. rewrite HzP. simpl. by rewrite HP. }
  destruct (parent nz) as [P|] eqn:HzP; simpl.
  2:{ (* the node is the root *)
      exists s, t. split; [done|]. split; [done|]. split; [done|].
      split; [done|]. split; [|by apply Hbal].
      rewrite <- cnrr_skel.
      apply (cnrr_top z); [rewrite caddrs_skel; apply (proj2 Ht)| |done].
      rewrite ctop_skel.
      destruct (rep_linked _ _ _ _ (proj1 Ht) (proj2 Ht) z Hzt) as [nz' [Hz' _ _ Hp]].
      assert (nz' = nz) as -> by congruence.
      destruct Hp as [(? & _)|(? & ? & ? & _)]; [done|congruence]. }
  destruct (is_tree_parent _ _ _ _ _ Ht Hzt Hz HzP) as (nP & HPt & _ & HP & _).
  rewrite HP. destruct (parent nP) as [g|] eqn:HPg; simpl.
  2:{ (* the parent is the root, which is black *)
      exists s, t. split; [done|]. split; [done|]. split; [done|].
      split; [done|]. split; [|by apply Hbal].
      rewrite <- cnrr_skel.
      apply (cnrr_parent_black_tree s t z nz P nP); try done.
      destruct (rep_linked _ _ _ _ (proj1 Ht) (proj2 Ht) P HPt) as [nP' [HP' _ _ Hp]].
      assert (nP' = nP) as -> by congruence.
      destruct Hp as [(Htop & _)|(? & ? & ? & _)]; [|congruence].
      destruct (is_tree_top_node _ _ _ _ Ht Htop HP). congruence. }
  destruct (insert_loop_rb fuel s t z nz P)
    as (s' & t' & Hloop & Ht' & Ha' & Hn' & Hb'); try done.
  rewrite (bind_ok _ _ _ _ _ Hloop).
  assert (∃ r' nr', root s' = Some r' ∧ heap s' !! r' = Some nr' ∧ top t' = Some r')
    as (r' & nr' & Hr' & Hnr' & Htop').
  { destruct t' as [|l' r' nr' rr'].
    - rewrite <- Ha' in Hzt. by apply elem_of_nil in Hzt.
    - destruct Ht' as [(? & ? & _) _]. eauto. }
  unfold get_root, bind. rewrite Hr'.
  rewrite (store_some _ _ _ _ Hnr').
  pose proof (recolour_tree _ _ r' _ black Ht' Hnr') as Ht''.
  eexists _, _. split; [done|]. split; [exact Ht''|].
  split; [by rewrite addrs_tmap|].
  assert (skel (tmap (recolour r' black) t') = paint_top black (skel t')) as Hsk.
  { rewrite skel_recolour by apply (proj2 Ht').
    destruct t' as [|l' a' n' rr']; [done|]. simpl in *.
    injection Htop' as ->. by rewrite decide_True. }
  split.
  { rewrite <- ctopc_skel, Hsk. destruct t'; [done|]. done. }
  split.
  - rewrite <- cnrr_skel, Hsk. by apply cnrr_paint_top.
  - apply Hbal. rewrite Hsk. by apply cbh_paint_top.
Qed.

(** ** [insert] keeps the five invariants *)

Lemma cnrr_weaken zo u : cnrr None u = true → cnrr zo u = true.
Proof.
  induction u as [|l IHl a c r IHr]; intros H; [done|]. simpl in *.
  apply andb_prop in H as [H Hr]. apply andb_prop in H as [H Hl].
  rewrite (IHl Hl), (IHr Hr), !andb_true_r.
  destruct (bool_decide (c = black)); [done|]. simpl in *.
  apply andb_prop in H as [H1 H2].
  by rewrite !child_ok_weaken.
Qed.

Lemma child_ok_black zo t : top_colour t = black → child_ok zo (skel t) = true.
Proof.
  intros H. unfold child_ok. by rewrite ctopc_skel, H.
Qed.

Lemma child_ok_ins a k par t :
  top_colour t = black → child_ok (Some a) (skel (ins a k red par t)) = true.
Proof.
  intros H. destruct t as [|l b n r].
  - unfold child_ok. simpl. by rewrite bool_decide_eq_true_2.
  - apply child_ok_black. by rewrite top_colour_ins.
Qed.

(** The new red node is the only one that may have a red parent. *)
Lemma cnrr_ins a k t :
  ∀ par, no_red_red t = true →
         cnrr (Some a) (skel (ins a k red par t)) = true.
Proof.
  induction t as [|l IHl b n r IHr]; intros par H; [done|].
  simpl in H.
  apply andb_prop in H as [H Hr]. apply andb_prop in H as [H Hl].
  pose proof (cnrr_weaken (Some a) (skel l)) as Hwl. rewrite cnrr_skel in Hwl.
  pose proof (cnrr_weaken (Some a) (skel r)) as Hwr. rewrite cnrr_skel in Hwr.
  simpl. destruct (k <? key n); simpl.
  - assert (colour (if l is Leaf then with_left_node (Some a) n else n) = colour n)
      as -> by (by destruct l).
    rewrite (IHl _ Hl), (Hwr Hr), !andb_true_r.
    destruct (bool_decide (colour n = black)); [done|]. simpl in *.
    apply andb_prop in H as [H1%bool_decide_eq_true_1 H2%bool_decide_eq_true_1].
    by rewrite child_ok_ins, child_ok_black.
  - assert (colour (if r is Leaf then with_right_node (Some a) n else n) = colour n)
      as -> by (by destruct r).
    rewrite (IHr _ Hr), (Hwl Hl), !andb_true_r.
    destruct (bool_decide (colour n = black)); [done|]. simpl in *.
    apply andb_prop in H as [H1%bool_decide_eq_true_1 H2%bool_decide_eq_true_1].
    by rewrite child_ok_ins, child_ok_black.
Qed.

(** A red leaf adds no black node to any path. *)
Lemma black_height_ins a k t :
  ∀ par, black_height (ins a k red par t) = black_height t.
Proof.
  induction t as [|l IHl b n r IHr]; intros par; [done|].
  simpl. destruct (k <? key n); simpl.
  - rewrite IHl. by destruct l.
  - rewrite IHr. by destruct r.
Qed.

(** [insert] on a red-black tree. *)
Lemma insert_rb s t fuel k :
  is_tree s t → top_colour t = black →
  no_red_red t = true → balanced t = true →
  (height t ≤ fuel)%nat →
  ∃ s' t',
    insert fuel k s = Ok (tt, s') ∧ is_tree s' t' ∧ top_colour t' = black ∧
    no_red_red t' = true ∧ balanced t' = true.
Proof.
  intros Ht Hblack Hnrr Hbal Hfuel.
  assert (t = Leaf ∨ t ≠ Leaf) as [->|Hne] by (destruct t; [by left|by right]).
  - (* the empty tree *)
    unfold insert.
    rewrite (bind_ok _ _ s (is_None (root s)) s eq_refl).
    rewrite (is_tree_root _ _ Ht). simpl.
    eexists _, (Tr Leaf _ (mkNode k black None None None) Leaf).
    split; [reflexivity|]. split; [|done].
    split; [|apply NoDup_singleton].
    simpl. by rewrite lookup_insert_eq.
  - destruct (insert_attach s t fuel k Ht Hne Hfuel) as (s1 & c & Ht1 & Ha1 & ->).
    set (a := fresh (dom (heap s))) in *.
    assert (a ∈ addrs (ins a k red None t)) as Hat1
      by (rewrite addrs_ins; by apply elem_of_cons; left).
    destruct (balance_after_insert_rb s1 _ a (mkNode k red (Some c) None None)
                fuel Ht1)
      as (s2 & t2 & Hrun & Ht2 & Ha2 & Hb2 & Hn2 & Hbal2); try done.
    { by rewrite top_colour_ins. }
    { by apply cnrr_ins. }
    { rewrite cbh_skel, black_height_ins. unfold balanced in Hbal.
      by destruct (black_height t). }
    { pose proof (depth_lt_height _ _ Hat1).
      pose proof (height_ins a k red t None). lia. }
    by exists s2, t2.
Qed.

(** ** The executable invariants *)

Lemma to_tree_complete t :
  ∀ fuel h par p, rep h par p t → (height t ≤ fuel)%nat →
                  to_tree fuel h par p = Some t.
Proof.
  induction t as [|l IHl a n r IHr]; intros fuel h par p Hrep Hfuel.
  - simpl in Hrep. subst p. by destruct fuel.
  - destruct Hrep as (-> & Hn & Hp & Hl & Hr). simpl in Hfuel.
    destruct fuel as [|fuel]; [lia|]. simpl.
    rewrite Hn, bool_decide_eq_true_2 by done.
    rewrite (IHl fuel h _ _ Hl), (IHr fuel h _ _ Hr) by lia. done.
Qed.

Lemma is_tree_size s t : is_tree s t → (length (addrs t) ≤ size (heap s))%nat.
Proof.
  intros [Hrep Hnd].
  rewrite <- size_dom, <- (size_list_to_set (C := gset nat) (addrs t)) by done.
  apply subseteq_size. intros x Hx. apply elem_of_list_to_set in Hx.
  apply elem_of_dom. by eapply rep_is_Some.
Qed.

Lemma is_tree_tree_of s t : is_tree s t → tree_of s = Some t.
Proof.
  intros Ht. unfold tree_of. apply to_tree_complete; [apply Ht|].
  pose proof (height_le_length t). pose proof (is_tree_size s t Ht). lia.
Qed.

(** The executable check of the five invariants says what it should. *)
Lemma invariants_iff s :
  invariants s = true ↔
  ∃ t, is_tree s t ∧ bst t = true ∧ no_red_red t = true ∧
       balanced t = true ∧ root_black t = true.
Proof.
  split.
  - intros H. destruct (invariants_is_tree s H) as (t & Hto & Ht).
    exists t. split; [done|].
    unfold invariants, holds in H. rewrite Hto in H.
    repeat (apply andb_prop in H as [H ?]). done.
  - intros (t & Ht & Hb & Hn & Hbal & Hr).
    unfold invariants, holds, I5. rewrite (is_tree_tree_of s t Ht).
    rewrite Hb, Hn, Hbal, Hr. simpl.
    apply bool_decide_eq_true_2. apply Ht.
Qed.

(** X15. [insert] keeps the five invariants. From every state in
    which I1 to I5 hold and no key is repeated, inserting a key that is
    not in the tree returns normally once the fuel covers the height,
    and I1 to I5 hold again: the result is a search tree, no red node
    has a red child, all paths have the same number of black nodes, the
    root is black, and the nodes form a tree; its keys are the old ones
    and the new one, none repeated. *)
Theorem insert_keeps_the_invariants s t fuel k :
  invariants s = true → tree_of s = Some t →
  NoDup (inorder_keys t) → k ∉ inorder_keys t → (height t ≤ fuel)%nat →
  ∃ s' t', insert fuel k s = Ok (tt, s') ∧ invariants s' = true ∧
           tree_of s' = Some t' ∧
           inorder_keys t' ≡ₚ k :: inorder_keys t ∧
           NoDup (inorder_keys t').
Proof.
  intros Hinv Hto Hnd Hk Hfuel.
  apply invariants_iff in Hinv as (t0 & Ht & Hbst & Hnrr & Hbal & Hroot).
  assert (t0 = t) as -> by (rewrite (is_tree_tree_of s t0 Ht) in Hto; congruence).
  apply bool_decide_eq_true_1 in Hroot.
  destruct (insert_tree_sorted s t fuel k Ht Hroot Hfuel)
    as (s' & t' & Hrun & Ht' & Hb' & _ & Hperm & _ & Hsorted).
  destruct (insert_rb s t fuel k Ht Hroot Hnrr Hbal Hfuel)
    as (s2 & t2 & Hrun2 & Ht2 & _ & Hn2 & Hbal2).
  assert (s2 = s') as -> by congruence.
  assert (t2 = t') as -> by (by eapply is_tree_unique).
  destruct (Hsorted Hbst Hnd Hk) as [Hbst' Hnd'].
  exists s', t'. split; [done|]. split.
  { apply invariants_iff. exists t'. split; [done|]. split; [done|].
    split; [done|]. split; [done|]. by apply bool_decide_eq_true_2. }
  split; [by apply is_tree_tree_of|]. done.
Qed.

Lemma insert_keeps_the_invariants_witness :
  ∃ t, invariants tree_1_to_8 = true ∧ tree_of tree_1_to_8 = Some t ∧
       ∃ s', insert 8 0 tree_1_to_8 = Ok (tt, s') ∧ invariants s' = true.
Proof.
  destruct (tree_of tree_1_to_8) as [t|] eqn:Hto;
    [|vm_compute in Hto; discriminate].
  assert (invariants tree_1_to_8 = true) as Hinv by (vm_compute; reflexivity).
  exists t. split; [exact Hinv|]. split; [reflexivity|].
  destruct (insert_keeps_the_invariants tree_1_to_8 t 8%nat 0 Hinv Hto)
    as (s' & t' & Hrun & Hinv' & _).
  - vm_compute in Hto. injection Hto as <-.
    refine (bool_decide_unpack _ _). vm_compute. exact I.
  - vm_compute in Hto. injection Hto as <-.
    refine (bool_decide_unpack _ _). vm_compute. exact I.
  - vm_compute in Hto. injection Hto as <-. vm_compute. lia.
  - exists s'. split; [exact Hrun|exact Hinv'].
Defined.

(** The constructor, from any red-black tree on. *)
Lemma insert_all_rb fuel elements :
  ∀ s t,
    is_tree s t → top_colour t = black →
    no_red_red t = true → balanced t = true →
    (length (addrs t) + length elements ≤ fuel)%nat →
    ∃ s' t',
      insert_all fuel elements s = Ok (tt, s') ∧ is_tree s' t' ∧
      top_colour t' = black ∧ no_red_red t' = true ∧ balanced t' = true.
Proof.
  induction elements as [|k elements IH]; intros s t Ht Hblack Hnrr Hbal Hfuel.
  { by exists s, t. }
  simpl in Hfuel.
  assert (height t ≤ fuel)%nat as Hh
    by (pose proof (height_le_length t); lia).
  destruct (insert_rb s t fuel k Ht Hblack Hnrr Hbal Hh)
    as (s1 & t1 & Hrun & Ht1 & Hb1 & Hn1 & Hbal1).
  destruct (insert_tree_sorted s t fuel k Ht Hblack Hh)
    as (s1' & t1' & Hrun' & Ht1' & _ & _ & _ & Hlen & _).
  assert (s1' = s1) as -> by congruence.
  assert (t1' = t1) as -> by (by eapply is_tree_unique).
  destruct (IH s1 t1 Ht1 Hb1 Hn1 Hbal1) as (s' & t' & Hall & Hrest); [lia|].
  exists s', t'. split; [simpl; by rewrite (bind_ok _ _ _ _ _ Hrun)|done].
Qed.

(** X16. The constructor builds a red-black tree: for pairwise
    distinct elements, no more of them than the fuel, the constructor
    returns normally and all five invariants hold for the result, whose
    keys are exactly the elements. *)
Theorem constructor_builds_a_red_black_tree fuel elements :
  NoDup elements → (length elements ≤ fuel)%nat →
  ∃ s t, RBTree_init fuel elements = Ok (tt, s) ∧ invariants s = true ∧
         tree_of s = Some t ∧ inorder_keys t ≡ₚ elements.
Proof.
  intros Hnd Hfuel.
  assert (is_tree empty_tree Leaf) as Ht0 by (split; [done|constructor]).
  destruct (insert_all_tree fuel elements empty_tree Leaf Ht0)
    as (s & t & Hrun & Ht & Hb & Hperm & Hsorted); [done|simpl; lia|].
  destruct (insert_all_rb fuel elements empty_tree Leaf Ht0)
    as (s2 & t2 & Hrun2 & Ht2 & _ & Hn2 & Hbal2); [done|done|done|simpl; lia|].
  assert (s2 = s) as -> by congruence.
  assert (t2 = t) as -> by (by eapply is_tree_unique).
  rewrite app_nil_r in Hperm, Hsorted.
  exists s, t. split; [exact Hrun|]. split.
  { apply invariants_iff. exists t. split; [done|].
    split; [by apply Hsorted|]. split; [done|]. split; [done|].
    by apply bool_decide_eq_true_2. }
  split; [by apply is_tree_tree_of|done].
Qed.

Lemma constructor_builds_a_red_black_tree_witness :
  NoDup [5; 3; 8; 1; 4] ∧
  ∃ s t, RBTree_init 5 [5; 3; 8; 1; 4] = Ok (tt, s) ∧ invariants s = true ∧
         tree_of s = Some t ∧ inorder_keys t ≡ₚ [5; 3; 8; 1; 4].
Proof.
  assert (NoDup [5; 3; 8; 1; 4]) as Hnd
    by (refine (bool_decide_unpack _ _); vm_compute; exact I).
  split; [exact Hnd|].
  apply (constructor_builds_a_red_black_tree 5 [5; 3; 8; 1; 4] Hnd).
  simpl. lia.
Defined.

(** ** Deleting a node without children *)

Lemma remove_notin v t : v ∉ addrs t → remove v t = t.
Proof.
  induction t as [|l IHl a n r IHr]; intros Hv; [done|]. simpl.
  assert (a ≠ v) by (intros ->; apply Hv, (in_here l _ n r)).
  assert (v ∉ addrs l) by (intros ?; by apply Hv, (in_left l a n r)).
  assert (v ∉ addrs r) by (intros ?; by apply Hv, (in_right l a n r)).
  rewrite decide_False by done. rewrite IHl, IHr by done.
  rewrite !decide_False; [done| |]; intros ?%top_in; done.
Qed.

Lemma leaf_subtree h par v nv t :
  rep h par (Some v) t → h !! v = Some nv →
  left_node nv = None → right_node nv = None → t = Tr Leaf v nv Leaf.
Proof.
  destruct t as [|l a n r]; [done|].
  intros ([= <-] & Hn & _ & Hl & Hr) Hv Hln Hrn.
  assert (n = nv) as -> by congruence.
  rewrite Hln in Hl. rewrite Hrn in Hr.
  destruct l; [|by destruct Hl]. destruct r; [|by destruct Hr]. done.
Qed.

Section remove_leaf.
Variables (h : gmap nat Node) (v : addr) (nv : Node).
Hypothesis Hv : h !! v = Some nv.
Hypothesis Hvl : left_node nv = None.
Hypothesis Hvr : right_node nv = None.

Lemma key_remove_node l n r :
  key (if decide (top r = Some v) then with_right_node None n
       else if decide (top l = Some v) then with_left_node None n else n)
  = key n.
Proof using Type. by repeat case_decide. Qed.

Lemma colour_remove_node l n r :
  colour (if decide (top r = Some v) then with_right_node None n
          else if decide (top l = Some v) then with_left_node None n else n)
  = colour n.
Proof using Type. by repeat case_decide. Qed.

Lemma addrs_remove t :
  ∀ par p, rep h par p t → NoDup (addrs t) → v ∈ addrs t →
  addrs t ≡ₚ v :: addrs (remove v t) ∧
  inorder_keys t ≡ₚ key nv :: inorder_keys (remove v t).
Proof using Hv Hvl Hvr.
  induction t as [|l IHl a n r IHr]; intros par p Hrep Hnd Hin.
  { by apply elem_of_nil in Hin. }
  pose proof Hrep as (-> & Hn & _ & Hl & Hr).
  pose proof Hnd as (Hndl & Hndr & Hal & Har & Hdisj)%NoDup_Tr.
  simpl. destruct (decide (a = v)) as [->|Hne].
  - pose proof (leaf_subtree _ _ _ _ _ Hrep Hv Hvl Hvr) as [= -> -> ->]. done.
  - simpl. rewrite key_remove_node by done.
    simpl in Hin.
    apply elem_of_app in Hin as [Hin|Hin];
      [|apply elem_of_cons in Hin as [?|Hin]; [done|]].
    + destruct (IHl _ _ Hl Hndl Hin) as [Ha Hk].
      rewrite (remove_notin v r) by (by apply Hdisj).
      split; [by rewrite Ha|by rewrite Hk].
    + destruct (IHr _ _ Hr Hndr Hin) as [Ha Hk].
      rewrite (remove_notin v l) by (intros ?; by apply (Hdisj v)).
      split.
      * rewrite Ha. by rewrite <- !Permutation_middle, Permutation_swap.
      * rewrite Hk. by rewrite <- !Permutation_middle, Permutation_swap.
Qed.

(** Clearing the reference to [v] in its parent gives the tree without
    [v]. *)
Lemma rep_remove t :
  ∀ par p, rep h par p t → NoDup (addrs t) → v ∈ addrs t → top t ≠ Some v →
  ∃ q nq, parent nv = Some q ∧ q ∈ addrs t ∧ h !! q = Some nq ∧
          rep (<[q := if bool_decide (right_node nq = Some v)
                      then with_right_node None nq
                      else with_left_node None nq]> h)
              par p (remove v t).
Proof using Hv Hvl Hvr.
  induction t as [|l IHl a n r IHr]; intros par p Hrep Hnd Hin Htop.
  { by apply elem_of_nil in Hin. }
  pose proof Hrep as (-> & Hn & Hp & Hl & Hr).
  pose proof Hnd as (Hndl & Hndr & Hal & Har & Hdisj)%NoDup_Tr.
  assert (a ≠ v) as Hne by (simpl in Htop; congruence).
  pose proof (rep_top _ _ _ _ Hl) as Htl.
  pose proof (rep_top _ _ _ _ Hr) as Htr.
  simpl. rewrite decide_False by done.
  simpl in Hin.
  apply elem_of_app in Hin as [Hin|Hin];
    [|apply elem_of_cons in Hin as [?|Hin]; [done|]].
  - (* [v] is on the left *)
    assert (v ∉ addrs r) as Hvr' by (by apply Hdisj).
    rewrite (remove_notin v r) by done.
    rewrite (decide_False (P := top r = Some v)) by (intros ?%top_in; done).
    destruct (decide (top l = Some v)) as [Htlv|Htlv].
    + rewrite Htlv in Htl.
      rewrite Htl in Hl. pose proof (leaf_subtree _ _ _ _ _ Hl Hv Hvl Hvr) as ->.
      exists a, n. destruct Hl as (_ & Hv' & Hpv & _).
      split; [congruence|]. split; [apply (in_here _ _ n r)|]. split; [done|].
      rewrite bool_decide_eq_false_2
        by (rewrite Htr; intros ?%top_in; done).
      simpl. rewrite decide_True by done.
      split; [done|]. split; [by rewrite lookup_insert_eq|]. split; [done|].
      split; [done|].
      apply (rep_ext r h); [done|]. intros x Hx.
      rewrite lookup_insert_ne; [done|]. by intros ->.
    + destruct (IHl _ _ Hl Hndl Hin Htlv) as (q & nq & Hq & Hql & Hnq & Hrep').
      exists q, nq. split; [done|]. split; [by apply (in_left l a n r)|].
      split; [done|].
      assert (q ≠ a) by (intros ->; done).
      split; [done|]. split; [by rewrite lookup_insert_ne|]. split; [done|].
      split; [done|].
      apply (rep_ext r h); [done|]. intros x Hx.
      rewrite lookup_insert_ne; [done|]. intros ->. by apply (Hdisj x).
  - (* [v] is on the right *)
    assert (v ∉ addrs l) as Hvl' by (intros ?; by apply (Hdisj v)).
    rewrite (remove_notin v l) by done.
    destruct (decide (top r = Some v)) as [Htrv|Htrv].
    + rewrite Htrv in Htr.
      rewrite Htr in Hr. pose proof (leaf_subtree _ _ _ _ _ Hr Hv Hvl Hvr) as ->.
      exists a, n. destruct Hr as (_ & Hv' & Hpv & _).
      split; [congruence|]. split; [apply (in_here l _ n _)|]. split; [done|].
      rewrite bool_decide_eq_true_2 by done.
      simpl. rewrite decide_True by done.
      split; [done|]. split; [by rewrite lookup_insert_eq|]. split; [done|].
      split; [|done].
      apply (rep_ext l h); [done|]. intros x Hx.
      rewrite lookup_insert_ne; [done|]. by intros ->.
    + rewrite (decide_False (P := top l = Some v)) by (intros ?%top_in; done).
      destruct (IHr _ _ Hr Hndr Hin Htrv) as (q & nq & Hq & Hqr & Hnq & Hrep').
      exists q, nq. split; [done|]. split; [by apply (in_right l a n r)|].
      split; [done|].
      assert (q ≠ a) by (intros ->; done).
      split; [done|]. split; [by rewrite lookup_insert_ne|]. split; [done|].
      split; [|done].
      apply (rep_ext l h); [done|]. intros x Hx.
      rewrite lookup_insert_ne; [done|]. intros ->. by apply (Hdisj x).
Qed.

Lemma top_colour_remove t :
  top t ≠ Some v → top_colour (remove v t) = top_colour t.
Proof using Type.
  destruct t as [|l a n r]; [done|]. simpl. intros Ht.
  rewrite decide_False by congruence. simpl. apply colour_remove_node; done.
Qed.

Lemma top_colour_remove_black t :
  top_colour t = black → top_colour (remove v t) = black.
Proof using Type.
  destruct t as [|l a n r]; [done|]. simpl. intros Ht.
  case_decide; [done|]. simpl. rewrite colour_remove_node by done. done.
Qed.

(** I2 survives, whatever the colour of [v]. *)
Lemma no_red_red_remove t : no_red_red t = true → no_red_red (remove v t) = true.
Proof using Type.
  induction t as [|l IHl a n r IHr]; intros H; [done|]. simpl in *.
  apply andb_prop in H as [H Hr]. apply andb_prop in H as [H Hl].
  destruct (decide (a = v)); [done|]. simpl.
  rewrite (IHl Hl), (IHr Hr), !andb_true_r, colour_remove_node by done.
  destruct (bool_decide (colour n = black)); [done|]. simpl in *.
  apply andb_prop in H as [H1%bool_decide_eq_true_1 H2%bool_decide_eq_true_1].
  by rewrite !bool_decide_eq_true_2 by (by apply top_colour_remove_black).
Qed.

(** I1 survives. *)
Lemma bst_remove t :
  ∀ par p, rep h par p t → NoDup (addrs t) → v ∈ addrs t →
           bst t = true → bst (remove v t) = true.
Proof using Hv Hvl Hvr.
  induction t as [|l IHl a n r IHr]; intros par p Hrep Hnd Hin Hb; [done|].
  pose proof Hrep as (-> & Hn & _ & Hl & Hr).
  pose proof Hnd as (Hndl & Hndr & Hal & Har & Hdisj)%NoDup_Tr.
  simpl in Hb.
  apply andb_prop in Hb as [Hb Hbr]. apply andb_prop in Hb as [Hb Hbl].
  apply andb_prop in Hb as [Hlt Hge].
  simpl. destruct (decide (a = v)) as [|Hav]; [done|]. simpl.
  rewrite key_remove_node by done.
  simpl in Hin.
  apply elem_of_app in Hin as [Hin|Hin];
    [|apply elem_of_cons in Hin as [?|Hin]; [done|]].
  - rewrite (remove_notin v r) by (by apply Hdisj).
    rewrite Hge, Hbr, (IHl _ _ Hl Hndl Hin Hbl), !andb_true_r.
    apply forallb_elem_of. intros x Hx.
    apply (proj1 (forallb_elem_of _ _) Hlt).
    destruct (addrs_remove l _ _ Hl Hndl Hin) as [_ Hk]. rewrite Hk.
    by apply elem_of_cons; right.
  - rewrite (remove_notin v l) by (intros ?; by apply (Hdisj v)).
    rewrite Hlt, Hbl, (IHr _ _ Hr Hndr Hin Hbr), !andb_true_r. simpl.
    apply forallb_elem_of. intros x Hx.
    apply (proj1 (forallb_elem_of _ _) Hge).
    destruct (addrs_remove r _ _ Hr Hndr Hin) as [_ Hk]. rewrite Hk.
    by apply elem_of_cons; right.
Qed.

(** I3 survives the removal of a red node, and never that of a black
    one that is not the root. *)
Lemma black_height_remove t :
  ∀ par p, rep h par p t → NoDup (addrs t) → v ∈ addrs t →
  (colour nv = red → black_height (remove v t) = black_height t) ∧
  (colour nv = black → top t ≠ Some v → is_Some (black_height t) →
   black_height (remove v t) = None).
Proof using Hv Hvl Hvr.
  induction t as [|l IHl a n r IHr]; intros par p Hrep Hnd Hin.
  { by apply elem_of_nil in Hin. }
  pose proof Hrep as (-> & Hn & _ & Hl & Hr).
  pose proof Hnd as (Hndl & Hndr & Hal & Har & Hdisj)%NoDup_Tr.
  pose proof (rep_top _ _ _ _ Hl) as Htl.
  pose proof (rep_top _ _ _ _ Hr) as Htr.
  simpl. destruct (decide (a = v)) as [->|Hne].
  { pose proof (leaf_subtree _ _ _ _ _ Hrep Hv Hvl Hvr) as [= -> -> ->]. simpl.
    split; [by intros ->|]. by intros _ ?. }
  simpl. rewrite colour_remove_node by done.
  simpl in Hin.
  apply elem_of_app in Hin as [Hin|Hin];
    [|apply elem_of_cons in Hin as [?|Hin]; [done|]].
  - rewrite (remove_notin v r) by (by apply Hdisj).
    destruct (IHl _ _ Hl Hndl Hin) as [Hred Hblack].
    split; [intros Hc; by rewrite (Hred Hc)|].
    intros Hc _.
    destruct (black_height l) as [x|] eqn:Hbl; [|by intros [? ?]].
    destruct (black_height r) as [y|] eqn:Hbr; [|by intros [? ?]].
    case_bool_decide as Hxy; [subst y|by intros [? ?]]. intros _.
    destruct (decide (top l = Some v)) as [Htlv|Htlv].
    + rewrite Htlv in Htl. rewrite Htl in Hl.
      pose proof (leaf_subtree _ _ _ _ _ Hl Hv Hvl Hvr) as ->.
      simpl in *. rewrite decide_True by done. simpl.
      rewrite Hc in Hbl. injection Hbl as <-. done.
    + by rewrite (Hblack Hc Htlv) by eauto.
  - rewrite (remove_notin v l) by (intros ?; by apply (Hdisj v)).
    destruct (IHr _ _ Hr Hndr Hin) as [Hred Hblack].
    split; [intros Hc; by rewrite (Hred Hc)|].
    intros Hc _.
    destruct (black_height l) as [x|] eqn:Hbl; [|by intros [? ?]].
    destruct (black_height r) as [y|] eqn:Hbr; [|by intros [? ?]].
    case_bool_decide as Hxy; [subst y|by intros [? ?]]. intros _.
    destruct (decide (top r = Some v)) as [Htrv|Htrv].
    + rewrite Htrv in Htr. rewrite Htr in Hr.
      pose proof (leaf_subtree _ _ _ _ _ Hr Hv Hvl Hvr) as ->.
      simpl in *. rewrite decide_True by done. simpl.
      rewrite Hc in Hbr. injection Hbr as <-. done.
    + by rewrite (Hblack Hc Htrv) by eauto.
Qed.

End remove_leaf.

Lemma is_right_son_in_tree s v nv q nq :
  heap s !! v = Some nv → parent nv = Some q → heap s !! q = Some nq →
  is_right_son (Some v) s = Ok (bool_decide (right_node nq = Some v), s).
Proof.
  intros Hv Hq Hnq.
  unfold is_right_son, getf, load, bind, ret. simpl. rewrite Hv. simpl.
  rewrite Hq. simpl. rewrite Hnq. simpl.
  destruct (right_node nq) as [c|]; simpl; [|done].
  f_equal. f_equal. apply bool_decide_ext. split; congruence.
Qed.

(** [delete] of a key found at a node without children. *)
Lemma delete_childless s t fuel k v nv :
  is_tree s t → find_key fuel k s = Ok (Some v, s) →
  heap s !! v = Some nv → left_node nv = None → right_node nv = None →
  ∃ s', delete fuel k s = Ok (tt, s') ∧ is_tree s' (remove v t).
Proof.
  intros Ht Hfind Hv Hvl Hvr.
  destruct (find_key_found _ _ _ _ _ _ Ht Hfind) as [Hvt _].
  pose proof Ht as [Hrep Hnd].
  set (s' := if bool_decide (root s = Some v) then mkTree None (heap s)
             else match parent nv with
                  | Some q =>
                      match heap s !! q with
                      | Some nq =>
                          mkTree (root s)
                            (<[q := if bool_decide (right_node nq = Some v)
                                    then with_right_node None nq
                                    else with_left_node None nq]> (heap s))
                      | None => s
                      end
                  | None => s
                  end).
  assert (_delete_childless_node (Some v) s = Ok (tt, s')) as Hdel.
  { unfold _delete_childless_node, s'.
    rewrite (bind_ok _ _ s (bool_decide (Some v = root s)) s eq_refl).
    rewrite (bool_decide_ext (Some v = root s) (root s = Some v))
      by (split; congruence).
    case_bool_decide as Hroot; [done|].
    rewrite (is_tree_root _ _ Ht) in Hroot.
    destruct (rep_remove (heap s) v nv Hv Hvl Hvr t _ _ Hrep Hnd Hvt Hroot)
      as (q & nq & Hq & Hqt & Hnq & _).
    rewrite Hq, Hnq.
    rewrite (bind_ok _ _ _ _ _ (is_right_son_in_tree s v nv q nq Hv Hq Hnq)).
    rewrite (bind_ok _ _ _ _ _ (getf_some parent v nv s Hv)), Hq.
    case_bool_decide; by rewrite (store_some _ _ _ _ Hnq). }
  assert (delete fuel k s = Ok (tt, s')) as Hrun.
  { unfold delete, delete_unlink.
    rewrite (bind_ok _ _ s NoFixup s'); [done|].
    rewrite (bind_ok _ _ _ _ _ Hfind). simpl.
    rewrite (bind_ok _ _ s true s).
    2:{ unfold has_no_children, andM, has_right_son, has_left_son.
        unfold getf, load, bind, ret. simpl. rewrite Hv. simpl.
        rewrite Hvr. simpl. rewrite Hv. simpl. by rewrite Hvl. }
    by rewrite (bind_ok _ _ _ _ _ Hdel). }
  exists s'. split; [exact Hrun|]. unfold s'. clear Hdel Hrun s'.
  case_bool_decide as Hroot.
  - rewrite (is_tree_root _ _ Ht) in Hroot.
    destruct t as [|l a n r]; [done|]. injection Hroot as ->.
    pose proof Hrep as (Hr & _). rewrite Hr in Hrep.
    pose proof (leaf_subtree _ _ _ _ _ Hrep Hv Hvl Hvr) as [= -> -> ->].
    simpl. rewrite decide_True by done. split; [done|constructor].
  - rewrite (is_tree_root _ _ Ht) in Hroot.
    destruct (rep_remove (heap s) v nv Hv Hvl Hvr t _ _ Hrep Hnd Hvt Hroot)
      as (q & nq & Hq & Hqt & Hnq & Hrep').
    rewrite Hq, Hnq. split; [exact Hrep'|].
    destruct (addrs_remove (heap s) v nv Hv Hvl Hvr t _ _ Hrep Hnd Hvt) as [Ha _].
    rewrite Ha in Hnd. by apply NoDup_cons in Hnd as [_ ?].
Qed.

(** X17. Deleting a key that [find_key] locates at a node without
    children, from a state in which the five invariants hold: [delete]
    returns normally, the node is taken out of the tree and nothing else
    changes shape; the order I1, the colour rule I2, the black root I4
    and the tree shape I5 still hold; but the black heights I3 still
    agree exactly when the node was red or was the root. No fix-up is
    run, so taking out a black node that is not the root always leaves
    the tree unbalanced. *)
Theorem delete_of_a_childless_node s t fuel k v nv :
  invariants s = true → tree_of s = Some t →
  find_key fuel k s = Ok (Some v, s) →
  heap s !! v = Some nv → left_node nv = None → right_node nv = None →
  ∃ s', delete fuel k s = Ok (tt, s') ∧
        tree_of s' = Some (remove v t) ∧
        inorder_keys t ≡ₚ key nv :: inorder_keys (remove v t) ∧
        holds bst s' = true ∧ holds no_red_red s' = true ∧
        holds root_black s' = true ∧ I5 s' = true ∧
        (holds balanced s' = true ↔ colour nv = red ∨ root s = Some v).
Proof.
  intros Hinv Hto Hfind Hv Hvl Hvr.
  apply invariants_iff in Hinv as (t0 & Ht & Hbst & Hnrr & Hbal & Hroot).
  assert (t0 = t) as -> by (rewrite (is_tree_tree_of s t0 Ht) in Hto; congruence).
  destruct (find_key_found _ _ _ _ _ _ Ht Hfind) as [Hvt _].
  pose proof Ht as [Hrep Hnd].
  destruct (delete_childless s t fuel k v nv Ht Hfind Hv Hvl Hvr)
    as (s' & Hrun & Ht').
  pose proof (is_tree_tree_of s' _ Ht') as Hto'.
  exists s'. split; [done|]. split; [done|].
  split; [by apply (addrs_remove (heap s) v nv Hv Hvl Hvr t _ _ Hrep Hnd Hvt)|].
  unfold holds, I5. rewrite Hto'.
  split; [by apply (bst_remove (heap s) v nv Hv Hvl Hvr t _ _ Hrep Hnd Hvt)|].
  split; [by apply no_red_red_remove|].
  split.
  { apply bool_decide_eq_true_2. apply top_colour_remove_black.
    by apply bool_decide_eq_true_1 in Hroot. }
  split; [apply bool_decide_eq_true_2, Ht'|].
  destruct (black_height_remove (heap s) v nv Hv Hvl Hvr t _ _ Hrep Hnd Hvt)
    as [Hred Hblack].
  unfold balanced in *. rewrite (is_tree_root _ _ Ht). split.
  - intros Hb. destruct (colour nv) eqn:Hc; [|by left]. right.
    destruct (decide (top t = Some v)) as [?|Hne]; [done|].
    rewrite Hblack in Hb; [done|done|done|].
    by destruct (black_height t).
  - intros [Hc|Htop].
    + by rewrite (Hred Hc).
    + destruct t as [|l a n r]; [done|]. injection Htop as ->.
      simpl. by rewrite decide_True.
Qed.

Lemma delete_of_a_childless_node_witness :
  ∃ t nv, invariants tree_1_to_4 = true ∧ tree_of tree_1_to_4 = Some t ∧
          heap tree_1_to_4 !! 0%nat = Some nv ∧ colour nv = black ∧
          ∃ s', delete 8 1 tree_1_to_4 = Ok (tt, s') ∧
                tree_of s' = Some (remove 0%nat t) ∧
                holds bst s' = true ∧ holds balanced s' ≠ true.
Proof.
  destruct (tree_of tree_1_to_4) as [t|] eqn:Hto;
    [|vm_compute in Hto; discriminate].
  destruct (heap tree_1_to_4 !! 0%nat) as [nv|] eqn:Hnv;
    [|vm_compute in Hnv; discriminate].
  assert (invariants tree_1_to_4 = true) as Hinv by (vm_compute; reflexivity).
  assert (colour nv = black) as Hc
    by (vm_compute in Hnv; injection Hnv as <-; reflexivity).
  exists t, nv. split; [exact Hinv|]. split; [reflexivity|].
  split; [reflexivity|]. split; [exact Hc|].
  destruct (delete_of_a_childless_node tree_1_to_4 t 8%nat 1 0%nat nv Hinv Hto)
    as (s' & Hrun & Hto' & _ & Hbst & _ & _ & _ & Hbal).
  - vm_compute. reflexivity.
  - exact Hnv.
  - vm_compute in Hnv. injection Hnv as <-. reflexivity.
  - vm_compute in Hnv. injection Hnv as <-. reflexivity.
  - exists s'. split; [exact Hrun|]. split; [exact Hto'|].
    split; [exact Hbst|].
    intros Hb. apply Hbal in Hb as [Hred|Hroot].
    + rewrite Hc in Hred. discriminate.
    + vm_compute in Hroot. discriminate.
Defined.
